(** * Multi-trial file classification: aggregation, normalisation and the
      dominance decision of [classifyFile] (classifier.ts)

    The development embeds the pure core of the classifier:
    [getPathKey], [aggregateSuggestions], [normalizeConfidences],
    [isNewFolderSuggestedMultipleTimes] and the body of [classifyFile]
    (the retry loop around [makeTrial] and the dominance analysis).

    Modelling choices.
    - A JavaScript [number] holding a confidence is an exact rational
      ([Qc], canonical fractions, so that equality is Leibniz equality);
      counters ([count], [attempts]) are [nat].  The program computes in
      IEEE-754 doubles: its sums, its quotient and its product are
      rounded.  Comparisons of two given numbers, and sums of whole
      numbers, are the same in both; where a statement compares sums taken
      in different orders it is made for whole-number confidences between
      0 and 100 ([wholeConfidences]), and where it is about exact values
      it says so.
    - A JavaScript string is a [string] (a sequence of 8-bit code units).
    - The JavaScript [Map] keeps its keys in insertion order and
      [Array.from(map.entries())] exposes that order: it is an association
      list in which [set] on a fresh key appends at the end.
    - [Array.prototype.sort] is stable; it is a stable insertion sort
      driven by the comparator's sign.
    - Each call of [makeTrial] either returns a [TrialResult] or throws;
      the oracle is a function from the call's index to that outcome. *)

From Stdlib Require Import List String Ascii Bool Arith Lia ZArith NArith.
From Stdlib Require Import QArith Qcanon Permutation Sorted.
Import ListNotations.

Set Implicit Arguments.
Open Scope nat_scope.
Open Scope list_scope.

(* ================================================================= *)
(** ** Numbers *)

(** Exact rationals stand for the doubles of the program: the two agree on
    comparisons and on the arithmetic of whole numbers of the size of
    confidences and their sums; a rounded sum, quotient or product of the
    program is its exact value here. *)
Definition number := Qc.

Module Num.

(** An integer literal of the source, as a [number]. *)
Definition lit (z : Z) : number := Q2Qc (inject_Z z).

(** [a <= b], [a < b] and [a === b] as the booleans the source tests. *)
Definition leb (a b : number) : bool :=
  match (a ?= b)%Qc with Gt => false | _ => true end.

Definition ltb (a b : number) : bool :=
  match (a ?= b)%Qc with Lt => true | _ => false end.

Definition eqb (a b : number) : bool :=
  match (a ?= b)%Qc with Eq => true | _ => false end.

(** Sum of a list of numbers, as [reduce((sum, x) => sum + x, 0)]. *)
Definition sum (l : list number) : number :=
  fold_left Qcplus l (lit 0).

End Num.

(* ================================================================= *)
(** ** JSON.stringify on arrays of strings *)

Module Json.

Definition dquote : ascii := "034"%char.
Definition backslash : ascii := "092"%char.

Definition hexDigit (n : N) : ascii :=
  if (n <? 10)%N then ascii_of_N (48 + n) else ascii_of_N (87 + n).

(** QuoteJSONString, one code unit at a time: the two-character escapes,
    [\u00XX] for the remaining control characters, the unit itself
    otherwise. *)
Definition quoteChar (c : ascii) : string :=
  let n := N_of_ascii c in
  if (n =? 34)%N then String backslash (String dquote EmptyString)
  else if (n =? 92)%N then String backslash (String backslash EmptyString)
  else if (n =? 8)%N then String backslash "b"
  else if (n =? 12)%N then String backslash "f"
  else if (n =? 10)%N then String backslash "n"
  else if (n =? 13)%N then String backslash "r"
  else if (n =? 9)%N then String backslash "t"
  else if (n <? 32)%N then
    String backslash
      (String "u" (String "0" (String "0"
        (String (hexDigit (n / 16)) (String (hexDigit (n mod 16)) EmptyString)))))
  else String c EmptyString.

Fixpoint quoteBody (s : string) : string :=
  match s with
  | EmptyString => EmptyString
  | String c s' => (quoteChar c ++ quoteBody s')%string
  end.

Definition quote (s : string) : string :=
  String dquote (quoteBody s ++ String dquote EmptyString)%string.

Fixpoint join (sep : string) (l : list string) : string :=
  match l with
  | [] => EmptyString
  | [x] => x
  | x :: rest => (x ++ sep ++ join sep rest)%string
  end.

(** [JSON.stringify] of a [string[]]. *)
Definition stringify (a : list string) : string :=
  ("[" ++ join "," (map quote a) ++ "]")%string.

End Json.

(* ================================================================= *)
(** ** The insertion-ordered Map *)

Module JsMap.
Section Ops.
Variable V : Type.

Definition t := list (string * V).

Fixpoint get (key : string) (m : t) : option V :=
  match m with
  | [] => None
  | (k, v) :: m' => if String.eqb k key then Some v else get key m'
  end.

Definition has (key : string) (m : t) : bool :=
  match get key m with Some _ => true | None => false end.

(** [set] overwrites the value of a present key in place and appends a
    fresh key at the end. *)
Fixpoint set (key : string) (v : V) (m : t) : t :=
  match m with
  | [] => [(key, v)]
  | (k, w) :: m' =>
      if String.eqb k key then (k, v) :: m' else (k, w) :: set key v m'
  end.

Definition keys (m : t) : list string := map fst m.
Definition values (m : t) : list V := map snd m.
Definition entries (m : t) : list (string * V) := m.
End Ops.
End JsMap.

(* ================================================================= *)
(** ** Data of classifier.ts *)

Record FolderSuggestion := {
  path : list string;
  newFolderName : option string;
  isNewFolder : bool;
  confidence : number
}.

Record TrialResult := {
  suggestions : list FolderSuggestion;
  rawResponse : string
}.

(** The value type of the aggregation map. *)
Record Aggregated := {
  a_path : list string;
  a_newFolderName : option string;
  a_isNewFolder : bool;
  totalConfidence : number;
  count : nat
}.

(** An element of the normalised array. *)
Record Normalized := {
  n_path : list string;
  n_newFolderName : option string;
  n_isNewFolder : bool;
  normalizedConfidence : number;
  n_count : nat
}.

(** [topChoice] and the elements of [alternatives]. *)
Record Choice := {
  c_path : list string;
  c_newFolderName : option string;
  c_isNewFolder : bool;
  c_normalizedConfidence : number
}.

Record ClassificationResult := {
  topChoice : Choice;
  alternatives : list Choice;
  isDominant : bool;
  needsReview : bool;
  reviewReason : option string;
  rawTrials : list TrialResult
}.

(** [new Error(message)]. *)
Inductive Error := mkError (message : string).

(* ================================================================= *)
(** ** getPathKey *)

(** Truthiness of an optional string: present and not empty. *)
Definition truthy (s : option string) : bool :=
  match s with
  | Some (String _ _) => true
  | _ => false
  end.

(** A value interpolated into a template literal. *)
Definition interpolate (s : option string) : string :=
  match s with
  | Some text => text
  | None => "undefined"
  end.

Definition getPathKey (path : list string) (newFolderName : option string)
    (isNewFolder : bool) : string :=
  if isNewFolder && truthy newFolderName
  then Json.stringify (path ++ [("NEW:" ++ interpolate newFolderName)%string])
  else Json.stringify path.

Definition keyOf (s : FolderSuggestion) : string :=
  getPathKey (path s) (newFolderName s) (isNewFolder s).

(* ================================================================= *)
(** ** makeTrial: what becomes of the model's response *)

(** A parsed element of the response array before validation; a field is
    [None] when it is missing or not of the JavaScript type the check
    expects. *)
Record RawSuggestion := {
  raw_path : option (list string);
  raw_newFolderName : option string;
  raw_isNewFolder : option bool;
  raw_confidence : option number
}.

(** What one call can meet: the request throws, the text is not JSON, the
    JSON is not an array, or an array of elements is parsed. *)
Inductive Response :=
| RequestFailed (e : Error)
| NotJson (text : string) (syntaxError : string)
| NotArray (text : string)
| Parsed (text : string) (elements : list RawSuggestion).

Definition checkSuggestion (r : RawSuggestion) : Error + FolderSuggestion :=
  match raw_path r with
  | None => inl (mkError "Invalid response: path must be an array")
  | Some p =>
      let isNew :=
        match raw_isNewFolder r with Some b => b | None => false end in
      match raw_confidence r with
      | None =>
          inl (mkError
            "Invalid response: confidence must be a number between 0 and 100")
      | Some c =>
          if Num.ltb c (Num.lit 0) || Num.ltb (Num.lit 100) c then
            inl (mkError
              "Invalid response: confidence must be a number between 0 and 100")
          else if isNew && negb (truthy (raw_newFolderName r)) then
            inl (mkError
              "Invalid response: newFolderName is required when isNewFolder is true")
          else
            inr {| path := p;
                   newFolderName := raw_newFolderName r;
                   isNewFolder := isNew;
                   confidence := c |}
      end
  end.

(** The validation loop: the first offending element throws. *)
Fixpoint checkSuggestions (l : list RawSuggestion)
    : Error + list FolderSuggestion :=
  match l with
  | [] => inr []
  | r :: l' =>
      match checkSuggestion r with
      | inl e => inl e
      | inr s =>
          match checkSuggestions l' with
          | inl e => inl e
          | inr ss => inr (s :: ss)
          end
      end
  end.

Definition makeTrialOn (response : Response) : Error + TrialResult :=
  match response with
  | RequestFailed e => inl e
  | NotJson text syntaxError =>
      inl (mkError ("Failed to parse LLM response as JSON: " ++ syntaxError))
  | NotArray text =>
      inl (mkError "Invalid response: expected an array of suggestions")
  | Parsed text elements =>
      match checkSuggestions elements with
      | inl e => inl e
      | inr ss => inr {| suggestions := ss; rawResponse := text |}
      end
  end.

(* ================================================================= *)
(** ** aggregateSuggestions *)

(** The body of the inner loop: one suggestion merged into the map. *)
Definition aggregateOne (aggregated : JsMap.t Aggregated)
    (suggestion : FolderSuggestion) : JsMap.t Aggregated :=
  let key := keyOf suggestion in
  if JsMap.has key aggregated then
    match JsMap.get key aggregated with
    | Some existing =>
        JsMap.set key
          {| a_path := a_path existing;
             a_newFolderName := a_newFolderName existing;
             a_isNewFolder := a_isNewFolder existing;
             totalConfidence :=
               (totalConfidence existing + confidence suggestion)%Qc;
             count := count existing + 1 |}
          aggregated
    | None => aggregated
    end
  else
    JsMap.set key
      {| a_path := path suggestion;
         a_newFolderName := newFolderName suggestion;
         a_isNewFolder := isNewFolder suggestion;
         totalConfidence := confidence suggestion;
         count := 1 |}
      aggregated.

Definition aggregateTrial (aggregated : JsMap.t Aggregated)
    (trial : TrialResult) : JsMap.t Aggregated :=
  fold_left aggregateOne (suggestions trial) aggregated.

Definition aggregateSuggestions (trials : list TrialResult)
    : JsMap.t Aggregated :=
  fold_left aggregateTrial trials [].

(* ================================================================= *)
(** ** normalizeConfidences *)

(** [Array.prototype.sort(compareFn)]: stable; an element moves in front
    of the first later element it does not have to follow. *)
Section ArraySort.
Variable A : Type.
Variable compareFn : A -> A -> number.

Fixpoint sortInsert (x : A) (l : list A) : list A :=
  match l with
  | [] => [x]
  | y :: l' =>
      if Num.leb (compareFn x y) (Num.lit 0)
      then x :: y :: l'
      else y :: sortInsert x l'
  end.

Fixpoint sort (l : list A) : list A :=
  match l with
  | [] => []
  | x :: l' => sortInsert x (sort l')
  end.
End ArraySort.

Definition grandTotal (aggregated : JsMap.t Aggregated) : number :=
  Num.sum (map (@totalConfidence) (JsMap.values aggregated)).

Definition normalizeItem (total : number) (entry : string * Aggregated)
    : Normalized :=
  let '(key, item) := entry in
  {| n_path := a_path item;
     n_newFolderName := a_newFolderName item;
     n_isNewFolder := a_isNewFolder item;
     normalizedConfidence :=
       (totalConfidence item / total * Num.lit 100)%Qc;
     n_count := count item |}.

Definition byConfidenceDesc (a b : Normalized) : number :=
  (normalizedConfidence b - normalizedConfidence a)%Qc.

Definition normalizeConfidences (aggregated : JsMap.t Aggregated)
    : list Normalized :=
  let total := grandTotal aggregated in
  if Num.eqb total (Num.lit 0) then []
  else sort byConfidenceDesc
         (map (normalizeItem total) (JsMap.entries aggregated)).

(* ================================================================= *)
(** ** isNewFolderSuggestedMultipleTimes *)

Definition isNewFolderSuggestedMultipleTimes (normalized : list Normalized)
    (trials : list TrialResult) : bool :=
  let newFolderSuggestions := filter (@n_isNewFolder) normalized in
  if List.length newFolderSuggestions =? 0 then false
  else existsb (fun n => 2 <=? n_count n) newFolderSuggestions.

(* ================================================================= *)
(** ** classifyFile: the dominance analysis *)

(** The review reasons, as the strings the source pushes. *)
Definition LowAbsoluteConfidence : string := "low absolute confidence".
Definition CloseAlternatives : string := "close alternatives".
Definition NewFolderUnverified : string :=
  "new folder suggestion needs verification".
Definition NewFolderSingleTrial : string :=
  "new folder suggested in only one trial".

(** The errors [classifyFile] throws itself: the two terminal errors of the
    classification core and the missing API key. *)
Definition NoUsableSamples : Error :=
  mkError "All classification trials failed".
Definition EmptyAggregate : Error :=
  mkError "No valid suggestions received from any trial".
Definition MissingApiKey : Error :=
  mkError "GEMINI_API_KEY environment variable is not set".

Section Dominance.
Variable normalized : list Normalized.
Variable trials : list TrialResult.
Variable topChoice : Normalized.
Variable alternatives : list Normalized.

Definition hasNewFolderInSingleTrial : bool :=
  existsb (fun n => n_isNewFolder n && (n_count n =? 1)) normalized.

Definition newFolderSuggestedMultipleTimes : bool :=
  isNewFolderSuggestedMultipleTimes normalized trials.

Definition absoluteThreshold : bool :=
  Num.leb (Num.lit 50) (normalizedConfidence topChoice).

(** [alternatives[0]] is read only when the array is not empty: [||] does
    not evaluate its right operand otherwise. *)
Definition relativeDominance : bool :=
  (List.length alternatives =? 0)
  || match alternatives with
     | second :: _ =>
         Num.leb (Num.lit 2 * normalizedConfidence second)%Qc
                 (normalizedConfidence topChoice)
     | [] => false
     end.

Definition newFolderNeedsReview : bool :=
  n_isNewFolder topChoice
  && (negb newFolderSuggestedMultipleTimes
      || (n_count topChoice <? 3)
      || Num.ltb (normalizedConfidence topChoice) (Num.lit 50)).

Definition dominant : bool :=
  absoluteThreshold && relativeDominance
  && negb newFolderNeedsReview && negb hasNewFolderInSingleTrial.

Definition reviewReasons : list string :=
  (if negb absoluteThreshold then [LowAbsoluteConfidence] else [])
  ++ (if negb relativeDominance && (0 <? List.length alternatives)
      then [CloseAlternatives] else [])
  ++ (if newFolderNeedsReview then [NewFolderUnverified] else [])
  ++ (if hasNewFolderInSingleTrial then [NewFolderSingleTrial] else []).

Definition toChoice (n : Normalized) : Choice :=
  {| c_path := n_path n;
     c_newFolderName := n_newFolderName n;
     c_isNewFolder := n_isNewFolder n;
     c_normalizedConfidence := normalizedConfidence n |}.

(** The object [classifyFile] returns: [topChoice], [alternatives],
    [isDominant], [needsReview], [reviewReason], [rawTrials]. *)
Definition buildResult : ClassificationResult :=
  Build_ClassificationResult
    (toChoice topChoice)
    (map toChoice alternatives)
    dominant
    (negb dominant)
    (if 0 <? List.length reviewReasons
     then Some (Json.join "; " reviewReasons) else None)
    trials.
End Dominance.

(** What [classifyFile] does with the normalised array: it throws when the
    array is empty, and otherwise analyses [normalized[0]] against
    [normalized.slice(1)]. *)
Definition decide (normalized : list Normalized) (trials : list TrialResult)
    : Error + ClassificationResult :=
  match normalized with
  | [] => inl EmptyAggregate
  | topChoice :: alternatives =>
      inr (buildResult normalized trials topChoice alternatives)
  end.

(* ================================================================= *)
(** ** classifyFile: the retry loop around makeTrial *)

Definition maxAttempts : nat := 6.

(** The two variables of the loop, [trials] and [attempts]. *)
Record Sampling := {
  trials_ : list TrialResult;
  attempts : nat
}.

Section Sampler.
(** The outcome of the call of [makeTrial] made as attempt number [i]
    (counted from 1): a thrown error or a trial. *)
Variable makeTrial : nat -> Error + TrialResult.

(** One turn of the [while] loop, when its condition holds. *)
Definition attempt (st : Sampling) : Sampling :=
  let attempts := attempts st + 1 in
  match makeTrial attempts with
  | inr trial => {| trials_ := trials_ st ++ [trial]; attempts := attempts |}
  | inl _ => {| trials_ := trials_ st; attempts := attempts |}
  end.

Definition continue (st : Sampling) : bool :=
  (List.length (trials_ st) <? 3) && (attempts st <? maxAttempts).

(** The loop, run for at most [fuel] turns. *)
Fixpoint collectLoop (fuel : nat) (st : Sampling) : Sampling :=
  match fuel with
  | 0 => st
  | S fuel' =>
      if continue st then collectLoop fuel' (attempt st) else st
  end.

(** Each turn increments [attempts], so [maxAttempts] turns suffice. *)
Definition collectSamples : Sampling :=
  collectLoop maxAttempts {| trials_ := []; attempts := 0 |}.

Definition classifyFile (apiKey : option string)
    : Error + ClassificationResult :=
  if negb (truthy apiKey) then inl MissingApiKey
  else
    let trials := trials_ collectSamples in
    if List.length trials =? 0 then inl NoUsableSamples
    else
      let aggregated := aggregateSuggestions trials in
      let normalized := normalizeConfidences aggregated in
      decide normalized trials.
End Sampler.

(* ================================================================= *)
(** ** Derived notions used in the statements *)

(** What [makeTrial]'s validation guarantees of every suggestion of a trial
    it returns. *)
Definition validSuggestion (s : FolderSuggestion) : bool :=
  Num.leb (Num.lit 0) (confidence s)
  && Num.leb (confidence s) (Num.lit 100)
  && (negb (isNewFolder s) || truthy (newFolderName s)).

(** The entry a first sighting creates, and the update a later one makes. *)
Definition seed (s : FolderSuggestion) : Aggregated :=
  {| a_path := path s;
     a_newFolderName := newFolderName s;
     a_isNewFolder := isNewFolder s;
     totalConfidence := confidence s;
     count := 1 |}.

Definition bump (existing : Aggregated) (s : FolderSuggestion) : Aggregated :=
  {| a_path := a_path existing;
     a_newFolderName := a_newFolderName existing;
     a_isNewFolder := a_isNewFolder existing;
     totalConfidence := (totalConfidence existing + confidence s)%Qc;
     count := count existing + 1 |}.

Definition merge (e : option Aggregated) (s : FolderSuggestion) : Aggregated :=
  match e with Some existing => bump existing s | None => seed s end.

(** What a run of suggestions with one key does to that key's entry. *)
Definition absorb (e : option Aggregated) (ss : list FolderSuggestion)
    : option Aggregated :=
  fold_left (fun e s => Some (merge e s)) ss e.

(** Every entry is stored under the key of its own fields. *)
Definition keyed (entry : string * Aggregated) : Prop :=
  getPathKey (a_path (snd entry)) (a_newFolderName (snd entry))
             (a_isNewFolder (snd entry)) = fst entry.

(** What aggregation determines independently of the order of the trials. *)
Definition stats (e : Aggregated) : number * nat :=
  (totalConfidence e, count e).

Definition statsView (entry : string * Aggregated) : string * number * nat :=
  (fst entry, totalConfidence (snd entry), count (snd entry)).

(** The view of a ranked candidate computed from its entry's statistics. *)
Definition rescale (total : number) (v : string * number * nat)
    : string * number * nat :=
  let '(key, t, c) := v in (key, (t / total * Num.lit 100)%Qc, c).

(** All suggestions of all trials, in the order the two loops visit them. *)
Definition allSuggestions (trials : list TrialResult) : list FolderSuggestion :=
  flat_map suggestions trials.

(** The suggestions that carry a given key. *)
Definition withKey (key : string) (l : list FolderSuggestion)
    : list FolderSuggestion :=
  filter (fun s => String.eqb (keyOf s) key) l.

Definition sumConfidence (l : list FolderSuggestion) : number :=
  Num.sum (map confidence l).

(** The number of trials in which a key is proposed at least once. *)
Definition proposes (key : string) (trial : TrialResult) : bool :=
  existsb (fun s => String.eqb (keyOf s) key) (suggestions trial).

Definition trialsProposing (key : string) (trials : list TrialResult) : nat :=
  List.length (filter (proposes key) trials).

(** No trial lists the same candidate twice. *)
Definition distinctWithinTrials (trials : list TrialResult) : Prop :=
  Forall (fun t => NoDup (map keyOf (suggestions t))) trials.

(** The identity, confidence and count of a ranked candidate. *)
Definition keyOfNormalized (n : Normalized) : string :=
  getPathKey (n_path n) (n_newFolderName n) (n_isNewFolder n).

Definition view (n : Normalized) : string * number * nat :=
  (keyOfNormalized n, normalizedConfidence n, n_count n).

Definition descending (l : list Normalized) : Prop :=
  StronglySorted
    (fun a b => (normalizedConfidence b <= normalizedConfidence a)%Qc) l.

(** The ranking computed from a list of trials. *)
Definition rank (trials : list TrialResult) : list Normalized :=
  normalizeConfidences (aggregateSuggestions trials).

(** The verdict and the reasons for a ranking [top :: rest]. *)
Definition verdict (top : Normalized) (rest : list Normalized)
    (trials : list TrialResult) : ClassificationResult :=
  buildResult (top :: rest) trials top rest.

Definition reasons (top : Normalized) (rest : list Normalized)
    (trials : list TrialResult) : list string :=
  reviewReasons (top :: rest) trials top rest.

(** The position of a reason among the four rules (0 for anything else). *)
Definition ruleNumber (reason : string) : nat :=
  if String.eqb reason LowAbsoluteConfidence then 1
  else if String.eqb reason CloseAlternatives then 2
  else if String.eqb reason NewFolderUnverified then 3
  else if String.eqb reason NewFolderSingleTrial then 4
  else 0.

(** The outcomes of the first [n] calls of the oracle and the trials among
    them. *)
Definition outcomes (makeTrial : nat -> Error + TrialResult) (n : nat)
    : list (Error + TrialResult) :=
  map makeTrial (seq 1 n).

Definition returned (l : list (Error + TrialResult)) : list TrialResult :=
  flat_map (fun o => match o with inr t => [t] | inl _ => [] end) l.

(** A sample that is usable in the words of the specification: one that
    holds at least one suggestion.  The loop of [classifyFile] does not
    test this: it keeps every trial that [makeTrial] returns. *)
Definition usableBySpec (t : TrialResult) : bool :=
  match suggestions t with
  | [] => false
  | _ :: _ => true
  end.

(** The confidences of all suggestions are whole numbers between 0 and
    100, the range that [makeTrial] admits.  The sums of such numbers are
    exact in floating point, in whatever order they are added, and two
    quotients of such sums by their grand total are equal or ordered in
    floating point as they are as exact numbers. *)
Definition wholeConfidence (x : number) : Prop :=
  exists z : Z, (0 <= z <= 100)%Z /\ x = Num.lit z.

Definition wholeConfidences (trials : list TrialResult) : Prop :=
  Forall (fun s => wholeConfidence (confidence s)) (allSuggestions trials).

Definition failed (l : list (Error + TrialResult)) : nat :=
  List.length (filter (fun o => match o with inl _ => true | inr _ => false end) l).

(** What holds of the loop's state at every turn: the trials are the
    returned outcomes of the attempts made so far, both counters are within
    their bounds, and no earlier attempt had already completed the target. *)
Definition collected (makeTrial : nat -> Error + TrialResult) (st : Sampling)
    : Prop :=
  trials_ st = returned (outcomes makeTrial (attempts st))
  /\ attempts st <= maxAttempts
  /\ List.length (trials_ st) <= 3
  /\ forall n, n < attempts st ->
       List.length (returned (outcomes makeTrial n)) < 3.

(** An oracle that replays a fixed script of outcomes and then behaves as
    [after]. *)
Definition scripted (script : list (Error + TrialResult))
    (after : nat -> Error + TrialResult) (i : nat) : Error + TrialResult :=
  match nth_error script (i - 1) with
  | Some o => o
  | None => after i
  end.

(* ================================================================= *)
(** ** Sample data *)

Definition existingFolder (p : list string) (c : Z) : FolderSuggestion :=
  {| path := p; newFolderName := None; isNewFolder := false;
     confidence := Num.lit c |}.

Definition newFolder (p : list string) (name : string) (c : Z)
    : FolderSuggestion :=
  {| path := p; newFolderName := Some name; isNewFolder := true;
     confidence := Num.lit c |}.

Definition trialOf (l : list FolderSuggestion) : TrialResult :=
  {| suggestions := l; rawResponse := EmptyString |}.

Definition ranked (p : list string) (name : option string) (isNew : bool)
    (c : Z) (n : nat) : Normalized :=
  {| n_path := p; n_newFolderName := name; n_isNewFolder := isNew;
     normalizedConfidence := Num.lit c; n_count := n |}.

(** The response that parses into the given suggestions. *)
Definition rawOf (s : FolderSuggestion) : RawSuggestion :=
  {| raw_path := Some (path s);
     raw_newFolderName := newFolderName s;
     raw_isNewFolder := Some (isNewFolder s);
     raw_confidence := Some (confidence s) |}.

Definition responseOf (l : list FolderSuggestion) : Response :=
  Parsed EmptyString (map rawOf l).

(** Six responses that [makeTrial] rejects, each for another reason. *)
Definition rejected : list Response :=
  [ RequestFailed (mkError "fetch failed");
    NotJson "Sorry, I cannot classify this file." "Unexpected token S";
    NotArray "{}";
    Parsed "[{}]" [ {| raw_path := None; raw_newFolderName := None;
                       raw_isNewFolder := None; raw_confidence := None |} ];
    Parsed "[...]" [ {| raw_path := Some ["Archive"%string];
                        raw_newFolderName := None;
                        raw_isNewFolder := Some false;
                        raw_confidence := Some (Num.lit 150) |} ];
    Parsed "[...]" [ {| raw_path := Some ["Archive"%string];
                        raw_newFolderName := None;
                        raw_isNewFolder := Some true;
                        raw_confidence := Some (Num.lit 80) |} ] ].

(** The calls of [makeTrial] against an oracle that answers with the given
    responses, in order, and whose requests fail afterwards. *)
Definition answering (responses : list Response) (i : nat)
    : Error + TrialResult :=
  makeTrialOn (nth (i - 1) responses (RequestFailed (mkError "fetch failed"))).

(** An oracle whose calls return the given trials, in order, and fail
    afterwards. *)
Definition returning (l : list TrialResult) : nat -> Error + TrialResult :=
  answering (map (fun t => responseOf (suggestions t)) l).

(* ================================================================= *)
(** ** Further notions for the classifier *)

(** The sum of the counts of all entries of the aggregation map. *)
Definition totalCount (aggregated : JsMap.t Aggregated) : nat :=
  list_sum (map (@count) (JsMap.values aggregated)).

(** The array whose JSON text [getPathKey] returns. *)
Definition keyArray (s : FolderSuggestion) : list string :=
  if isNewFolder s && truthy (newFolderName s)
  then path s ++ [("NEW:" ++ interpolate (newFolderName s))%string]
  else path s.

(** An element that passes the three checks of [makeTrial]'s loop. *)
Definition acceptable (r : RawSuggestion) : bool :=
  match raw_path r, raw_confidence r with
  | Some _, Some c =>
      Num.leb (Num.lit 0) c && Num.leb c (Num.lit 100)
      && (negb (match raw_isNewFolder r with Some b => b | None => false end)
          || truthy (raw_newFolderName r))
  | _, _ => false
  end.

(** How a suggestion of a returned trial relates to the element it comes
    from: same path, name and confidence, and [isNewFolder] false when the
    element had no boolean there. *)
Definition keptAs (r : RawSuggestion) (s : FolderSuggestion) : Prop :=
  raw_path r = Some (path s)
  /\ raw_confidence r = Some (confidence s)
  /\ newFolderName s = raw_newFolderName r
  /\ isNewFolder s
     = match raw_isNewFolder r with Some b => b | None => false end.

(** The calls of [makeTrial] against an oracle that answers call [i] with
    [responses i]. *)
Definition answeringWith (responses : nat -> Response) (i : nat)
    : Error + TrialResult :=
  makeTrialOn (responses i).

Definition choiceDescending (l : list Choice) : Prop :=
  StronglySorted
    (fun a b => (c_normalizedConfidence b <= c_normalizedConfidence a)%Qc) l.

(** The distinct elements of a list, each at the place of its first
    occurrence. *)
Definition firstSightings (l : list string) : list string :=
  fold_left
    (fun seen k => if existsb (String.eqb k) seen then seen else seen ++ [k])
    l [].

(** The candidates of a ranking whose normalised confidence is [v]. *)
Definition tiedAt (v : number) (l : list Normalized) : list Normalized :=
  filter (fun n => Num.eqb (normalizedConfidence n) v) l.

(** The array that [normalizeConfidences] hands to [sort]: one candidate
    for every entry of the map, in the order of the map. *)
Definition beforeSort (trials : list TrialResult) : list Normalized :=
  map (normalizeItem (grandTotal (aggregateSuggestions trials)))
      (JsMap.entries (aggregateSuggestions trials)).

(* ================================================================= *)
(** ** Reading a JSON string literal back *)

(** The value of a lower-case hexadecimal digit. *)
Definition hexValue (c : ascii) : option N :=
  let n := N_of_ascii c in
  if ((48 <=? n) && (n <=? 57))%N then Some (n - 48)%N
  else if ((97 <=? n) && (n <=? 102))%N then Some (n - 87)%N
  else None.

Definition prepend (c : ascii) (r : option (string * string))
    : option (string * string) :=
  match r with
  | Some (body, rest) => Some (String c body, rest)
  | None => None
  end.

(** Reads the characters of a JSON string literal up to its closing quote
    and returns them with the text that follows the quote. *)
Fixpoint unquoteBody (s : string) : option (string * string) :=
  match s with
  | EmptyString => None
  | String c s' =>
      if Ascii.eqb c Json.dquote then Some (EmptyString, s')
      else if Ascii.eqb c Json.backslash then
        match s' with
        | EmptyString => None
        | String e s'' =>
            if Ascii.eqb e Json.dquote then prepend Json.dquote (unquoteBody s'')
            else if Ascii.eqb e Json.backslash
            then prepend Json.backslash (unquoteBody s'')
            else if Ascii.eqb e "b" then prepend "008"%char (unquoteBody s'')
            else if Ascii.eqb e "f" then prepend "012"%char (unquoteBody s'')
            else if Ascii.eqb e "n" then prepend "010"%char (unquoteBody s'')
            else if Ascii.eqb e "r" then prepend "013"%char (unquoteBody s'')
            else if Ascii.eqb e "t" then prepend "009"%char (unquoteBody s'')
            else if Ascii.eqb e "u" then
              match s'' with
              | String _ (String _ (String h (String l s3))) =>
                  match hexValue h, hexValue l with
                  | Some x, Some y =>
                      prepend (ascii_of_N (16 * x + y)) (unquoteBody s3)
                  | _, _ => None
                  end
              | _ => None
              end
            else None
        end
      else prepend c (unquoteBody s')
  end.

(** The text of an array after its opening bracket. *)
Definition arrayTail (a : list string) : string :=
  (Json.join "," (map Json.quote a) ++ "]")%string.

(* ================================================================= *)
(** ** The folder hierarchy (utils/hierarchy.ts)

    [type Hierarchy = { [key: string]: Hierarchy }] is a plain object whose
    values are objects of the same kind.  The list holds the object's own
    properties in the order in which [Object.keys] and [Object.entries]
    enumerate them: array-index keys first, in ascending numeric order,
    then the other keys in the order of their creation.  The file
    hierarchy.json is represented by the value that [JSON.parse] reads from
    it and [JSON.stringify] writes to it. *)

#[local] Set Warnings "-register-all".
Inductive Hierarchy := Folders (children : list (string * Hierarchy)).
#[local] Set Warnings "register-all".

Definition childrenOf (h : Hierarchy) : list (string * Hierarchy) :=
  match h with Folders children => children end.

(** [Object.keys(h)]. *)
Definition ownKeys (h : Hierarchy) : list string := map fst (childrenOf h).

(** The own property [key] of [h], if there is one. *)
Definition ownGet (key : string) (h : Hierarchy) : option Hierarchy :=
  JsMap.get key (childrenOf h).

Definition hasOwn (key : string) (h : Hierarchy) : bool :=
  match ownGet key h with Some _ => true | None => false end.

(** The number a key denotes when it is an array index: a canonical decimal
    numeral below 2^32 - 1. *)
Fixpoint digitsValue (s : string) (acc : N) : option N :=
  match s with
  | EmptyString => Some acc
  | String c s' =>
      let n := N_of_ascii c in
      if ((48 <=? n) && (n <=? 57))%N
      then digitsValue s' (10 * acc + (n - 48))%N
      else None
  end.

Definition arrayIndex (key : string) : option N :=
  match key with
  | EmptyString => None
  | String c rest =>
      if Ascii.eqb c "0" && negb (String.eqb rest EmptyString) then None
      else
        match digitsValue key 0 with
        | Some n => if (n <=? 4294967294)%N then Some n else None
        | None => None
        end
  end.

(** A new array-index key goes before the first key that is no smaller
    array index. *)
Fixpoint insertIndex (n : N) (key : string) (v : Hierarchy)
    (l : list (string * Hierarchy)) : list (string * Hierarchy) :=
  match l with
  | [] => [(key, v)]
  | (k, w) :: l' =>
      match arrayIndex k with
      | Some m =>
          if (m <? n)%N then (k, w) :: insertIndex n key v l'
          else (key, v) :: l
      | None => (key, v) :: l
      end
  end.

(** [h[key] = v]: an existing own property keeps its place, a new one is
    created at the place the enumeration order gives it. *)
Definition ownSet (key : string) (v : Hierarchy) (h : Hierarchy) : Hierarchy :=
  if hasOwn key h then Folders (JsMap.set key v (childrenOf h))
  else
    match arrayIndex key with
    | Some n => Folders (insertIndex n key v (childrenOf h))
    | None => Folders (childrenOf h ++ [(key, v)])
    end.

(** The property names every plain object inherits from
    [Object.prototype]; [key in h] holds for them whatever [h] is. *)
Definition objectPrototypeKeys : list string :=
  [ "constructor"; "__defineGetter__"; "__defineSetter__"; "hasOwnProperty";
    "__lookupGetter__"; "__lookupSetter__"; "isPrototypeOf";
    "propertyIsEnumerable"; "toString"; "valueOf"; "__proto__";
    "toLocaleString" ]%string.

Definition inherited (key : string) : bool :=
  existsb (String.eqb key) objectPrototypeKeys.

(** [key in h]. *)
Definition hasProperty (key : string) (h : Hierarchy) : bool :=
  hasOwn key h || inherited key.

(** Where the loop [for (const folder of path) { if (!(folder in current))
    return false; current = current[folder]; }] ends.  When [current]
    becomes a built-in value inherited from [Object.prototype], a further
    test [folder in current] depends on the properties of that built-in:
    the walk is then outside what is modelled. *)
Inductive Walk :=
| Reached (h : Hierarchy)
| ReachedBuiltin
| Missing
| Outside.

Fixpoint walk (path : list string) (current : Hierarchy) : Walk :=
  match path with
  | [] => Reached current
  | folder :: rest =>
      match ownGet folder current with
      | Some child => walk rest child
      | None =>
          if inherited folder then
            match rest with
            | [] => ReachedBuiltin
            | _ :: _ => Outside
            end
          else Missing
      end
  end.

(** [pathExists]; [None] when the walk leaves what is modelled. *)
Definition pathExists (hierarchy : Hierarchy) (path : list string)
    : option bool :=
  if List.length path =? 0 then Some true
  else
    match walk path hierarchy with
    | Reached _ => Some true
    | ReachedBuiltin => Some true
    | Missing => Some false
    | Outside => None
    end.

(** What a call does to the object [current] it works on. *)
Inductive Outcome :=
| Updated (h : Hierarchy)
| Kept
| NotFound
| Unmodelled.

(** [addFolderToHierarchy] from [current] on: the navigation to the parent
    and the creation of the folder in it. *)
Fixpoint addUnder (parentPath : list string) (newFolderName : string)
    (current : Hierarchy) : Outcome :=
  match parentPath with
  | [] =>
      if negb (hasProperty newFolderName current)
      then Updated (ownSet newFolderName (Folders []) current)
      else Kept
  | folder :: rest =>
      match ownGet folder current with
      | Some child =>
          match addUnder rest newFolderName child with
          | Updated child' => Updated (ownSet folder child' current)
          | o => o
          end
      | None => if inherited folder then Unmodelled else NotFound
      end
  end.

(** [addFolderToHierarchy(parentPath, newFolderName)] on the stored
    hierarchy: the value returned and the hierarchy stored afterwards. *)
Definition addFolderToHierarchy (parentPath : list string)
    (newFolderName : string) (stored : Hierarchy)
    : option (bool * Hierarchy) :=
  match addUnder parentPath newFolderName stored with
  | Updated h => Some (true, h)
  | Kept => Some (true, stored)
  | NotFound => Some (false, stored)
  | Unmodelled => None
  end.

(** The second loop of [addNestedFoldersToHierarchy]. *)
Fixpoint createLevels (newFolderPath : list string) (current : Hierarchy)
    : option Hierarchy :=
  match newFolderPath with
  | [] => Some current
  | folderName :: rest =>
      match ownGet folderName current with
      | Some child =>
          option_map (fun c => ownSet folderName c current)
                     (createLevels rest child)
      | None =>
          if inherited folderName then
            match rest with
            | [] => Some current
            | _ :: _ => None
            end
          else
            option_map (fun c => ownSet folderName c current)
                       (createLevels rest (Folders []))
      end
  end.

Fixpoint nestUnder (basePath newFolderPath : list string)
    (current : Hierarchy) : Outcome :=
  match basePath with
  | [] =>
      match createLevels newFolderPath current with
      | Some h => Updated h
      | None => Unmodelled
      end
  | folder :: rest =>
      match ownGet folder current with
      | Some child =>
          match nestUnder rest newFolderPath child with
          | Updated child' => Updated (ownSet folder child' current)
          | o => o
          end
      | None =>
          if inherited folder then
            match rest, newFolderPath with
            | [], [] => Updated current
            | _, _ => Unmodelled
            end
          else NotFound
      end
  end.

(** [addNestedFoldersToHierarchy(basePath, newFolderPath)] on the stored
    hierarchy. *)
Definition addNestedFoldersToHierarchy (basePath newFolderPath : list string)
    (stored : Hierarchy) : option (bool * Hierarchy) :=
  match nestUnder basePath newFolderPath stored with
  | Updated h => Some (true, h)
  | Kept => Some (true, stored)
  | NotFound => Some (false, stored)
  | Unmodelled => None
  end.

(** ['  '.repeat(indent)]. *)
Fixpoint indentation (indent : nat) : string :=
  match indent with
  | 0 => EmptyString
  | S n => ("  " ++ indentation n)%string
  end.

Definition newline : string := String "010"%char EmptyString.

Fixpoint hierarchyToString (hierarchy : Hierarchy) (indent : nat) : string :=
  match hierarchy with
  | Folders children =>
      (fix entries (l : list (string * Hierarchy)) : string :=
         match l with
         | [] => EmptyString
         | (key, value) :: l' =>
             let below :=
               if 0 <? List.length (childrenOf value)
               then hierarchyToString value (indent + 1)
               else EmptyString in
             (indentation indent ++ key ++ newline ++ below ++ entries l')%string
         end) children
  end.

(* ================================================================= *)
(** ** The pruning tool: countDescendants, getDepth, truncateChildren *)

Fixpoint countDescendants (node : Hierarchy) : nat :=
  match node with
  | Folders children =>
      fold_left Nat.add
        (map (fun entry => countDescendants (snd entry)) children)
        (List.length children)
  end.

Fixpoint getDepth (node : Hierarchy) : nat :=
  match node with
  | Folders children =>
      if List.length children =? 0 then 0
      else
        fold_left Nat.max
          (map (fun entry => getDepth (snd entry)) children) 0 + 1
  end.

(** [h[key] = v] as the assignment statement performs it: for the key
    [__proto__] it replaces the object's prototype (by another plain
    object, here) and creates no own property. *)
Definition assign (key : string) (v : Hierarchy) (h : Hierarchy) : Hierarchy :=
  if String.eqb key "__proto__" then h else ownSet key v h.

Definition truncateChildren (node : Hierarchy) : Hierarchy :=
  fold_left (fun result key => assign key (Folders []) result)
            (ownKeys node) (Folders []).

(** [countFolders] of scan-hierarchy.ts. *)
Fixpoint countFolders (hierarchy : Hierarchy) : nat :=
  match hierarchy with
  | Folders children =>
      fold_left Nat.add
        (map (fun entry => countFolders (snd entry)) children)
        (List.length children)
  end.

(** The object is as [JSON.parse] and the functions above build it: no key
    twice, at any level. *)
Fixpoint distinctKeys (h : Hierarchy) : Prop :=
  match h with
  | Folders children =>
      NoDup (map fst children)
      /\ (fix all (l : list (string * Hierarchy)) : Prop :=
            match l with
            | [] => True
            | (_, child) :: l' => distinctKeys child /\ all l'
            end) children
  end.

(** A path none of whose segments is a property name of
    [Object.prototype]. *)
Definition plain (path : list string) : Prop :=
  Forall (fun key => inherited key = false) path.

(** What [pathExists] answers at the end of a walk. *)
Definition answer (w : Walk) : option bool :=
  match w with
  | Reached _ => Some true
  | ReachedBuiltin => Some true
  | Missing => Some false
  | Outside => None
  end.

(** [a] is an initial segment of [p]. *)
Definition startsWith (a p : list string) : Prop := exists q, p = a ++ q.

(** The folders below the children of an object. *)
Definition below (l : list (string * Hierarchy)) : nat :=
  list_sum (map (fun entry => countDescendants (snd entry)) l).


(** Every path that exists in [h] exists in [h']. *)
Definition extends (h h' : Hierarchy) : Prop :=
  forall p, pathExists h p = Some true -> pathExists h' p = Some true.

(** The result of a call as the caller sees it. *)
Definition reported (o : Outcome) (stored : Hierarchy)
    : option (bool * Hierarchy) :=
  match o with
  | Updated h => Some (true, h)
  | Kept => Some (true, stored)
  | NotFound => Some (false, stored)
  | Unmodelled => None
  end.

(* ================================================================= *)
(** ** moveFile: recording the created folders in hierarchy.json *)

(** The loop that finds the deepest existing part of [hierarchyPath]. *)
Fixpoint existingDepth (hierarchyPath : list string) (current : Hierarchy)
    : option nat :=
  match hierarchyPath with
  | [] => Some 0
  | folder :: rest =>
      match ownGet folder current with
      | Some child => option_map S (existingDepth rest child)
      | None =>
          if inherited folder then
            match rest with
            | [] => Some 1
            | _ :: _ => None
            end
          else Some 0
      end
  end.

(** What [moveFile] does to the stored hierarchy after it has created the
    destination folder. *)
Definition recordNewFolders (hierarchyPath : list string) (stored : Hierarchy)
    : option Hierarchy :=
  match existingDepth hierarchyPath stored with
  | None => None
  | Some depth =>
      if depth <? List.length hierarchyPath then
        match addNestedFoldersToHierarchy
                (firstn depth hierarchyPath) (skipn depth hierarchyPath)
                stored with
        | Some (_, stored') => Some stored'
        | None => None
        end
      else Some stored
  end.

Definition sampleHierarchy : Hierarchy :=
  Folders [ ("Work"%string, Folders [("Reports"%string, Folders [])]);
            ("Home"%string, Folders []) ].

(** The folders of a hierarchy as paths from its root, parents before
    their children, in the order of enumeration. *)
Fixpoint paths (h : Hierarchy) : list (list string) :=
  match h with
  | Folders children =>
      (fix entries (l : list (string * Hierarchy)) : list (list string) :=
         match l with
         | [] => []
         | (key, value) :: l' =>
             ([key] :: map (cons key) (paths value)) ++ entries l'
         end) children
  end.

(** The line that shows the folder at path [p] in a listing that starts
    at indentation [indent]. *)
Definition lineOf (indent : nat) (p : list string) : string :=
  (indentation (indent + (List.length p - 1)) ++ last p EmptyString
   ++ newline)%string.

Definition unlines (l : list string) : string :=
  fold_right String.append EmptyString l.


(* ================================================================= *)
(** ** The pruning tool: processNode

    [ask] returns the line the user typed, trimmed and in lower case.  The
    lines are taken from [input] in order; a run that needs a line when
    none is left waits for it.  [trim] and [parseInt] are those of the
    language. *)

Inductive Run (A : Type) :=
| Done (a : A) (rest : list string)
| UserQuit
| AwaitingInput.

Arguments Done {A} a rest.
Arguments UserQuit {A}.
Arguments AwaitingInput {A}.

(** [s.split(sep)] for a separator of one character. *)
Fixpoint split (sep : ascii) (s : string) : list string :=
  match s with
  | EmptyString => [EmptyString]
  | String c s' =>
      if Ascii.eqb c sep then EmptyString :: split sep s'
      else
        match split sep s' with
        | part :: parts => String c part :: parts
        | [] => [String c EmptyString]
        end
  end.

(** [part.slice(2)]. *)
Definition slice2 (part : string) : string :=
  substring 2 (String.length part - 2) part.

Definition setHas (i : nat) (s : list nat) : bool := existsb (Nat.eqb i) s.

Section Selection.
Variable trim : string -> string.
Variable parseInt : string -> option Z.

(** [!isNaN(num) && num >= 1 && num <= childKeys.length], and [num - 1]. *)
Definition chosenIndex (text : string) (children : nat) : option nat :=
  match parseInt text with
  | Some num =>
      if ((1 <=? num) && (num <=? Z.of_nat children))%Z
      then Some (Z.to_nat (num - 1))
      else None
  | None => None
  end.

(** The loop over the parts of the selection: the sets [toKeep] and
    [toRecurse]. *)
Fixpoint parseParts (parts : list string) (children : nat)
    (toKeep toRecurse : list nat) : list nat * list nat :=
  match parts with
  | [] => (toKeep, toRecurse)
  | part :: parts' =>
      if prefix "r:" part then
        match chosenIndex (slice2 part) children with
        | Some i => parseParts parts' children (i :: toKeep) (i :: toRecurse)
        | None => parseParts parts' children toKeep toRecurse
        end
      else
        match chosenIndex part children with
        | Some i => parseParts parts' children (i :: toKeep) toRecurse
        | None => parseParts parts' children toKeep toRecurse
        end
  end.

Definition parseSelection (selection : string) (children : nat)
    : list nat * list nat :=
  parseParts (map trim (split "," selection)) children [] [].

(** The loop of the select mode over the children, from child [i] on. *)
Fixpoint selectChildren
    (processNode : Hierarchy -> list string -> Run Hierarchy)
    (toKeep toRecurse : list nat) (l : list (string * Hierarchy)) (i : nat)
    (result : Hierarchy) (input : list string) {struct l} : Run Hierarchy :=
  match l with
  | [] => Done result input
  | (key, child) :: l' =>
      if setHas i toKeep then
        if setHas i toRecurse then
          match processNode child input with
          | Done processed input' =>
              selectChildren processNode toKeep toRecurse l' (S i)
                             (assign key processed result) input'
          | UserQuit => UserQuit
          | AwaitingInput => AwaitingInput
          end
        else
          selectChildren processNode toKeep toRecurse l' (S i)
                         (assign key child result) input
      else
        selectChildren processNode toKeep toRecurse l' (S i) result input
  end.

(** The loop of the recurse mode over the children. *)
Fixpoint recurseChildren
    (processNode : Hierarchy -> list string -> Run Hierarchy)
    (l : list (string * Hierarchy)) (result : Hierarchy)
    (input : list string) {struct l} : Run Hierarchy :=
  match l with
  | [] => Done result input
  | (key, child) :: l' =>
      if countDescendants child =? 0 then
        match input with
        | [] => AwaitingInput
        | keepIt :: input' =>
            if String.eqb keepIt "y" || String.eqb keepIt "yes"
            then recurseChildren processNode l'
                                 (assign key (Folders []) result) input'
            else recurseChildren processNode l' result input'
        end
      else
        match input with
        | [] => AwaitingInput
        | childAnswer :: input' =>
            if String.eqb childAnswer "k" then
              recurseChildren processNode l' (assign key child result) input'
            else if String.eqb childAnswer "p" then
              recurseChildren processNode l' result input'
            else if String.eqb childAnswer "t" then
              recurseChildren processNode l'
                              (assign key (truncateChildren child) result)
                              input'
            else if String.eqb childAnswer "r" then
              match processNode child input' with
              | Done processed input'' =>
                  recurseChildren processNode l'
                                  (assign key processed result) input''
              | UserQuit => UserQuit
              | AwaitingInput => AwaitingInput
              end
            else
              recurseChildren processNode l' (assign key child result) input'
        end
  end.

(** [processNode(node, currentPath, decisions)]: the hierarchy it returns
    and the lines left, or the error USER_QUIT it throws. *)
Fixpoint processNode (node : Hierarchy) (input : list string)
    {struct node} : Run Hierarchy :=
  match node with
  | Folders children =>
      if List.length children =? 0 then Done (Folders []) input
      else
        match input with
        | [] => AwaitingInput
        | answer :: input' =>
            if String.eqb answer "q" then UserQuit
            else if String.eqb answer "k" then Done (Folders children) input'
            else if String.eqb answer "p" then Done (Folders []) input'
            else if String.eqb answer "t"
            then Done (truncateChildren (Folders children)) input'
            else if String.eqb answer "s" then
              match input' with
              | [] => AwaitingInput
              | selection :: input'' =>
                  if String.eqb selection "all"
                  then Done (Folders children) input''
                  else if String.eqb selection "none"
                  then Done (Folders []) input''
                  else
                    let (toKeep, toRecurse) :=
                      parseSelection selection (List.length children) in
                    selectChildren processNode toKeep toRecurse children 0
                                   (Folders []) input''
              end
            else if String.eqb answer "r"
            then recurseChildren processNode children (Folders []) input'
            else Done (Folders children) input'
        end
  end.

End Selection.

(** Every folder of [r] is a folder of [n], at the same path. *)
Definition pruningOf (r n : Hierarchy) : Prop :=
  forall p x, walk p r = Reached x -> exists y, walk p n = Reached y.

(** Every child of [r] is a child of [n] pruned. *)
Definition childrenPruned (r n : Hierarchy) : Prop :=
  forall key c, ownGet key r = Some c ->
    exists c', ownGet key n = Some c' /\ pruningOf c c'.

(** [rest] is what is left of [input] after some lines were taken. *)
Definition leftOf (rest input : list string) : Prop :=
  exists used, input = used ++ rest.

(** What the loops need of a child: it is the value under its key, and
    processing it prunes it. *)
Definition childReady
    (recur : Hierarchy -> list string -> Run Hierarchy) (n : Hierarchy)
    (entry : string * Hierarchy) : Prop :=
  ownGet (fst entry) n = Some (snd entry)
  /\ distinctKeys (snd entry)
  /\ forall input r rest,
       recur (snd entry) input = Done r rest ->
       pruningOf r (snd entry) /\ distinctKeys r /\ leftOf rest input.


(* ================================================================= *)
(** ** The pruning tool: printPreview *)

From Stdlib Require DecimalString.

(** A whole number in a template literal. *)
Definition showNumber (z : Z) : string :=
  DecimalString.NilZero.string_of_int (Z.to_int z).

(** The folder sign U+1F4C1, in UTF-8. *)
Definition folderSign : string :=
  String "240"%char (String "159"%char (String "147"%char
    (String "129"%char EmptyString))).

Definition moreLine (indent : nat) (count : Z) : string :=
  (indentation indent ++ "... and " ++ showNumber count ++ " more")%string.

Definition folderLine (indent : nat) (key : string) (childCount : nat)
    : string :=
  let suffix :=
    if 0 <? childCount
    then (" (" ++ showNumber (Z.of_nat childCount) ++ " nested)")%string
    else EmptyString in
  (indentation indent ++ folderSign ++ " " ++ key ++ suffix)%string.

(** [for (const line of childLines) { if (lines.length >= maxLines) break;
    lines.push(line); }] *)
Fixpoint pushLines (maxLines : nat) (lines childLines : list string)
    : list string :=
  match childLines with
  | [] => lines
  | line :: childLines' =>
      if maxLines <=? List.length lines then lines
      else pushLines maxLines (lines ++ [line]) childLines'
  end.

(** The loop of [printPreview] over the entries of a node with [keys]
    keys. *)
Fixpoint previewEntries
    (printPreview : Hierarchy -> nat -> nat -> list string)
    (keys indent maxLines : nat) (l : list (string * Hierarchy))
    (lines : list string) {struct l} : list string :=
  match l with
  | [] => lines
  | (key, value) :: l' =>
      if maxLines <=? List.length lines then
        lines ++ [moreLine indent
                    (Z.of_nat keys - Z.of_nat (List.length lines))]
      else
        let lines1 :=
          lines ++ [folderLine indent key (countDescendants value)] in
        if (indent <? 2) && (0 <? List.length (childrenOf value)) then
          previewEntries printPreview keys indent maxLines l'
            (pushLines maxLines lines1 (printPreview value (indent + 1) 5))
        else previewEntries printPreview keys indent maxLines l' lines1
  end.

Fixpoint printPreview (node : Hierarchy) (indent maxLines : nat)
    {struct node} : list string :=
  match node with
  | Folders children =>
      previewEntries printPreview (List.length children) indent maxLines
                     children []
  end.


(* ================================================================= *)
(** ** batch-classify.ts: the clean-up of a suggested file name

    A string is the sequence of its UTF-16 code units, which is what the
    regular expressions (no [u] flag) work on.  [cleanName] is the chain
    of the three [replace] calls, applied to the string that
    [toLowerCase] returned. *)

Definition underscore : N := 95.

(** The class [a-z0-9_]. *)
Definition isNameChar (c : N) : bool :=
  ((97 <=? c) && (c <=? 122) || (48 <=? c) && (c <=? 57) || (c =? 95))%N.

(** [.replace(/[^a-z0-9_]/g, '_')] *)
Definition replaceOthers (s : list N) : list N :=
  map (fun c => if isNameChar c then c else underscore) s.

(** [.replace(/_+/g, '_')]: of every run of underscores one is left. *)
Fixpoint collapse (s : list N) : list N :=
  match s with
  | [] => []
  | c :: s' =>
      if (c =? 95)%N then
        match s' with
        | d :: _ => if (d =? 95)%N then collapse s' else c :: collapse s'
        | [] => [c]
        end
      else c :: collapse s'
  end.

(** [.replace(/^_|_$/g, '')]: the first alternative matches an underscore
    at the start, the second one an underscore at the end that the first
    match has not consumed. *)
Definition dropFirst (s : list N) : list N :=
  match s with
  | c :: s' => if (c =? 95)%N then s' else s
  | [] => []
  end.

Fixpoint dropLast (s : list N) : list N :=
  match s with
  | [] => []
  | c :: s' =>
      match s' with
      | [] => if (c =? 95)%N then [] else [c]
      | _ :: _ => c :: dropLast s'
      end
  end.

Definition cleanName (lowered : list N) : list N :=
  dropLast (dropFirst (collapse (replaceOthers lowered))).

(** No two underscores in a row. *)
Fixpoint single (s : list N) : bool :=
  match s with
  | c :: s' =>
      match s' with
      | d :: _ => negb ((c =? 95) && (d =? 95))%N && single s'
      | [] => true
      end
  | [] => true
  end.

(** A name as the clean-up leaves it: letters, digits and single
    underscores between them. *)
Definition tidy (s : list N) : Prop :=
  Forall (fun c => isNameChar c = true) s
  /\ single s = true
  /\ hd_error s <> Some underscore
  /\ (s <> [] -> last s 0%N <> underscore).

(** A lower-case letter or a digit. *)
Definition isAlnum (c : N) : bool :=
  ((97 <=? c) && (c <=? 122) || (48 <=? c) && (c <=? 57))%N.


(* ================================================================= *)
(** ** makeTrial: taking the JSON out of a fenced answer

    Strings are sequences of UTF-16 code units, as above. *)

(** The class [\s], which is also what [trim] removes. *)
Definition isSpace (c : N) : bool :=
  ((c =? 9) || (c =? 10) || (c =? 11) || (c =? 12) || (c =? 13)
   || (c =? 32) || (c =? 160) || (c =? 5760)
   || (8192 <=? c) && (c <=? 8202)
   || (c =? 8232) || (c =? 8233) || (c =? 8239) || (c =? 8287)
   || (c =? 12288) || (c =? 65279))%N.

Fixpoint dropSpaces (s : list N) : list N :=
  match s with
  | c :: s' => if isSpace c then dropSpaces s' else s
  | [] => []
  end.

Definition dropSpacesEnd (s : list N) : list N :=
  rev (dropSpaces (rev s)).

(** [s.trim()] *)
Definition trimUnits (s : list N) : list N := dropSpacesEnd (dropSpaces s).

(** [s.startsWith(p)] *)
Fixpoint startsWithUnits (p s : list N) : bool :=
  match p, s with
  | [], _ => true
  | a :: p', b :: s' => (a =? b)%N && startsWithUnits p' s'
  | _ :: _, [] => false
  end.

(** Three backquotes, and the same followed by [json]. *)
Definition fence : list N := [96; 96; 96]%N.
Definition jsonFence : list N := [96; 96; 96; 106; 115; 111; 110]%N.

(** [.replace(/^```json\s*/, '')] and [.replace(/^```\s*/, '')], for
    [opening] the fence that the expression starts with. *)
Definition dropOpening (opening s : list N) : list N :=
  if startsWithUnits opening s
  then dropSpaces (skipn (List.length opening) s)
  else s.

(** [.replace(/\s*```$/, '')]: the match is the closing fence at the end
    of the string together with all the white space before it. *)
Definition dropClosing (s : list N) : list N :=
  if startsWithUnits (rev fence) (rev s)
  then dropSpacesEnd (firstn (List.length s - 3) s)
  else s.

(** The text that [makeTrial] hands to [JSON.parse]. *)
Definition jsonTextOf (text : list N) : list N :=
  let jsonText := trimUnits text in
  if startsWithUnits jsonFence jsonText
  then dropClosing (dropOpening jsonFence jsonText)
  else if startsWithUnits fence jsonText
  then dropClosing (dropOpening fence jsonText)
  else jsonText.

Definition spaces (s : list N) : Prop := Forall (fun c => isSpace c = true) s.

(** A string that neither starts nor ends with white space. *)
Definition trimmed (s : list N) : Prop := trimUnits s = s.


(* ================================================================= *)
(** ** text-extractor.ts *)

Definition MAX_CHARS : nat := 15 * 1000.

(** The code units of the marker: a newline and [[... truncated ...]]. *)
Definition truncatedMark : list N :=
  [10; 91; 46; 46; 46; 32; 116; 114; 117; 110; 99; 97; 116; 101; 100; 32;
   46; 46; 46; 93]%N.

(** [if (text.length > MAX_CHARS) text = text.substring(0, MAX_CHARS) +
    '\n[... truncated ...]'] *)
Definition truncateText (text : list N) : list N :=
  if MAX_CHARS <? List.length text
  then firstn MAX_CHARS text ++ truncatedMark
  else text.

(** [extractFromTextFile], on the content read from the file. *)
Definition extractFromTextFile (content : list N) : list N :=
  truncateText content.

(** [.replace(/\n{3,}/g, '\n\n')]: a run of three or more newlines becomes
    two.  [run] counts the newlines met since the last other unit. *)
Fixpoint squeezeNewlines (run : nat) (s : list N) : list N :=
  match s with
  | [] => []
  | c :: s' =>
      if (c =? 10)%N then
        if run <? 2 then c :: squeezeNewlines (S run) s'
        else squeezeNewlines (S run) s'
      else c :: squeezeNewlines 0 s'
  end.

(** [extractFromDocx], on the raw text mammoth returns. *)
Definition extractFromDocx (value : list N) : list N :=
  let text := trimUnits (squeezeNewlines 0 value) in
  (* "[DOCX]" and two newlines *)
  [91; 68; 79; 67; 88; 93; 10; 10]%N ++ truncateText text.

(** The branch of the [switch] in [extractText]. *)
Inductive Extractor := FromPdf | FromDocx | FromTextFile.

Definition extractorFor (ext : string) : option Extractor :=
  if String.eqb ext ".pdf" then Some FromPdf
  else if String.eqb ext ".docx" then Some FromDocx
  else if String.eqb ext ".txt" || String.eqb ext ".md"
          || String.eqb ext ".json" || String.eqb ext ".js"
          || String.eqb ext ".ts" || String.eqb ext ".py"
          || String.eqb ext ".html" || String.eqb ext ".css"
          || String.eqb ext ".csv" || String.eqb ext ".xml"
          || String.eqb ext ".yaml" || String.eqb ext ".yml"
  then Some FromTextFile
  else None.

(** [isExtractionSupported], on the lower-cased extension. *)
Definition isExtractionSupported (ext : string) : bool :=
  existsb (String.eqb ext)
    [ ".pdf"; ".docx"; ".txt"; ".md"; ".json"; ".js"; ".ts"; ".py";
      ".html"; ".css"; ".csv"; ".xml"; ".yaml"; ".yml" ]%string.

(** The extensions [classifyAndPrompt] previews with [p]eek. *)
Definition textExtensionsForPeek : list string :=
  [ ".txt"; ".md"; ".json"; ".js"; ".ts"; ".py"; ".html"; ".css"; ".csv";
    ".xml"; ".yaml"; ".yml" ]%string.

(** No three newlines in a row. *)
Fixpoint noTripleNewline (run : nat) (s : list N) : bool :=
  match s with
  | [] => true
  | c :: s' =>
      if (c =? 10)%N then (run <? 2) && noTripleNewline (S run) s'
      else noTripleNewline 0 s'
  end.


(* ================================================================= *)
(** ** scan-hierarchy.ts

    The file system is what [readdirSync] and [statSync] answer; it need
    not be a tree (links can make it cyclic).  [toLowerCase], the order of
    [Array.prototype.sort] and [path.join] are those of the platform;
    [sortNames] is [entries.sort()], of which the properties only use that
    it rearranges the entries ([sortRearranges]). *)

Definition SKIP_FOLDERS : list string :=
  [ "node_modules"; "src"; "dist"; "build"; "target"; "vendor";
    "__pycache__"; "venv"; ".venv"; "env"; ".env"; "out"; "bin"; "obj";
    "lib"; "libs"; ".git"; ".svn"; ".hg";
    "cache"; ".cache"; "tmp"; "temp"; "logs"; ".logs";
    ".idea"; ".vscode"; ".vs";
    ".Trash"; ".Spotlight-V100"; ".fseventsd";
    "bower_components"; ".npm"; "jspm_packages";
    "coverage"; ".nyc_output"; ".pytest_cache"; ".tox"; "htmlcov";
    "__snapshots__" ]%string.

Definition bundleExtensions : list string :=
  [ ".app"; ".bundle"; ".framework"; ".plugin"; ".kext";
    ".logicx"; ".band"; ".garageband";
    ".fcpbundle"; ".fcpproject";
    ".photoslibrary"; ".photolibrary";
    ".xcodeproj"; ".xcworkspace";
    ".sparsebundle"; ".dmg";
    ".keynote"; ".pages"; ".numbers";
    ".docx"; ".xlsx"; ".pptx";
    ".zip"; ".tar"; ".gz" ]%string.

Definition MAX_DEPTH : nat := 15.

(** [s.endsWith(suffix)] *)
Definition endsWith (s suffix : string) : bool :=
  (String.length suffix <=? String.length s)
  && String.eqb (substring (String.length s - String.length suffix)
                           (String.length suffix) s)
                suffix.

Inductive Stat := StatFails | NotDirectory | IsDirectory.

Section Scanner.
Variable toLowerCase : string -> string.
Variable sortNames : list string -> list string.
Variable join : string -> string -> string.
Variable readdirSync : string -> option (list string).
Variable statSync : string -> Stat.

Definition shouldSkipFolder (name : string) : bool :=
  if prefix "." name then true
  else if existsb (String.eqb name) SKIP_FOLDERS
          || existsb (String.eqb (toLowerCase name)) SKIP_FOLDERS
  then true
  else existsb (endsWith (toLowerCase name)) bundleExtensions.

(** The body of the loop of [scanFolder] for one entry; [scan] is the
    recursive call.  ([scanFolder] also computes [isProjectRoot] of the
    folder and does not use it.) *)
Definition scanEntry (scan : string -> Hierarchy) (folderPath : string)
    (result : Hierarchy) (entry : string) : Hierarchy :=
  let fullPath := join folderPath entry in
  match statSync fullPath with
  | IsDirectory =>
      if shouldSkipFolder entry then result
      else assign entry (scan fullPath) result
  | _ => result
  end.

(** [scanFolder] with [levels] levels left before [MAX_DEPTH]. *)
Fixpoint scanLevels (levels : nat) (folderPath : string) : Hierarchy :=
  match levels with
  | 0 => Folders []
  | S levels' =>
      match readdirSync folderPath with
      | None => Folders []
      | Some entries =>
          fold_left (scanEntry (scanLevels levels') folderPath)
                    (sortNames entries) (Folders [])
      end
  end.

Definition scanFolder (folderPath : string) (depth : nat) : Hierarchy :=
  scanLevels (MAX_DEPTH - depth) folderPath.

(** The folders along [q] below [base] were listed by [readdirSync], are
    directories and are not skipped. *)
Fixpoint scanned (base : string) (q : list string) : Prop :=
  match q with
  | [] => True
  | name :: q' =>
      (exists entries,
         readdirSync base = Some entries /\ In name entries)
      /\ statSync (join base name) = IsDirectory
      /\ shouldSkipFolder name = false
      /\ scanned (join base name) q'
  end.

(** What the loop of [scanFolder] keeps true of [result]. *)
Definition keptByScan (levels : nat) (base : string) (result : Hierarchy)
    : Prop :=
  distinctKeys result
  /\ Forall (fun entry => getDepth (snd entry) <= levels) (childrenOf result)
  /\ (forall k c,
        ownGet k result = Some c ->
        (exists entries,
           readdirSync base = Some entries /\ In k entries)
        /\ statSync (join base k) = IsDirectory
        /\ shouldSkipFolder k = false
        /\ forall q x, walk q c = Reached x -> scanned (join base k) q).

(** [entries.sort()] returns the entries, rearranged. *)
Definition sortRearranges : Prop :=
  forall entries : list string, Permutation (sortNames entries) entries.

Definition scanSound (levels : nat) : Prop :=
  forall base,
    distinctKeys (scanLevels levels base)
    /\ getDepth (scanLevels levels base) <= levels
    /\ forall q x, walk q (scanLevels levels base) = Reached x ->
                   scanned base q.

End Scanner.


(* ================================================================= *)
(** ** mover.ts: moveFile and dryRunMove

    The file system is a state [FS] with the operations of [fs] that the
    mover uses; an operation that throws returns the text of its error.
    [joinPath base parts] is [path.join(base, ...parts)]. *)

Record MoveResult := {
  m_success : bool;
  m_sourcePath : string;
  m_destinationPath : string;
  m_error : option string
}.

Record DryRun := {
  d_sourcePath : string;
  d_destinationPath : string;
  wouldSucceed : bool;
  issue : option string
}.

(** How a call of [moveFile] ends: with a result, the file system and the
    stored hierarchy it leaves; with the error that [mkdirSync] threw; or
    outside what is modelled of the hierarchy. *)
Inductive Moved (FS : Type) :=
| Returned (result : MoveResult) (fs : FS) (stored : Hierarchy)
| Threw (err : string)
| NotModelled.

Arguments Returned {FS} result fs stored.
Arguments Threw {FS} err.
Arguments NotModelled {FS}.

Section Mover.
Variable FS : Type.
Variable existsSync : FS -> string -> bool.
Variable mkdirSync : FS -> string -> string + FS.
Variable renameSync : FS -> string -> string -> string + FS.
Variable copyFileSync : FS -> string -> string -> string + FS.
Variable unlinkSync : FS -> string -> string + FS.
Variable joinPath : string -> list string -> string.
Variable basename : string -> string.

Definition hierarchyPathToFilesystemPath (hierarchyPath : list string)
    (basePath : string) : string :=
  joinPath basePath hierarchyPath.

(** The [try] at the end of [moveFile]: rename, and copy and delete when
    the rename throws. *)
Definition transfer (fs : FS) (sourcePath destinationPath : string)
    : MoveResult * FS :=
  let moved := {| m_success := true; m_sourcePath := sourcePath;
                  m_destinationPath := destinationPath;
                  m_error := None |} in
  let failed (fs' : FS) (copyErr : string) :=
    ({| m_success := false; m_sourcePath := sourcePath;
        m_destinationPath := destinationPath;
        m_error := Some ("Failed to move file: " ++ copyErr)%string |},
     fs') in
  match renameSync fs sourcePath destinationPath with
  | inr fs' => (moved, fs')
  | inl _ =>
      match copyFileSync fs sourcePath destinationPath with
      | inl copyErr => failed fs copyErr
      | inr fs1 =>
          match unlinkSync fs1 sourcePath with
          | inl copyErr => failed fs1 copyErr
          | inr fs2 => (moved, fs2)
          end
      end
  end.

Definition moveFile (fs : FS) (stored : Hierarchy) (sourcePath : string)
    (hierarchyPath : list string) (basePath : string)
    (createIfMissing : bool) : Moved FS :=
  let fileName := basename sourcePath in
  let destinationFolder :=
    hierarchyPathToFilesystemPath hierarchyPath basePath in
  let destinationPath := joinPath destinationFolder [fileName] in
  let refused (fs' : FS) (stored' : Hierarchy) (message : string) :=
    Returned {| m_success := false; m_sourcePath := sourcePath;
                m_destinationPath := destinationPath;
                m_error := Some message |} fs' stored' in
  let finish (fs' : FS) (stored' : Hierarchy) :=
    if existsSync fs' destinationPath then
      refused fs' stored'
        ("File already exists at destination: " ++ destinationPath)%string
    else
      let (result, fs'') := transfer fs' sourcePath destinationPath in
      Returned result fs'' stored' in
  if negb (existsSync fs sourcePath) then
    refused fs stored ("Source file does not exist: " ++ sourcePath)%string
  else if negb (existsSync fs destinationFolder) then
    if createIfMissing then
      match mkdirSync fs destinationFolder with
      | inl err => Threw err
      | inr fs' =>
          match recordNewFolders hierarchyPath stored with
          | Some stored' => finish fs' stored'
          | None => NotModelled
          end
      end
    else
      refused fs stored
        ("Destination folder does not exist: " ++ destinationFolder)%string
  else finish fs stored.

Definition dryRunMove (fs : FS) (sourcePath : string)
    (hierarchyPath : list string) (basePath : string) : DryRun :=
  let fileName := basename sourcePath in
  let destinationFolder :=
    hierarchyPathToFilesystemPath hierarchyPath basePath in
  let destinationPath := joinPath destinationFolder [fileName] in
  let report (ok : bool) (text : option string) :=
    {| d_sourcePath := sourcePath; d_destinationPath := destinationPath;
       wouldSucceed := ok; issue := text |} in
  if negb (existsSync fs sourcePath)
  then report false (Some "Source does not exist"%string)
  else if negb (existsSync fs destinationFolder)
  then report false (Some "Destination folder does not exist"%string)
  else if existsSync fs destinationPath
  then report false (Some "File already exists at destination"%string)
  else report true None.

End Mover.

(* ================================================================= *)
(** * Properties *)

Unset Implicit Arguments.

(** ** Numbers *)

Lemma leb_le (a b : number) : Num.leb a b = true <-> (a <= b)%Qc.
Proof.
  unfold Num.leb. rewrite Qcle_alt.
  destruct (a ?= b)%Qc; split; intros H; try reflexivity; try discriminate;
    try (intros E; discriminate E).
  exfalso. now apply H.
Qed.

Lemma leb_gt (a b : number) : Num.leb a b = false <-> (b < a)%Qc.
Proof.
  unfold Num.leb. change (b < a)%Qc with (a > b)%Qc. rewrite Qcgt_alt.
  destruct (a ?= b)%Qc; split; intros H; try reflexivity; discriminate.
Qed.

Lemma ltb_lt (a b : number) : Num.ltb a b = true <-> (a < b)%Qc.
Proof.
  unfold Num.ltb. rewrite Qclt_alt.
  destruct (a ?= b)%Qc; split; intros H; try reflexivity; discriminate.
Qed.

Lemma eqb_eq (a b : number) : Num.eqb a b = true <-> a = b.
Proof.
  unfold Num.eqb. rewrite Qceq_alt.
  destruct (a ?= b)%Qc; split; intros H; try reflexivity; discriminate.
Qed.

Lemma eqb_neq (a b : number) : Num.eqb a b = false <-> a <> b.
Proof.
  rewrite <- eqb_eq. destruct (Num.eqb a b); split; intros H;
    try reflexivity; try discriminate; try (intros E; discriminate E).
  exfalso. now apply H.
Qed.

Lemma fold_plus_shift (l : list number) (a : number) :
  fold_left Qcplus l a = (a + fold_left Qcplus l (Num.lit 0))%Qc.
Proof.
  revert a. induction l as [|x l IH]; intros a; simpl.
  - change (Num.lit 0) with 0%Qc. now rewrite Qcplus_0_r.
  - rewrite IH. rewrite (IH (Num.lit 0 + x)%Qc).
    change (Num.lit 0) with 0%Qc. rewrite Qcplus_0_l.
    now rewrite Qcplus_assoc.
Qed.

Lemma sum_nil : Num.sum [] = 0%Qc.
Proof. reflexivity. Qed.

Lemma sum_cons (x : number) (l : list number) :
  Num.sum (x :: l) = (x + Num.sum l)%Qc.
Proof.
  unfold Num.sum. simpl. rewrite fold_plus_shift.
  change (Num.lit 0) with 0%Qc. now rewrite Qcplus_0_l.
Qed.

Lemma sum_app (l1 l2 : list number) :
  Num.sum (l1 ++ l2) = (Num.sum l1 + Num.sum l2)%Qc.
Proof.
  induction l1 as [|x l1 IH]; simpl.
  - now rewrite sum_nil, Qcplus_0_l.
  - now rewrite !sum_cons, IH, Qcplus_assoc.
Qed.

Lemma sum_perm (l1 l2 : list number) :
  Permutation l1 l2 -> Num.sum l1 = Num.sum l2.
Proof.
  induction 1 as [|x l1 l2 _ IH|x y l|l1 l2 l3 _ IH1 _ IH2].
  - reflexivity.
  - now rewrite !sum_cons, IH.
  - rewrite !sum_cons, !Qcplus_assoc. now rewrite (Qcplus_comm y x).
  - now rewrite IH1.
Qed.

Lemma sum_scale (l : list number) (c : number) :
  Num.sum (map (fun x => (x * c)%Qc) l) = (Num.sum l * c)%Qc.
Proof.
  induction l as [|x l IH]; simpl.
  - now rewrite sum_nil, Qcmult_0_l.
  - now rewrite !sum_cons, IH, Qcmult_plus_distr_l.
Qed.

(** ** The insertion-ordered Map *)

Section JsMapFacts.
Variable V : Type.
Implicit Types (m : JsMap.t V) (k key : string) (v : V).

Lemma get_set_same key v m : JsMap.get key (JsMap.set key v m) = Some v.
Proof.
  induction m as [|[k w] m IH]; simpl.
  - now rewrite String.eqb_refl.
  - destruct (String.eqb k key) eqn:E; simpl; rewrite E; auto.
Qed.

Lemma get_set_other key k v m :
  key <> k -> JsMap.get k (JsMap.set key v m) = JsMap.get k m.
Proof.
  intros Hne. induction m as [|[k0 w] m IH]; simpl.
  - apply String.eqb_neq in Hne. now rewrite Hne.
  - destruct (String.eqb k0 key) eqn:E; simpl.
    + apply String.eqb_eq in E. subst k0.
      apply String.eqb_neq in Hne. now rewrite Hne.
    + now rewrite IH.
Qed.

Lemma get_None key m : JsMap.get key m = None <-> ~ In key (JsMap.keys m).
Proof.
  induction m as [|[k w] m IH]; simpl.
  - tauto.
  - destruct (String.eqb k key) eqn:E.
    + apply String.eqb_eq in E. split; [discriminate | tauto].
    + apply String.eqb_neq in E. rewrite IH. tauto.
Qed.

Lemma get_In key v m : JsMap.get key m = Some v -> In (key, v) m.
Proof.
  induction m as [|[k w] m IH]; simpl; [discriminate|].
  destruct (String.eqb k key) eqn:E.
  - apply String.eqb_eq in E. intros [= ->]. subst. now left.
  - intros H. right. now apply IH.
Qed.

Lemma In_get key v m :
  NoDup (JsMap.keys m) -> In (key, v) m -> JsMap.get key m = Some v.
Proof.
  induction m as [|[k w] m IH]; simpl; [tauto|].
  intros Hnd [Hin|Hin].
  - injection Hin as -> ->. now rewrite String.eqb_refl.
  - inversion Hnd as [|? ? Hk Hnd']; subst.
    destruct (String.eqb k key) eqn:E.
    + apply String.eqb_eq in E. subst k. exfalso. apply Hk.
      change key with (fst (key, v)). now apply in_map.
    + now apply IH.
Qed.

Lemma keys_set key v m :
  JsMap.keys (JsMap.set key v m)
  = if JsMap.has key m then JsMap.keys m else JsMap.keys m ++ [key].
Proof.
  unfold JsMap.has. induction m as [|[k w] m IH]; simpl; [reflexivity|].
  destruct (String.eqb k key) eqn:E; simpl; [reflexivity|].
  rewrite IH. now destruct (JsMap.get key m).
Qed.

Lemma NoDup_keys_set key v m :
  NoDup (JsMap.keys m) -> NoDup (JsMap.keys (JsMap.set key v m)).
Proof.
  intros Hnd. rewrite keys_set. unfold JsMap.has.
  destruct (JsMap.get key m) eqn:E; [assumption|].
  apply get_None in E.
  apply NoDup_rev in Hnd. rewrite <- (rev_involutive (_ ++ _)).
  apply NoDup_rev. rewrite rev_app_distr. simpl. constructor; [|assumption].
  now rewrite <- in_rev.
Qed.

Lemma Forall_set (P : string * V -> Prop) key v m :
  P (key, v) -> Forall P m -> Forall P (JsMap.set key v m).
Proof.
  intros Hp. induction 1 as [|[k w] m Hx Hm IH]; simpl.
  - now constructor.
  - destruct (String.eqb k key) eqn:E.
    + apply String.eqb_eq in E. subst k. now constructor.
    + now constructor.
Qed.
End JsMapFacts.

(** ** Aggregation *)

Lemma aggregateOne_merge (aggregated : JsMap.t Aggregated) (s : FolderSuggestion) :
  aggregateOne aggregated s
  = JsMap.set (keyOf s) (merge (JsMap.get (keyOf s) aggregated) s) aggregated.
Proof.
  unfold aggregateOne, JsMap.has.
  now destruct (JsMap.get (keyOf s) aggregated).
Qed.

Lemma get_aggregateOne (key : string) (aggregated : JsMap.t Aggregated)
    (s : FolderSuggestion) :
  JsMap.get key (aggregateOne aggregated s)
  = if String.eqb (keyOf s) key
    then Some (merge (JsMap.get key aggregated) s)
    else JsMap.get key aggregated.
Proof.
  rewrite aggregateOne_merge.
  destruct (String.eqb (keyOf s) key) eqn:E.
  - apply String.eqb_eq in E. subst key. apply get_set_same.
  - apply String.eqb_neq in E. now apply get_set_other.
Qed.

Lemma get_fold_aggregateOne (key : string) (l : list FolderSuggestion)
    (aggregated : JsMap.t Aggregated) :
  JsMap.get key (fold_left aggregateOne l aggregated)
  = absorb (JsMap.get key aggregated) (withKey key l).
Proof.
  revert aggregated. induction l as [|s l IH]; intros aggregated; simpl.
  - reflexivity.
  - rewrite IH, get_aggregateOne.
    now destruct (String.eqb (keyOf s) key).
Qed.

Lemma aggregateSuggestions_flat (trials : list TrialResult) :
  aggregateSuggestions trials
  = fold_left aggregateOne (allSuggestions trials) [].
Proof.
  unfold aggregateSuggestions, allSuggestions.
  generalize (@nil (string * Aggregated)).
  induction trials as [|t trials IH]; intros acc; simpl.
  - reflexivity.
  - rewrite fold_left_app. apply IH.
Qed.

Lemma absorb_Some (e : Aggregated) (ss : list FolderSuggestion) :
  absorb (Some e) ss
  = Some {| a_path := a_path e;
            a_newFolderName := a_newFolderName e;
            a_isNewFolder := a_isNewFolder e;
            totalConfidence := (totalConfidence e + sumConfidence ss)%Qc;
            count := count e + List.length ss |}.
Proof.
  revert e. induction ss as [|s ss IH]; intros e; simpl.
  - unfold sumConfidence. simpl. rewrite sum_nil, Qcplus_0_r, Nat.add_0_r.
    now destruct e.
  - change (absorb (Some e) (s :: ss)) with (absorb (Some (bump e s)) ss).
    rewrite IH. simpl. unfold sumConfidence. simpl.
    rewrite sum_cons, Qcplus_assoc. do 2 f_equal. lia.
Qed.

Lemma absorb_None_cons (s : FolderSuggestion) (ss : list FolderSuggestion) :
  absorb None (s :: ss)
  = Some {| a_path := path s;
            a_newFolderName := newFolderName s;
            a_isNewFolder := isNewFolder s;
            totalConfidence := sumConfidence (s :: ss);
            count := List.length (s :: ss) |}.
Proof.
  change (absorb None (s :: ss)) with (absorb (Some (seed s)) ss).
  rewrite absorb_Some. simpl. unfold sumConfidence. simpl.
  now rewrite sum_cons.
Qed.

(** The entry of a key after aggregation, in closed form. *)
Lemma get_aggregateSuggestions (key : string) (trials : list TrialResult) :
  JsMap.get key (aggregateSuggestions trials)
  = match withKey key (allSuggestions trials) with
    | [] => None
    | s :: ss =>
        Some {| a_path := path s;
                a_newFolderName := newFolderName s;
                a_isNewFolder := isNewFolder s;
                totalConfidence := sumConfidence (s :: ss);
                count := List.length (s :: ss) |}
    end.
Proof.
  rewrite aggregateSuggestions_flat, get_fold_aggregateOne. simpl.
  destruct (withKey key (allSuggestions trials)) as [|s ss].
  - reflexivity.
  - apply absorb_None_cons.
Qed.

Lemma NoDup_keys_fold (l : list FolderSuggestion) (aggregated : JsMap.t Aggregated) :
  NoDup (JsMap.keys aggregated) ->
  NoDup (JsMap.keys (fold_left aggregateOne l aggregated)).
Proof.
  revert aggregated. induction l as [|s l IH]; intros aggregated H; simpl.
  - assumption.
  - apply IH. rewrite aggregateOne_merge. now apply NoDup_keys_set.
Qed.

Lemma NoDup_keys_aggregateSuggestions (trials : list TrialResult) :
  NoDup (JsMap.keys (aggregateSuggestions trials)).
Proof.
  rewrite aggregateSuggestions_flat. apply NoDup_keys_fold. constructor.
Qed.

Lemma keyed_fold (l : list FolderSuggestion) (aggregated : JsMap.t Aggregated) :
  Forall keyed aggregated ->
  Forall keyed (fold_left aggregateOne l aggregated).
Proof.
  revert aggregated. induction l as [|s l IH]; intros aggregated H; simpl.
  - assumption.
  - apply IH. rewrite aggregateOne_merge. apply Forall_set; [|assumption].
    unfold keyed, merge. simpl.
    destruct (JsMap.get (keyOf s) aggregated) as [e|] eqn:E; simpl.
    + apply get_In in E. rewrite Forall_forall in H. apply (H _ E).
    + reflexivity.
Qed.

Lemma keyed_aggregateSuggestions (trials : list TrialResult) :
  Forall keyed (aggregateSuggestions trials).
Proof.
  rewrite aggregateSuggestions_flat. apply keyed_fold. constructor.
Qed.

(** *** Occurrence counts and the number of proposing trials *)

Lemma withKey_app (key : string) (l1 l2 : list FolderSuggestion) :
  withKey key (l1 ++ l2) = withKey key l1 ++ withKey key l2.
Proof. apply filter_app. Qed.

Lemma withKey_absent (key : string) (l : list FolderSuggestion) :
  ~ In key (map keyOf l) -> withKey key l = [].
Proof.
  induction l as [|s l IH]; simpl; intros H; [reflexivity|].
  destruct (String.eqb (keyOf s) key) eqn:E.
  - apply String.eqb_eq in E. tauto.
  - apply IH. tauto.
Qed.

Lemma proposes_le_withKey (key : string) (t : TrialResult) :
  (if proposes key t then 1 else 0)
  <= List.length (withKey key (suggestions t)).
Proof.
  unfold proposes. induction (suggestions t) as [|s l IH]; simpl; [lia|].
  destruct (String.eqb (keyOf s) key); simpl; [lia|assumption].
Qed.

Lemma proposes_eq_withKey (key : string) (t : TrialResult) :
  NoDup (map keyOf (suggestions t)) ->
  List.length (withKey key (suggestions t))
  = if proposes key t then 1 else 0.
Proof.
  unfold proposes. induction (suggestions t) as [|s l IH]; simpl; intros H.
  - reflexivity.
  - inversion H as [|? ? Hs Hl]; subst.
    destruct (String.eqb (keyOf s) key) eqn:E; simpl.
    + apply String.eqb_eq in E. subst key.
      now rewrite (withKey_absent _ _ Hs).
    + now apply IH.
Qed.

Lemma trialsProposing_le (key : string) (trials : list TrialResult) :
  trialsProposing key trials
  <= List.length (withKey key (allSuggestions trials)).
Proof.
  unfold trialsProposing, allSuggestions.
  induction trials as [|t trials IH]; simpl; [lia|].
  rewrite withKey_app, length_app.
  pose proof (proposes_le_withKey key t) as H.
  destruct (proposes key t); simpl in *; lia.
Qed.

Lemma trialsProposing_eq (key : string) (trials : list TrialResult) :
  distinctWithinTrials trials ->
  List.length (withKey key (allSuggestions trials))
  = trialsProposing key trials.
Proof.
  unfold trialsProposing, allSuggestions, distinctWithinTrials.
  induction 1 as [|t trials Ht _ IH]; simpl; [reflexivity|].
  rewrite withKey_app, length_app, IH, (proposes_eq_withKey key t Ht).
  now destruct (proposes key t).
Qed.

Lemma trialsProposing_bound (key : string) (trials : list TrialResult) :
  trialsProposing key trials <= List.length trials.
Proof. apply filter_length_le. Qed.

(** ** Sorting *)

Section SortFacts.
Variable A : Type.
Variable compareFn : A -> A -> number.

Lemma sortInsert_perm (x : A) (l : list A) :
  Permutation (sortInsert compareFn x l) (x :: l).
Proof.
  induction l as [|y l IH]; simpl.
  - reflexivity.
  - destruct (Num.leb (compareFn x y) (Num.lit 0)).
    + reflexivity.
    + rewrite IH. apply perm_swap.
Qed.

Lemma sort_perm (l : list A) : Permutation (sort compareFn l) l.
Proof.
  induction l as [|x l IH]; simpl.
  - reflexivity.
  - rewrite sortInsert_perm. now constructor.
Qed.
End SortFacts.

Lemma byConfidenceDesc_le (a b : Normalized) :
  Num.leb (byConfidenceDesc a b) (Num.lit 0) = true
  <-> (normalizedConfidence b <= normalizedConfidence a)%Qc.
Proof.
  rewrite leb_le. unfold byConfidenceDesc. change (Num.lit 0) with 0%Qc.
  rewrite (Qcle_minus_iff (normalizedConfidence b - normalizedConfidence a) 0).
  rewrite (Qcle_minus_iff (normalizedConfidence b) (normalizedConfidence a)).
  replace (0 + - (normalizedConfidence b - normalizedConfidence a))%Qc
    with (normalizedConfidence a + - normalizedConfidence b)%Qc by ring.
  reflexivity.
Qed.

Lemma sortInsert_descending (x : Normalized) (l : list Normalized) :
  descending l -> descending (sortInsert byConfidenceDesc x l).
Proof.
  unfold descending. induction 1 as [|y l Hl IH Hy]; simpl.
  - constructor; constructor.
  - destruct (Num.leb (byConfidenceDesc x y) (Num.lit 0)) eqn:E.
    + apply byConfidenceDesc_le in E.
      constructor; [now constructor|].
      constructor; [assumption|].
      eapply Forall_impl; [|exact Hy].
      intros z Hz. simpl in Hz. eapply Qcle_trans; eassumption.
    + constructor; [assumption|].
      eapply Permutation_Forall.
      * symmetry. apply sortInsert_perm.
      * constructor; [|assumption].
        apply leb_gt in E. unfold byConfidenceDesc in E.
        change (Num.lit 0) with 0%Qc in E.
        apply Qclt_le_weak. apply Qclt_minus_iff. exact E.
Qed.

Lemma sort_descending (l : list Normalized) :
  descending (sort byConfidenceDesc l).
Proof.
  induction l as [|x l IH]; simpl.
  - constructor.
  - now apply sortInsert_descending.
Qed.

(** ** Normalisation *)

Lemma grandTotal_nil : grandTotal [] = 0%Qc.
Proof. reflexivity. Qed.

Lemma normalizeConfidences_zero (aggregated : JsMap.t Aggregated) :
  grandTotal aggregated = 0%Qc -> normalizeConfidences aggregated = [].
Proof.
  intros H. unfold normalizeConfidences.
  apply eqb_eq in H. change 0%Qc with (Num.lit 0) in H. now rewrite H.
Qed.

Lemma normalizeConfidences_nonzero (aggregated : JsMap.t Aggregated) :
  grandTotal aggregated <> 0%Qc ->
  normalizeConfidences aggregated
  = sort byConfidenceDesc
      (map (normalizeItem (grandTotal aggregated)) aggregated).
Proof.
  intros H. unfold normalizeConfidences, JsMap.entries.
  apply eqb_neq in H. change 0%Qc with (Num.lit 0) in H. now rewrite H.
Qed.

Lemma normalizeConfidences_perm (aggregated : JsMap.t Aggregated) :
  grandTotal aggregated <> 0%Qc ->
  Permutation (normalizeConfidences aggregated)
              (map (normalizeItem (grandTotal aggregated)) aggregated).
Proof.
  intros H. rewrite (normalizeConfidences_nonzero _ H). apply sort_perm.
Qed.

Lemma normalizeConfidences_nil_iff (aggregated : JsMap.t Aggregated) :
  normalizeConfidences aggregated = [] <-> grandTotal aggregated = 0%Qc.
Proof.
  split; [|apply normalizeConfidences_zero].
  intros Hnil.
  destruct (Qc_eq_dec (grandTotal aggregated) 0) as [E|E]; [assumption|].
  pose proof (normalizeConfidences_perm _ E) as Hp. rewrite Hnil in Hp.
  apply Permutation_nil in Hp. apply map_eq_nil in Hp. subst aggregated.
  reflexivity.
Qed.

Lemma normalizeConfidences_descending (aggregated : JsMap.t Aggregated) :
  descending (normalizeConfidences aggregated).
Proof.
  destruct (Qc_eq_dec (grandTotal aggregated) 0) as [E|E].
  - rewrite (normalizeConfidences_zero _ E). constructor.
  - rewrite (normalizeConfidences_nonzero _ E). apply sort_descending.
Qed.

Lemma normalizedConfidence_item (total : number) (entry : string * Aggregated) :
  normalizedConfidence (normalizeItem total entry)
  = (totalConfidence (snd entry) * (/ total * Num.lit 100))%Qc.
Proof.
  destruct entry as [k e]. simpl. unfold Qcdiv. now rewrite <- Qcmult_assoc.
Qed.

Lemma sum_normalized (aggregated : JsMap.t Aggregated) :
  grandTotal aggregated <> 0%Qc ->
  Num.sum (map (@normalizedConfidence) (normalizeConfidences aggregated))
  = Num.lit 100.
Proof.
  intros H.
  rewrite (sum_perm _ _ (Permutation_map _ (normalizeConfidences_perm _ H))).
  rewrite map_map.
  rewrite (map_ext _ (fun entry : string * Aggregated =>
             (totalConfidence (snd entry)
              * (/ grandTotal aggregated * Num.lit 100))%Qc)
             (normalizedConfidence_item (grandTotal aggregated))).
  rewrite <- (map_map (fun entry : string * Aggregated => totalConfidence (snd entry))
                      (fun x => (x * (/ grandTotal aggregated * Num.lit 100))%Qc)).
  rewrite sum_scale.
  rewrite <- (map_map snd (@totalConfidence)).
  change (Num.sum (map (@totalConfidence) (map snd aggregated)))
    with (grandTotal aggregated).
  rewrite Qcmult_assoc, (Qcmult_inv_r _ H). apply Qcmult_1_l.
Qed.

(** ** Lookups determine the entries up to order *)

Lemma get_app (V : Type) (key : string) (m1 m2 : JsMap.t V) :
  JsMap.get key (m1 ++ m2)
  = match JsMap.get key m1 with
    | Some v => Some v
    | None => JsMap.get key m2
    end.
Proof.
  induction m1 as [|[k w] m1 IH]; simpl; [reflexivity|].
  now destruct (String.eqb k key).
Qed.

Lemma same_lookups_perm (m1 m2 : JsMap.t Aggregated) :
  NoDup (JsMap.keys m1) -> NoDup (JsMap.keys m2) ->
  (forall key, option_map stats (JsMap.get key m1)
               = option_map stats (JsMap.get key m2)) ->
  Permutation (map statsView m1) (map statsView m2).
Proof.
  revert m2. induction m1 as [|[k e] m1 IH]; intros m2 Hn1 Hn2 Hget.
  - destruct m2 as [|[k2 e2] m2]; [constructor|].
    specialize (Hget k2). simpl in Hget. rewrite String.eqb_refl in Hget.
    discriminate.
  - pose proof (Hget k) as Hk. simpl in Hk. rewrite String.eqb_refl in Hk.
    destruct (JsMap.get k m2) as [e2|] eqn:E2; [|discriminate].
    simpl in Hk. injection Hk as Ht Hc.
    destruct (in_split _ _ (get_In _ _ _ _ E2)) as (l1 & l2 & ->).
    inversion Hn1 as [|? ? Hk1 Hn1']; subst.
    unfold JsMap.keys in Hn2. rewrite map_app in Hn2. simpl in Hn2.
    pose proof (NoDup_remove_1 _ _ _ Hn2) as Hn2'.
    pose proof (NoDup_remove_2 _ _ _ Hn2) as Hk2.
    rewrite <- map_app in Hn2', Hk2.
    rewrite map_app. simpl.
    replace (statsView (k, e2)) with (statsView (k, e))
      by (unfold statsView; simpl; congruence).
    apply Permutation_cons_app. rewrite <- map_app.
    apply IH; try assumption.
    intros key. destruct (String.eqb k key) eqn:Ek.
    + apply String.eqb_eq in Ek. subst key.
      apply get_None in Hk1. apply get_None in Hk2.
      now rewrite Hk1, Hk2.
    + specialize (Hget key). simpl in Hget. rewrite Ek in Hget.
      rewrite Hget, !get_app. simpl. now rewrite Ek.
Qed.

(** ** Aggregation and ranking under a permutation of the trials *)

Lemma filter_perm (A : Type) (f : A -> bool) (l l' : list A) :
  Permutation l l' -> Permutation (filter f l) (filter f l').
Proof.
  induction 1 as [|x l l' _ IH|x y l|l1 l2 l3 _ IH1 _ IH2]; simpl.
  - constructor.
  - destruct (f x); [now constructor|assumption].
  - destruct (f x), (f y); try reflexivity. apply perm_swap.
  - now transitivity (filter f l2).
Qed.

Lemma stats_get_aggregateSuggestions (key : string) (trials : list TrialResult) :
  option_map stats (JsMap.get key (aggregateSuggestions trials))
  = match withKey key (allSuggestions trials) with
    | [] => None
    | s :: ss => Some (sumConfidence (s :: ss), List.length (s :: ss))
    end.
Proof.
  rewrite get_aggregateSuggestions.
  now destruct (withKey key (allSuggestions trials)).
Qed.

Lemma aggregateSuggestions_perm_lookup (trials trials' : list TrialResult) :
  Permutation trials trials' ->
  forall key,
    option_map stats (JsMap.get key (aggregateSuggestions trials))
    = option_map stats (JsMap.get key (aggregateSuggestions trials')).
Proof.
  intros Hp key. rewrite !stats_get_aggregateSuggestions.
  assert (Permutation (withKey key (allSuggestions trials))
                      (withKey key (allSuggestions trials'))) as Hw.
  { apply filter_perm. unfold allSuggestions. now apply Permutation_flat_map. }
  destruct (withKey key (allSuggestions trials)) as [|s ss] eqn:E1.
  - apply Permutation_nil in Hw. now rewrite Hw.
  - destruct (withKey key (allSuggestions trials')) as [|s' ss'] eqn:E2.
    + symmetry in Hw. apply Permutation_nil in Hw. discriminate.
    + assert (sumConfidence (s :: ss) = sumConfidence (s' :: ss')) as Hs
        by (unfold sumConfidence; apply sum_perm; now apply Permutation_map).
      rewrite Hs. now rewrite (Permutation_length Hw).
Qed.

Lemma aggregateSuggestions_perm (trials trials' : list TrialResult) :
  Permutation trials trials' ->
  Permutation (map statsView (aggregateSuggestions trials))
              (map statsView (aggregateSuggestions trials')).
Proof.
  intros Hp. apply same_lookups_perm.
  - apply NoDup_keys_aggregateSuggestions.
  - apply NoDup_keys_aggregateSuggestions.
  - now apply aggregateSuggestions_perm_lookup.
Qed.

Lemma grandTotal_statsView (aggregated : JsMap.t Aggregated) :
  grandTotal aggregated
  = Num.sum (map (fun v : string * number * nat => snd (fst v))
                 (map statsView aggregated)).
Proof.
  unfold grandTotal, JsMap.values. now rewrite !map_map.
Qed.

Lemma grandTotal_perm (trials trials' : list TrialResult) :
  Permutation trials trials' ->
  grandTotal (aggregateSuggestions trials)
  = grandTotal (aggregateSuggestions trials').
Proof.
  intros Hp. rewrite !grandTotal_statsView. apply sum_perm.
  apply Permutation_map. now apply aggregateSuggestions_perm.
Qed.

Lemma view_normalizeItem (total : number) (aggregated : JsMap.t Aggregated) :
  Forall keyed aggregated ->
  map view (map (normalizeItem total) aggregated)
  = map (rescale total) (map statsView aggregated).
Proof.
  induction 1 as [|[k e] m Hk _ IH]; simpl; [reflexivity|].
  rewrite IH. f_equal. unfold view, keyOfNormalized, statsView. simpl.
  unfold keyed in Hk. simpl in Hk. now rewrite Hk.
Qed.

Lemma view_rank (trials : list TrialResult) :
  grandTotal (aggregateSuggestions trials) <> 0%Qc ->
  Permutation (map view (rank trials))
    (map (rescale (grandTotal (aggregateSuggestions trials)))
         (map statsView (aggregateSuggestions trials))).
Proof.
  intros H. unfold rank.
  rewrite (Permutation_map view (normalizeConfidences_perm _ H)).
  rewrite view_normalizeItem by apply keyed_aggregateSuggestions.
  reflexivity.
Qed.

Lemma rank_perm_view (trials trials' : list TrialResult) :
  Permutation trials trials' ->
  Permutation (map view (rank trials)) (map view (rank trials')).
Proof.
  intros Hp. pose proof (grandTotal_perm _ _ Hp) as Ht.
  destruct (Qc_eq_dec (grandTotal (aggregateSuggestions trials)) 0) as [E|E].
  - unfold rank. rewrite (normalizeConfidences_zero _ E).
    rewrite Ht in E. rewrite (normalizeConfidences_zero _ E). constructor.
  - rewrite (view_rank _ E). rewrite Ht in E. rewrite (view_rank _ E).
    rewrite Ht. apply Permutation_map. now apply aggregateSuggestions_perm.
Qed.

(** Two descending arrangements of the same candidates coincide when no two
    candidates have the same confidence. *)
Lemma descending_unique (l l' : list Normalized) :
  descending l -> descending l' ->
  Permutation (map view l) (map view l') ->
  NoDup (map (@normalizedConfidence) l) ->
  map view l = map view l'.
Proof.
  revert l'. induction l as [|a l IH]; intros l' Hd Hd' Hp Hn.
  - simpl in Hp. apply Permutation_nil in Hp. now rewrite Hp.
  - destruct l' as [|b l'].
    + simpl in Hp. symmetry in Hp. apply Permutation_nil in Hp. discriminate.
    + unfold descending in Hd, Hd'.
      apply StronglySorted_inv in Hd as [Hd Ha].
      apply StronglySorted_inv in Hd' as [Hd' Hb].
      simpl in Hn. inversion Hn as [|? ? Hna Hn']; subst.
      assert (view a = view b) as Hab.
      { assert (In (view a) (map view (b :: l'))) as Ia
          by (apply (Permutation_in _ Hp); now left).
        assert (In (view b) (map view (a :: l))) as Ib
          by (apply (Permutation_in _ (Permutation_sym Hp)); now left).
        simpl in Ia, Ib. destruct Ia as [Ia|Ia]; [now symmetry|].
        destruct Ib as [Ib|Ib]; [assumption|].
        apply in_map_iff in Ia as (a' & Ea & Ia).
        apply in_map_iff in Ib as (b' & Eb & Ib).
        rewrite Forall_forall in Ha, Hb.
        pose proof (Ha _ Ib) as H1. pose proof (Hb _ Ia) as H2.
        assert (normalizedConfidence a' = normalizedConfidence a) as Ea'
          by (unfold view in Ea; congruence).
        assert (normalizedConfidence b' = normalizedConfidence b) as Eb'
          by (unfold view in Eb; congruence).
        rewrite Ea' in H2. rewrite Eb' in H1.
        exfalso. apply Hna. rewrite (Qcle_antisym _ _ H2 H1).
        rewrite <- Eb'. now apply in_map. }
      simpl. rewrite Hab. f_equal. apply IH; try assumption.
      simpl in Hp. rewrite Hab in Hp. now apply Permutation_cons_inv in Hp.
Qed.

(** ** The dominance analysis *)

Lemma absoluteThreshold_spec (top : Normalized) :
  absoluteThreshold top = true
  <-> (Num.lit 50 <= normalizedConfidence top)%Qc.
Proof. apply leb_le. Qed.

Lemma absoluteThreshold_fails (top : Normalized) :
  absoluteThreshold top = false
  <-> (normalizedConfidence top < Num.lit 50)%Qc.
Proof. apply leb_gt. Qed.

Lemma relativeDominance_spec (top : Normalized) (rest : list Normalized) :
  relativeDominance top rest = true
  <-> rest = []
      \/ exists second tail,
           rest = second :: tail
           /\ (Num.lit 2 * normalizedConfidence second
               <= normalizedConfidence top)%Qc.
Proof.
  unfold relativeDominance. destruct rest as [|second tail].
  - split; auto.
  - cbn [List.length Nat.eqb orb]. rewrite leb_le. split.
    + intros H. right. now exists second, tail.
    + intros [H|(s & t & E & H)]; [discriminate|]. now injection E as -> ->.
Qed.

Lemma relativeDominance_fails (top : Normalized) (rest : list Normalized) :
  relativeDominance top rest = false
  <-> exists second tail,
        rest = second :: tail
        /\ (normalizedConfidence top
            < Num.lit 2 * normalizedConfidence second)%Qc.
Proof.
  unfold relativeDominance. destruct rest as [|second tail].
  - split; [discriminate|]. intros (s & t & E & _). discriminate.
  - cbn [List.length Nat.eqb orb]. rewrite leb_gt. split.
    + intros H. now exists second, tail.
    + intros (s & t & E & H). now injection E as -> ->.
Qed.

Lemma closeAlternatives_pushed (top : Normalized) (rest : list Normalized) :
  negb (relativeDominance top rest) && (0 <? List.length rest)
  = negb (relativeDominance top rest).
Proof. destruct rest; simpl; [reflexivity|]. apply andb_true_r. Qed.

Lemma hasNewFolderInSingleTrial_spec (normalized : list Normalized) :
  hasNewFolderInSingleTrial normalized = true
  <-> exists n, In n normalized /\ n_isNewFolder n = true /\ n_count n = 1.
Proof.
  unfold hasNewFolderInSingleTrial. rewrite existsb_exists.
  split; intros (n & Hin & H); exists n; split; try assumption.
  - apply andb_true_iff in H as [H1 H2]. apply Nat.eqb_eq in H2. auto.
  - destruct H as [H1 H2]. rewrite H1, H2. reflexivity.
Qed.

(** Which reasons are pushed, one rule at a time. *)
Lemma reviewReasons_spec (normalized : list Normalized) (trials : list TrialResult)
    (top : Normalized) (rest : list Normalized) :
  (In LowAbsoluteConfidence (reviewReasons normalized trials top rest)
   <-> absoluteThreshold top = false)
  /\ (In CloseAlternatives (reviewReasons normalized trials top rest)
      <-> relativeDominance top rest = false)
  /\ (In NewFolderUnverified (reviewReasons normalized trials top rest)
      <-> newFolderNeedsReview normalized trials top = true)
  /\ (In NewFolderSingleTrial (reviewReasons normalized trials top rest)
      <-> hasNewFolderInSingleTrial normalized = true).
Proof.
  unfold reviewReasons. rewrite closeAlternatives_pushed.
  destruct (absoluteThreshold top), (relativeDominance top rest),
    (newFolderNeedsReview normalized trials top),
    (hasNewFolderInSingleTrial normalized); simpl;
    repeat split; intros H; try reflexivity; try discriminate; auto;
    repeat (destruct H as [H|H]; try discriminate H); try contradiction.
Qed.

Lemma reviewReasons_nil (normalized : list Normalized) (trials : list TrialResult)
    (top : Normalized) (rest : list Normalized) :
  reviewReasons normalized trials top rest = []
  <-> dominant normalized trials top rest = true.
Proof.
  unfold reviewReasons, dominant. rewrite closeAlternatives_pushed.
  destruct (absoluteThreshold top), (relativeDominance top rest),
    (newFolderNeedsReview normalized trials top),
    (hasNewFolderInSingleTrial normalized); simpl;
    split; intros H; try reflexivity; discriminate.
Qed.

Lemma reviewReasons_ordered (normalized : list Normalized) (trials : list TrialResult)
    (top : Normalized) (rest : list Normalized) :
  StronglySorted lt (map ruleNumber (reviewReasons normalized trials top rest))
  /\ Forall (fun r => 1 <= ruleNumber r <= 4)
            (reviewReasons normalized trials top rest).
Proof.
  unfold reviewReasons. rewrite closeAlternatives_pushed.
  destruct (absoluteThreshold top), (relativeDominance top rest),
    (newFolderNeedsReview normalized trials top),
    (hasNewFolderInSingleTrial normalized); simpl;
    split; repeat constructor.
Qed.

Lemma decide_cons (top : Normalized) (rest : list Normalized)
    (trials : list TrialResult) :
  decide (top :: rest) trials = inr (verdict top rest trials).
Proof. reflexivity. Qed.

(** ** Validation in makeTrial *)

Lemma ltb_false_leb (a b : number) : Num.ltb a b = false -> Num.leb b a = true.
Proof.
  intros H. apply leb_le. apply Qcnot_lt_le. intros Hlt.
  apply ltb_lt in Hlt. congruence.
Qed.

Lemma checkSuggestion_valid (r : RawSuggestion) (s : FolderSuggestion) :
  checkSuggestion r = inr s -> validSuggestion s = true.
Proof.
  unfold checkSuggestion, validSuggestion.
  destruct (raw_path r) as [p|]; [|discriminate].
  destruct (raw_confidence r) as [c|]; [|discriminate].
  destruct (Num.ltb c (Num.lit 0)) eqn:E0; [discriminate|].
  destruct (Num.ltb (Num.lit 100) c) eqn:E100; [discriminate|]. simpl.
  destruct (match raw_isNewFolder r with Some b => b | None => false end);
    simpl.
  - destruct (truthy (raw_newFolderName r)) eqn:Et; [|discriminate]. simpl.
    intros [= <-]. simpl.
    now rewrite (ltb_false_leb _ _ E0), (ltb_false_leb _ _ E100), Et.
  - intros [= <-]. simpl.
    now rewrite (ltb_false_leb _ _ E0), (ltb_false_leb _ _ E100).
Qed.

Lemma checkSuggestions_valid (l : list RawSuggestion)
    (ss : list FolderSuggestion) :
  checkSuggestions l = inr ss -> Forall (fun s => validSuggestion s = true) ss.
Proof.
  revert ss. induction l as [|r l IH]; intros ss; simpl.
  - intros [= <-]. constructor.
  - destruct (checkSuggestion r) as [e|s] eqn:Er; [discriminate|].
    destruct (checkSuggestions l) as [e|ss'] eqn:El; [discriminate|].
    intros [= <-]. constructor.
    + now apply (checkSuggestion_valid r).
    + now apply IH.
Qed.

Lemma makeTrialOn_valid (response : Response) (t : TrialResult) :
  makeTrialOn response = inr t ->
  Forall (fun s => validSuggestion s = true) (suggestions t).
Proof.
  destruct response as [e|text msg|text|text elements]; simpl;
    try discriminate.
  destruct (checkSuggestions elements) as [e|ss] eqn:E; [discriminate|].
  intros [= <-]. simpl. now apply (checkSuggestions_valid elements).
Qed.

(** ** The retry loop *)

Section SamplerFacts.
Variable makeTrial : nat -> Error + TrialResult.

Lemma outcomes_S (n : nat) :
  outcomes makeTrial (S n) = outcomes makeTrial n ++ [makeTrial (n + 1)].
Proof.
  unfold outcomes. rewrite seq_S, map_app. simpl.
  now rewrite Nat.add_1_r.
Qed.

Lemma returned_app (l1 l2 : list (Error + TrialResult)) :
  returned (l1 ++ l2) = returned l1 ++ returned l2.
Proof. apply flat_map_app. Qed.

Lemma returned_failed_length (l : list (Error + TrialResult)) :
  List.length l = List.length (returned l) + failed l.
Proof.
  unfold failed. induction l as [|[e|t] l IH]; simpl; lia.
Qed.

Lemma returned_nil (l : list (Error + TrialResult)) :
  returned l = [] <-> forall o, In o l -> exists e, o = inl e.
Proof.
  induction l as [|[e|t] l IH]; simpl.
  - split; [intros _ o []|reflexivity].
  - rewrite IH. split.
    + intros H o [<-|Ho]; [now exists e|now apply H].
    + intros H o Ho. apply H. now right.
  - split; [discriminate|]. intros H.
    destruct (H (inr t) (or_introl eq_refl)) as [e He]. discriminate.
Qed.

Lemma outcomes_length (n : nat) : List.length (outcomes makeTrial n) = n.
Proof. unfold outcomes. now rewrite length_map, length_seq. Qed.

Lemma In_outcomes (n i : nat) :
  1 <= i <= n -> In (makeTrial i) (outcomes makeTrial n).
Proof.
  intros H. unfold outcomes. apply in_map. apply in_seq. lia.
Qed.

Lemma outcomes_In (n : nat) (o : Error + TrialResult) :
  In o (outcomes makeTrial n) -> exists i, 1 <= i <= n /\ o = makeTrial i.
Proof.
  unfold outcomes. intros H. apply in_map_iff in H as (i & E & Hi).
  apply in_seq in Hi. exists i. split; [lia|now symmetry].
Qed.

Lemma attempts_attempt (st : Sampling) :
  attempts (attempt makeTrial st) = attempts st + 1.
Proof. unfold attempt. now destruct (makeTrial (attempts st + 1)). Qed.

Lemma continue_spec (st : Sampling) :
  continue st = true
  <-> List.length (trials_ st) < 3 /\ attempts st < maxAttempts.
Proof.
  unfold continue. now rewrite andb_true_iff, !Nat.ltb_lt.
Qed.

Lemma collected_attempt (st : Sampling) :
  collected makeTrial st -> continue st = true ->
  collected makeTrial (attempt makeTrial st).
Proof.
  intros (Ht & Ha & Hl & Hn) Hc. apply continue_spec in Hc as [Hc1 Hc2].
  assert (forall n, n < attempts st + 1 ->
            List.length (returned (outcomes makeTrial n)) < 3) as Hn'.
  { intros n Hlt. destruct (Nat.eq_dec n (attempts st)) as [->|Hne].
    - now rewrite <- Ht.
    - apply Hn. lia. }
  unfold collected, attempt.
  destruct (makeTrial (attempts st + 1)) as [e|t] eqn:E; simpl;
    rewrite Nat.add_1_r, outcomes_S, returned_app, <- Ht, E; simpl.
  - rewrite app_nil_r. repeat split; try assumption; try lia.
    intros n Hlt. apply Hn'. lia.
  - rewrite length_app. simpl. repeat split; try lia.
    intros n Hlt. apply Hn'. lia.
Qed.

Lemma collected_collectLoop (fuel : nat) (st : Sampling) :
  collected makeTrial st ->
  collected makeTrial (collectLoop makeTrial fuel st).
Proof.
  revert st. induction fuel as [|fuel IH]; intros st H; simpl.
  - assumption.
  - destruct (continue st) eqn:E; [|assumption].
    apply IH. now apply collected_attempt.
Qed.

(** The loop has left its [while] once the fuel covers the attempts that
    remain. *)
Lemma collectLoop_exits (fuel : nat) (st : Sampling) :
  maxAttempts - attempts st <= fuel ->
  continue (collectLoop makeTrial fuel st) = false.
Proof.
  revert st. induction fuel as [|fuel IH]; intros st H; simpl.
  - unfold continue. replace (attempts st <? maxAttempts) with false.
    + apply andb_false_r.
    + symmetry. apply Nat.ltb_ge. lia.
  - destruct (continue st) eqn:E; [|assumption].
    apply IH. rewrite attempts_attempt. lia.
Qed.

Lemma collectLoop_attempts_mono (fuel : nat) (st : Sampling) :
  attempts st <= attempts (collectLoop makeTrial fuel st).
Proof.
  revert st. induction fuel as [|fuel IH]; intros st; simpl.
  - lia.
  - destruct (continue st); [|lia].
    specialize (IH (attempt makeTrial st)). rewrite attempts_attempt in IH.
    lia.
Qed.

Lemma collectSamples_collected :
  collected makeTrial (collectSamples makeTrial).
Proof.
  apply collected_collectLoop. unfold collected, maxAttempts. simpl.
  repeat split; lia.
Qed.

Lemma collectSamples_exits :
  List.length (trials_ (collectSamples makeTrial)) = 3
  \/ attempts (collectSamples makeTrial) = maxAttempts.
Proof.
  pose proof (collectLoop_exits maxAttempts
                {| trials_ := []; attempts := 0 |}) as Hx.
  fold (collectSamples makeTrial) in Hx.
  destruct collectSamples_collected as (_ & Ha & Hl & _).
  assert (continue (collectSamples makeTrial) = false) as Hc
    by (apply Hx; unfold maxAttempts; simpl; lia).
  unfold continue in Hc. apply andb_false_iff in Hc as [Hc|Hc];
    apply Nat.ltb_ge in Hc; lia.
Qed.
End SamplerFacts.

(** The loop reads the oracle only at the attempts it makes. *)
Lemma collectLoop_ext (makeTrial makeTrial' : nat -> Error + TrialResult)
    (fuel : nat) (st : Sampling) :
  (forall i, attempts st < i <= attempts (collectLoop makeTrial fuel st) ->
             makeTrial' i = makeTrial i) ->
  collectLoop makeTrial' fuel st = collectLoop makeTrial fuel st.
Proof.
  revert st. induction fuel as [|fuel IH]; intros st H; simpl in *.
  - reflexivity.
  - destruct (continue st) eqn:E; [|reflexivity].
    pose proof (collectLoop_attempts_mono makeTrial fuel (attempt makeTrial st))
      as Hm.
    rewrite attempts_attempt in Hm.
    assert (attempt makeTrial' st = attempt makeTrial st) as Ea.
    { unfold attempt. rewrite H by lia. reflexivity. }
    rewrite Ea. apply IH. intros i Hi. apply H.
    rewrite attempts_attempt in Hi. lia.
Qed.

Lemma no_new_folder (top : Normalized) (rest : list Normalized)
    (trials : list TrialResult) :
  Forall (fun n => n_isNewFolder n = false) (top :: rest) ->
  newFolderNeedsReview (top :: rest) trials top = false
  /\ hasNewFolderInSingleTrial (top :: rest) = false.
Proof.
  intros H. split.
  - unfold newFolderNeedsReview. inversion H as [|? ? Ht _]; subst.
    now rewrite Ht.
  - destruct (hasNewFolderInSingleTrial (top :: rest)) eqn:E; [|reflexivity].
    apply hasNewFolderInSingleTrial_spec in E as (n & Hin & Hn & _).
    rewrite Forall_forall in H. rewrite (H _ Hin) in Hn. discriminate.
Qed.

(* ================================================================= *)
(** * The claims *)

(** C1. For every non-empty ranking [top :: rest], the verdict is dominant
    only if the top candidate's normalised confidence is at least 50 and
    either there is no other candidate or it is at least twice the
    second-best's; reason [LowAbsoluteConfidence] is pushed exactly when the
    first rule fails and [CloseAlternatives] exactly when the second fails.
    With top = 51 and second = 30 the reason [CloseAlternatives] is pushed
    (and [LowAbsoluteConfidence] is not); with top = 67 and second = 33
    both rules pass, and the verdict is dominant when no candidate is a
    new folder. *)
Theorem C1_dominance_rules :
  forall (top : Normalized) (rest : list Normalized) (trials : list TrialResult),
    (isDominant (verdict top rest trials) = true ->
       (Num.lit 50 <= normalizedConfidence top)%Qc
       /\ (rest = []
           \/ exists second tail,
                rest = second :: tail
                /\ (Num.lit 2 * normalizedConfidence second
                    <= normalizedConfidence top)%Qc))
    /\ (In LowAbsoluteConfidence (reasons top rest trials)
        <-> (normalizedConfidence top < Num.lit 50)%Qc)
    /\ (In CloseAlternatives (reasons top rest trials)
        <-> exists second tail,
              rest = second :: tail
              /\ (normalizedConfidence top
                  < Num.lit 2 * normalizedConfidence second)%Qc)
    /\ (forall second tail,
          rest = second :: tail ->
          normalizedConfidence top = Num.lit 51 ->
          normalizedConfidence second = Num.lit 30 ->
          In CloseAlternatives (reasons top rest trials)
          /\ ~ In LowAbsoluteConfidence (reasons top rest trials))
    /\ (forall second tail,
          rest = second :: tail ->
          normalizedConfidence top = Num.lit 67 ->
          normalizedConfidence second = Num.lit 33 ->
          ~ In LowAbsoluteConfidence (reasons top rest trials)
          /\ ~ In CloseAlternatives (reasons top rest trials)
          /\ (Forall (fun n => n_isNewFolder n = false) (top :: rest) ->
              isDominant (verdict top rest trials) = true)).
Proof.
  intros top rest trials.
  destruct (reviewReasons_spec (top :: rest) trials top rest)
    as (Hlow & Hclose & _ & _).
  fold (reasons top rest trials) in Hlow, Hclose.
  rewrite absoluteThreshold_fails in Hlow.
  rewrite relativeDominance_fails in Hclose.
  split; [|split; [exact Hlow|split; [exact Hclose|split]]].
  - simpl. unfold dominant. intros H.
    apply andb_true_iff in H as [H _]. apply andb_true_iff in H as [H _].
    apply andb_true_iff in H as [Ha Hr].
    apply absoluteThreshold_spec in Ha. apply relativeDominance_spec in Hr.
    now split.
  - intros second tail -> Et Es. split.
    + apply Hclose. exists second, tail. split; [reflexivity|].
      rewrite Et, Es. apply ltb_lt. vm_compute. reflexivity.
    + rewrite Hlow, Et. apply Qcle_not_lt. apply leb_le. vm_compute.
      reflexivity.
  - intros second tail -> Et Es.
    assert (absoluteThreshold top = true) as Ha.
    { apply absoluteThreshold_spec. rewrite Et. apply leb_le.
      vm_compute. reflexivity. }
    assert (relativeDominance top (second :: tail) = true) as Hr.
    { apply relativeDominance_spec. right. exists second, tail.
      split; [reflexivity|]. rewrite Et, Es. apply leb_le.
      vm_compute. reflexivity. }
    split; [|split].
    + rewrite Hlow, <- absoluteThreshold_fails, Ha. discriminate.
    + rewrite Hclose, <- relativeDominance_fails, Hr. discriminate.
    + intros Hn. simpl. unfold dominant. rewrite Ha, Hr.
      destruct (no_new_folder top (second :: tail) trials Hn) as [-> ->].
      reflexivity.
Qed.

(** The rankings 51, 30, 19 and 67, 33 of existing folders. *)
Lemma C1_dominance_rules_witness :
  let a := ranked ["Archive"%string] None false 51 2 in
  let b := ranked ["Inbox"%string] None false 30 2 in
  let c := ranked ["Misc"%string] None false 19 1 in
  let d := ranked ["Archive"%string] None false 67 2 in
  let e := ranked ["Inbox"%string] None false 33 1 in
  In CloseAlternatives (reasons a [b; c] [])
  /\ ~ In LowAbsoluteConfidence (reasons a [b; c] [])
  /\ isDominant (verdict a [b; c] []) = false
  /\ reasons d [e] [] = []
  /\ isDominant (verdict d [e] []) = true.
Proof.
  intros a b c d e.
  destruct (C1_dominance_rules a [b; c] []) as (_ & _ & _ & H51 & _).
  destruct (H51 b [c] eq_refl eq_refl eq_refl) as [Hclose Hlow].
  destruct (C1_dominance_rules d [e] []) as (_ & _ & _ & _ & H67).
  destruct (H67 e [] eq_refl eq_refl eq_refl) as (_ & _ & Hdom).
  split; [exact Hclose|]. split; [exact Hlow|].
  split; [reflexivity|]. split; [reflexivity|].
  apply Hdom. repeat constructor.
Defined.

(** C5. For every ranking, if any new-folder candidate anywhere in it (not
    only the top choice) has count exactly 1, reason [NewFolderSingleTrial]
    is pushed and the verdict is not dominant (it needs review), whatever
    the top choice is. *)
Theorem C5_new_folder_single_trial :
  forall (top : Normalized) (rest : list Normalized) (trials : list TrialResult)
         (n : Normalized),
    In n (top :: rest) ->
    n_isNewFolder n = true ->
    n_count n = 1 ->
    In NewFolderSingleTrial (reasons top rest trials)
    /\ isDominant (verdict top rest trials) = false
    /\ needsReview (verdict top rest trials) = true.
Proof.
  intros top rest trials n Hin Hnew Hcount.
  assert (hasNewFolderInSingleTrial (top :: rest) = true) as H
    by (apply hasNewFolderInSingleTrial_spec; now exists n).
  destruct (reviewReasons_spec (top :: rest) trials top rest)
    as (_ & _ & _ & Hsingle).
  split; [now apply Hsingle|].
  simpl. unfold dominant. rewrite H, andb_false_r. split; reflexivity.
Qed.

(** An existing-folder top choice at 80 that passes rules 1 to 3, followed
    by a new folder proposed once at 20: the single-trial rule alone
    withholds dominance. *)
Lemma C5_new_folder_single_trial_witness :
  let top := ranked ["Work"%string] None false 80 3 in
  let second := ranked ["Work"%string] (Some "Taxes"%string) true 20 1 in
  absoluteThreshold top = true
  /\ relativeDominance top [second] = true
  /\ newFolderNeedsReview [top; second] [] top = false
  /\ In NewFolderSingleTrial (reasons top [second] [])
  /\ isDominant (verdict top [second] []) = false
  /\ needsReview (verdict top [second] []) = true.
Proof.
  intros top second.
  split; [reflexivity|split; [reflexivity|split; [reflexivity|]]].
  apply (C5_new_folder_single_trial top [second] [] second).
  - right. left. reflexivity.
  - reflexivity.
  - reflexivity.
Defined.

(** ** What [classifyFile] returns *)

Lemma classifyFile_inr (makeTrial : nat -> Error + TrialResult)
    (apiKey : option string) (r : ClassificationResult) :
  classifyFile makeTrial apiKey = inr r ->
  exists top rest,
    rank (trials_ (collectSamples makeTrial)) = top :: rest
    /\ r = verdict top rest (trials_ (collectSamples makeTrial)).
Proof.
  unfold classifyFile.
  destruct (negb (truthy apiKey)); [discriminate|].
  destruct (List.length (trials_ (collectSamples makeTrial)) =? 0);
    [discriminate|].
  fold (rank (trials_ (collectSamples makeTrial))).
  destruct (rank (trials_ (collectSamples makeTrial))) as [|top rest];
    simpl; [discriminate|].
  intros [= <-]. now exists top, rest.
Qed.

Lemma classifyFile_inl (makeTrial : nat -> Error + TrialResult)
    (apiKey : option string) (e : Error) :
  classifyFile makeTrial apiKey = inl e ->
  (e = MissingApiKey /\ truthy apiKey = false)
  \/ (e = NoUsableSamples /\ truthy apiKey = true
      /\ trials_ (collectSamples makeTrial) = [])
  \/ (e = EmptyAggregate /\ truthy apiKey = true
      /\ trials_ (collectSamples makeTrial) <> []
      /\ rank (trials_ (collectSamples makeTrial)) = []).
Proof.
  unfold classifyFile.
  destruct (truthy apiKey); simpl; [|intros [= <-]; now left].
  destruct (trials_ (collectSamples makeTrial)) as [|t ts] eqn:Et; simpl.
  - intros [= <-]. right. left. auto.
  - fold (rank (t :: ts)).
    destruct (rank (t :: ts)) as [|top rest]; simpl; [|discriminate].
    intros [= <-]. right. right. repeat split; auto. discriminate.
Qed.

(** C6. Every verdict satisfies: [needsReview] is the negation of
    [isDominant], so exactly one of the two is true; the list of reasons is
    empty (and [reviewReason] is absent) exactly when [isDominant] is true;
    and the reasons pushed appear in the fixed order of the rules,
    [LowAbsoluteConfidence], [CloseAlternatives], [NewFolderUnverified],
    [NewFolderSingleTrial].  Every result [classifyFile] returns is such a
    verdict. *)
Theorem C6_verdict_invariants :
  (forall (top : Normalized) (rest : list Normalized)
          (trials : list TrialResult),
      let v := verdict top rest trials in
      needsReview v = negb (isDominant v)
      /\ (reasons top rest trials = [] <-> isDominant v = true)
      /\ (reviewReason v = None <-> isDominant v = true)
      /\ (reasons top rest trials <> [] ->
          reviewReason v = Some (Json.join "; " (reasons top rest trials)))
      /\ StronglySorted lt (map ruleNumber (reasons top rest trials))
      /\ Forall (fun r => 1 <= ruleNumber r <= 4) (reasons top rest trials))
  /\ (forall (makeTrial : nat -> Error + TrialResult) (apiKey : option string)
             (r : ClassificationResult),
        classifyFile makeTrial apiKey = inr r ->
        exists top rest,
          r = verdict top rest (trials_ (collectSamples makeTrial))).
Proof.
  split.
  - intros top rest trials v.
    pose proof (reviewReasons_nil (top :: rest) trials top rest) as Hnil.
    pose proof (reviewReasons_ordered (top :: rest) trials top rest)
      as [Hsorted Hrange].
    fold (reasons top rest trials) in Hnil, Hsorted, Hrange.
    assert (isDominant v = dominant (top :: rest) trials top rest) as Hd
      by reflexivity.
    assert (reviewReason v
            = if 0 <? List.length (reasons top rest trials)
              then Some (Json.join "; " (reasons top rest trials))
              else None) as Hr by reflexivity.
    rewrite Hd, <- Hnil.
    split; [reflexivity|]. split; [reflexivity|].
    split; [|split; [|split; assumption]].
    + rewrite Hr. destruct (reasons top rest trials); simpl;
        split; intros H; try reflexivity; discriminate.
    + intros Hne. rewrite Hr.
      destruct (reasons top rest trials); simpl; [contradiction|reflexivity].
  - intros makeTrial apiKey r H.
    destruct (classifyFile_inr _ _ _ H) as (top & rest & _ & ->).
    now exists top, rest.
Qed.

(** C4. For every aggregated map: the ranked output consists of the
    candidates of the map, each with [normalizedConfidence] equal to its
    [totalConfidence] divided by the grand total and multiplied by 100, so
    that the normalised confidences of the output sum to exactly 100; and
    normalisation yields no candidate, which [classifyFile] raises as the
    error [EmptyAggregate] ("No valid suggestions received from any
    trial"), exactly when the map is empty or the grand total is 0. *)
Theorem C4_normalisation :
  forall aggregated : JsMap.t Aggregated,
    (grandTotal aggregated <> 0%Qc ->
       Permutation
         (normalizeConfidences aggregated)
         (map (fun item =>
                 {| n_path := a_path item;
                    n_newFolderName := a_newFolderName item;
                    n_isNewFolder := a_isNewFolder item;
                    normalizedConfidence :=
                      (totalConfidence item / grandTotal aggregated
                       * Num.lit 100)%Qc;
                    n_count := count item |})
              (JsMap.values aggregated))
       /\ Num.sum (map (@normalizedConfidence)
                       (normalizeConfidences aggregated)) = Num.lit 100)
    /\ (normalizeConfidences aggregated = []
        <-> aggregated = [] \/ grandTotal aggregated = 0%Qc)
    /\ (forall trials,
          decide (normalizeConfidences aggregated) trials = inl EmptyAggregate
          <-> aggregated = [] \/ grandTotal aggregated = 0%Qc)
    /\ (forall makeTrial apiKey,
          aggregated = aggregateSuggestions (trials_ (collectSamples makeTrial)) ->
          truthy apiKey = true ->
          trials_ (collectSamples makeTrial) <> [] ->
          (classifyFile makeTrial apiKey = inl EmptyAggregate
           <-> aggregated = [] \/ grandTotal aggregated = 0%Qc)).
Proof.
  intros aggregated.
  assert (normalizeConfidences aggregated = []
          <-> aggregated = [] \/ grandTotal aggregated = 0%Qc) as Hnil.
  { rewrite normalizeConfidences_nil_iff. split; [auto|].
    intros [->|H]; [reflexivity|assumption]. }
  split; [|split; [exact Hnil|split]].
  - intros H. split; [|now apply sum_normalized].
    rewrite (normalizeConfidences_perm _ H). unfold JsMap.values.
    rewrite map_map. apply Permutation_refl'. apply map_ext.
    now intros [k item].
  - intros trials. rewrite <- Hnil.
    destruct (normalizeConfidences aggregated) as [|top rest]; simpl.
    + split; reflexivity.
    + split; discriminate.
  - intros makeTrial apiKey -> Hkey Hne. rewrite <- Hnil.
    fold (rank (trials_ (collectSamples makeTrial))).
    split.
    + intros H. apply classifyFile_inl in H
        as [[H _]|[[H _]|(_ & _ & _ & H)]]; try discriminate H. exact H.
    + intros H. unfold classifyFile. rewrite Hkey. simpl.
      destruct (trials_ (collectSamples makeTrial)) as [|t ts] eqn:Et;
        [contradiction|].
      simpl. fold (rank (t :: ts)). now rewrite H.
Qed.

(** Two trials over three candidates: the normalised confidences sum to
    100; three trials that only propose confidence 0 yield no candidate and
    the error. *)
Lemma C4_normalisation_witness :
  let a := existingFolder ["Archive"%string] 60 in
  let b := existingFolder ["Inbox"%string] 30 in
  let n := newFolder ["Archive"%string] "Taxes" 20 in
  let z := existingFolder ["Misc"%string] 0 in
  let aggregated := aggregateSuggestions [trialOf [a; b]; trialOf [a; n]] in
  let zero := aggregateSuggestions [trialOf [z]; trialOf [z]; trialOf [z]] in
  Num.sum (map (@normalizedConfidence) (normalizeConfidences aggregated))
  = Num.lit 100
  /\ normalizeConfidences zero = []
  /\ decide (normalizeConfidences zero) [] = inl EmptyAggregate.
Proof.
  intros a b n z aggregated zero.
  destruct (C4_normalisation aggregated) as (Hsum & _).
  destruct (C4_normalisation zero) as (_ & Hnil & Herr & _).
  assert (grandTotal aggregated <> 0%Qc) as Hnz
    by (apply eqb_neq; vm_compute; reflexivity).
  assert (grandTotal zero = 0%Qc) as Hz
    by (apply eqb_eq; vm_compute; reflexivity).
  split; [exact (proj2 (Hsum Hnz))|].
  split; [apply Hnil; now right|].
  apply Herr. now right.
Defined.

(** C8, as stated, fails: a sample without suggestions is not usable in
    the words of the specification, but the loop keeps it and counts it.
    When the oracle answers with the empty array three times, the loop
    stops after 3 attempts, with the budget of 6 not spent, and none of
    the 3 trials it holds is usable. *)
Lemma C8_empty_samples_counterexample :
  let st :=
    collectSamples
      (answering [Parsed "[]" []; Parsed "[]" []; Parsed "[]" []]) in
  attempts st = 3
  /\ attempts st < maxAttempts
  /\ List.length (trials_ st) = 3
  /\ filter usableBySpec (trials_ st) = [].
Proof.
  intros st.
  assert (st = {| trials_ := [ {| suggestions := []; rawResponse := "[]" |};
                               {| suggestions := []; rawResponse := "[]" |};
                               {| suggestions := []; rawResponse := "[]" |} ];
                  attempts := 3 |}) as -> by reflexivity.
  cbn [attempts trials_]. unfold maxAttempts.
  split; [reflexivity|]. split; [lia|]. split; reflexivity.
Qed.

(** C8, amended. The loop calls the oracle one attempt after the other,
    at most [maxAttempts] = 6 times, and stops as soon as 3 trials are
    collected, a trial being whatever [makeTrial] returns (an answer with
    no suggestions included): the trials are the returned outcomes of the
    attempts made, in order; at most 3 are kept; no attempt is made once 3
    trials are there; the loop ends with 3 trials or with the budget
    spent; a call that throws costs an attempt and adds no trial; the
    outcome of a call that is not made has no influence.  With an oracle
    that fails twice and then succeeds three times, exactly these 3 trials
    are collected in 5 attempts, whatever a sixth call would have
    returned. *)
Theorem C8_sampler_bounds :
  forall makeTrial : nat -> Error + TrialResult,
    let st := collectSamples makeTrial in
    attempts st <= maxAttempts
    /\ maxAttempts = 6
    /\ List.length (trials_ st) <= 3
    /\ trials_ st = returned (outcomes makeTrial (attempts st))
    /\ attempts st
       = List.length (trials_ st) + failed (outcomes makeTrial (attempts st))
    /\ (forall n, n < attempts st ->
          List.length (returned (outcomes makeTrial n)) < 3)
    /\ (List.length (trials_ st) = 3 \/ attempts st = maxAttempts)
    /\ (forall makeTrial',
          (forall i, 1 <= i <= attempts st -> makeTrial' i = makeTrial i) ->
          collectSamples makeTrial' = st)
    /\ (forall s e,
          makeTrial (attempts s + 1) = inl e ->
          attempt makeTrial s
          = {| trials_ := trials_ s; attempts := attempts s + 1 |})
    /\ (forall s t,
          makeTrial (attempts s + 1) = inr t ->
          attempt makeTrial s
          = {| trials_ := trials_ s ++ [t]; attempts := attempts s + 1 |})
    /\ (forall e1 e2 t3 t4 t5 after,
          collectSamples
            (scripted [inl e1; inl e2; inr t3; inr t4; inr t5] after)
          = {| trials_ := [t3; t4; t5]; attempts := 5 |})
    /\ (forall s text,
          makeTrial (attempts s + 1) = makeTrialOn (Parsed text []) ->
          attempt makeTrial s
          = {| trials_ :=
                 trials_ s ++ [{| suggestions := []; rawResponse := text |}];
               attempts := attempts s + 1 |}).
Proof.
  intros makeTrial st.
  destruct (collectSamples_collected makeTrial) as (Ht & Ha & Hl & Hn).
  fold st in Ht, Ha, Hl, Hn.
  split; [exact Ha|]. split; [reflexivity|]. split; [exact Hl|].
  split; [exact Ht|].
  split; [|split; [exact Hn|split; [|split; [|split; [|split; [|split]]]]]].
  - rewrite Ht at 1.
    rewrite <- (outcomes_length makeTrial (attempts st)) at 1.
    apply returned_failed_length.
  - apply collectSamples_exits.
  - intros makeTrial' H. unfold st, collectSamples.
    apply collectLoop_ext. intros i [Hi1 Hi2]. apply H.
    split; [simpl in Hi1; lia|exact Hi2].
  - intros s e E. unfold attempt. now rewrite E.
  - intros s t E. unfold attempt. now rewrite E.
  - reflexivity.
  - intros s text E. unfold attempt. now rewrite E.
Qed.

(** C9, as stated, fails: when the first answer is the empty array and
    the five calls after it fail, the budget is spent and no sample that
    is usable in the words of the specification was obtained, yet the
    error raised is [EmptyAggregate] ("No valid suggestions received from
    any trial"), not [NoUsableSamples]. *)
Lemma C9_empty_sample_counterexample :
  let makeTrial := answering [Parsed "[]" []] in
  attempts (collectSamples makeTrial) = maxAttempts
  /\ filter usableBySpec (trials_ (collectSamples makeTrial)) = []
  /\ classifyFile makeTrial (Some "key"%string) = inl EmptyAggregate
  /\ classifyFile makeTrial (Some "key"%string) <> inl NoUsableSamples.
Proof.
  intros makeTrial.
  assert (classifyFile makeTrial (Some "key"%string) = inl EmptyAggregate)
    as E by (vm_compute; reflexivity).
  split; [reflexivity|]. split; [reflexivity|]. split; [exact E|].
  rewrite E. discriminate.
Qed.

(** C9, amended. With the API key set, [classifyFile] raises
    [NoUsableSamples] ("All classification trials failed") if and only if
    no trial was collected, which is the case if and only if each of the
    [maxAttempts] calls of [makeTrial] threw, and then all 6 attempts have
    been made; an oracle that always fails makes it raise after exactly 6
    attempts.  An answer without suggestions is a trial: when trials were
    collected and none of them holds a suggestion the error is
    [EmptyAggregate] instead.  The errors of the individual calls are
    never the error raised: that is [NoUsableSamples] or [EmptyAggregate],
    whatever the oracle threw. *)
Theorem C9_no_usable_samples :
  forall (makeTrial : nat -> Error + TrialResult) (apiKey : option string),
    truthy apiKey = true ->
    (classifyFile makeTrial apiKey = inl NoUsableSamples
     <-> trials_ (collectSamples makeTrial) = [])
    /\ (trials_ (collectSamples makeTrial) = []
        <-> forall i, 1 <= i <= maxAttempts -> exists e, makeTrial i = inl e)
    /\ (trials_ (collectSamples makeTrial) = [] ->
        attempts (collectSamples makeTrial) = maxAttempts)
    /\ (forall e, classifyFile makeTrial apiKey = inl e ->
                  e = NoUsableSamples \/ e = EmptyAggregate)
    /\ (trials_ (collectSamples makeTrial) <> [] ->
        allSuggestions (trials_ (collectSamples makeTrial)) = [] ->
        classifyFile makeTrial apiKey = inl EmptyAggregate).
Proof.
  intros makeTrial apiKey Hkey.
  destruct (collectSamples_collected makeTrial) as (Ht & Ha & Hl & Hn).
  assert (trials_ (collectSamples makeTrial) = [] ->
          attempts (collectSamples makeTrial) = maxAttempts) as Hall.
  { intros E. destruct (collectSamples_exits makeTrial) as [H|H];
      [rewrite E in H; discriminate|assumption]. }
  split; [|split; [|split; [exact Hall|split]]].
  - split.
    + intros H. apply classifyFile_inl in H
        as [[H _]|[(_ & _ & H)|[H _]]]; try discriminate H. exact H.
    + intros E. unfold classifyFile. rewrite Hkey, E. reflexivity.
  - split.
    + intros E i Hi. pose proof (Hall E) as Hsix.
      rewrite E, Hsix in Ht. symmetry in Ht.
      rewrite returned_nil in Ht. apply Ht. now apply In_outcomes.
    + intros H.
      destruct (trials_ (collectSamples makeTrial)) as [|t ts] eqn:E;
        [reflexivity|].
      assert (In t (returned (outcomes makeTrial
                              (attempts (collectSamples makeTrial))))) as Hin
        by (rewrite <- Ht; now left).
      unfold returned in Hin. apply in_flat_map in Hin as (o & Ho & Hto).
      apply outcomes_In in Ho as (i & Hi & ->).
      destruct (H i ltac:(lia)) as [e He]. rewrite He in Hto. contradiction.
  - intros e H. apply classifyFile_inl in H
      as [[_ H]|[[H _]|[H _]]]; [congruence|now left|now right].
  - intros Hne Hnone. unfold classifyFile. rewrite Hkey. cbn [negb].
    destruct (trials_ (collectSamples makeTrial)) as [|t ts] eqn:E;
      [now contradiction Hne|].
    cbn [List.length Nat.eqb].
    rewrite aggregateSuggestions_flat, Hnone. reflexivity.
Qed.

(** Six calls that fail, each in its own way (the request throws, the text
    is not JSON, the JSON is not an array, a path is missing, a confidence
    is 150, a new folder has no name): the six attempts are made and
    [classifyFile] raises [NoUsableSamples]. *)
Lemma C9_no_usable_samples_witness :
  classifyFile (answering rejected) (Some "key"%string) = inl NoUsableSamples
  /\ attempts (collectSamples (answering rejected)) = 6
  /\ map makeTrialOn rejected
     = [ inl (mkError "fetch failed");
         inl (mkError
           "Failed to parse LLM response as JSON: Unexpected token S");
         inl (mkError "Invalid response: expected an array of suggestions");
         inl (mkError "Invalid response: path must be an array");
         inl (mkError
           "Invalid response: confidence must be a number between 0 and 100");
         inl (mkError
           "Invalid response: newFolderName is required when isNewFolder is true") ].
Proof.
  destruct (C9_no_usable_samples (answering rejected) (Some "key"%string)
              eq_refl)
    as (H1 & _ & H3 & _).
  split; [|split].
  - apply H1. reflexivity.
  - apply H3. reflexivity.
  - reflexivity.
Defined.

(** ** Two suggestions under one key *)

Lemma aggregate_two_same_key (s1 s2 : FolderSuggestion) :
  keyOf s1 = keyOf s2 ->
  fold_left aggregateOne [s1; s2] [] = [(keyOf s1, bump (seed s1) s2)].
Proof.
  intros E. cbn [fold_left].
  rewrite (aggregateOne_merge [] s1). cbn [JsMap.get JsMap.set merge].
  rewrite aggregateOne_merge, <- E. cbn [JsMap.get JsMap.set].
  rewrite String.eqb_refl. reflexivity.
Qed.

(** C10. [getPathKey] is not injective: an existing-folder suggestion
    whose path ends with the segment "NEW:" followed by a name, and a
    new-folder suggestion with that name under the remaining prefix, are
    distinct (and both pass [makeTrial]'s validation when their confidence
    is within 0..100) but receive the same key; aggregation then merges
    them into a single candidate whose [path] and [isNewFolder] are those
    of whichever suggestion came first. *)
Theorem C10_key_collision :
  forall (p : list string) (name : string) (c1 c2 : number),
    name <> EmptyString ->
    let s1 := {| path := p ++ [("NEW:" ++ name)%string];
                 newFolderName := None;
                 isNewFolder := false;
                 confidence := c1 |} in
    let s2 := {| path := p;
                 newFolderName := Some name;
                 isNewFolder := true;
                 confidence := c2 |} in
    s1 <> s2
    /\ keyOf s1 = keyOf s2
    /\ ((Num.lit 0 <= c1 <= Num.lit 100)%Qc -> validSuggestion s1 = true)
    /\ ((Num.lit 0 <= c2 <= Num.lit 100)%Qc -> validSuggestion s2 = true)
    /\ aggregateSuggestions [trialOf [s1]; trialOf [s2]]
       = [(keyOf s1,
           {| a_path := p ++ [("NEW:" ++ name)%string];
              a_newFolderName := None;
              a_isNewFolder := false;
              totalConfidence := (c1 + c2)%Qc;
              count := 2 |})]
    /\ aggregateSuggestions [trialOf [s2]; trialOf [s1]]
       = [(keyOf s1,
           {| a_path := p;
              a_newFolderName := Some name;
              a_isNewFolder := true;
              totalConfidence := (c2 + c1)%Qc;
              count := 2 |})].
Proof.
  intros p name c1 c2 Hname s1 s2.
  assert (keyOf s1 = keyOf s2) as Hkey.
  { unfold keyOf, getPathKey, s1, s2. simpl.
    destruct name; [contradiction|reflexivity]. }
  split; [|split; [exact Hkey|split; [|split; [|split]]]].
  - unfold s1, s2. intros E. discriminate E.
  - intros [H0 H100]. unfold validSuggestion, s1. simpl.
    apply leb_le in H0. apply leb_le in H100. now rewrite H0, H100.
  - intros [H0 H100]. unfold validSuggestion, s2. simpl.
    apply leb_le in H0. apply leb_le in H100. rewrite H0, H100.
    destruct name; [contradiction|reflexivity].
  - rewrite aggregateSuggestions_flat.
    change (allSuggestions [trialOf [s1]; trialOf [s2]]) with [s1; s2].
    now rewrite (aggregate_two_same_key s1 s2 Hkey).
  - rewrite aggregateSuggestions_flat.
    change (allSuggestions [trialOf [s2]; trialOf [s1]]) with [s2; s1].
    rewrite (aggregate_two_same_key s2 s1 (eq_sym Hkey)).
    now rewrite Hkey.
Qed.

(** The path ["Work"; "NEW:Taxes"] as an existing folder and the new
    folder "Taxes" under ["Work"]. *)
Lemma C10_key_collision_witness :
  let s1 := {| path := ["Work"; "NEW:Taxes"]%string;
               newFolderName := None;
               isNewFolder := false;
               confidence := Num.lit 40 |} in
  let s2 := {| path := ["Work"%string];
               newFolderName := Some "Taxes"%string;
               isNewFolder := true;
               confidence := Num.lit 60 |} in
  s1 <> s2
  /\ keyOf s1 = keyOf s2
  /\ map (fun entry => (a_path (snd entry), a_isNewFolder (snd entry)))
         (aggregateSuggestions [trialOf [s1]; trialOf [s2]])
     = [(["Work"; "NEW:Taxes"]%string, false)]
  /\ map (fun entry => (a_path (snd entry), a_isNewFolder (snd entry)))
         (aggregateSuggestions [trialOf [s2]; trialOf [s1]])
     = [(["Work"%string], true)].
Proof.
  intros s1 s2.
  assert ("Taxes"%string <> EmptyString) as Hname by discriminate.
  destruct (C10_key_collision ["Work"%string] "Taxes" (Num.lit 40)
              (Num.lit 60) Hname)
    as (Hne & Hkey & _ & _ & H12 & H21).
  split; [exact Hne|]. split; [exact Hkey|].
  split.
  - exact (f_equal (map (fun entry : string * Aggregated =>
                           (a_path (snd entry), a_isNewFolder (snd entry))))
                   H12).
  - exact (f_equal (map (fun entry : string * Aggregated =>
                           (a_path (snd entry), a_isNewFolder (snd entry))))
                   H21).
Defined.

(** ** Occurrence counts *)

(** C7. [aggregateSuggestions] merges suggestion by suggestion: a first
    sighting seeds the entry of the key with the suggestion's confidence
    and count 1, each later suggestion with the key adds its confidence
    and 1 to the count, and other keys are left alone; three trials proposing a candidate at 60 give it total 180 and
    count 3, and it outranks a candidate proposed once at 95.  So the
    count of a key is the number of suggestions that carry it.  That is
    the number of trials that proposed the key only when no trial lists a
    key twice; it is never below it.  On the single trial that lists the
    candidate A twice at 60, the count of A is 2 although one trial
    proposed it.  When the candidate listed twice is a new folder, the
    tests of [classifyFile] that read [count] as a number of trials
    follow the count: the new folder passes for one suggested in several
    trials, and not for one suggested in only one trial. *)
Theorem C7_count_counts_suggestions :
  (forall (trials : list TrialResult) (key : string) (e : Aggregated),
      JsMap.get key (aggregateSuggestions trials) = Some e ->
      count e = List.length (withKey key (allSuggestions trials))
      /\ trialsProposing key trials <= count e
      /\ (distinctWithinTrials trials ->
          count e = trialsProposing key trials))
  /\ (forall aggregated s,
        JsMap.get (keyOf s) (aggregateOne aggregated s)
        = Some match JsMap.get (keyOf s) aggregated with
               | None =>
                   {| a_path := path s;
                      a_newFolderName := newFolderName s;
                      a_isNewFolder := isNewFolder s;
                      totalConfidence := confidence s;
                      count := 1 |}
               | Some existing =>
                   {| a_path := a_path existing;
                      a_newFolderName := a_newFolderName existing;
                      a_isNewFolder := a_isNewFolder existing;
                      totalConfidence :=
                        (totalConfidence existing + confidence s)%Qc;
                      count := count existing + 1 |}
               end)
  /\ (forall aggregated s key,
        keyOf s <> key ->
        JsMap.get key (aggregateOne aggregated s) = JsMap.get key aggregated)
  /\ (let a := existingFolder ["Archive"%string] 60 in
      let b := existingFolder ["Inbox"%string] 95 in
      let three := [trialOf [a]; trialOf [a; b]; trialOf [a]] in
      map (fun entry => (a_path (snd entry),
                         this (totalConfidence (snd entry)),
                         count (snd entry)))
          (aggregateSuggestions three)
      = [(["Archive"%string], 180%Q, 3); (["Inbox"%string], 95%Q, 1)]
      /\ map (@n_path) (rank three)
         = [["Archive"%string]; ["Inbox"%string]])
  /\ (let a := existingFolder ["Archive"%string] 60 in
      let trials := [trialOf [a; a]] in
      option_map (@count) (JsMap.get (keyOf a) (aggregateSuggestions trials))
      = Some 2
      /\ trialsProposing (keyOf a) trials = 1
      /\ List.length trials = 1)
  /\ (let n := newFolder ["Archive"%string] "Taxes" 60 in
      let trials := [trialOf [n; n]] in
      map (@n_count) (rank trials) = [2]
      /\ trialsProposing (keyOf n) trials = 1
      /\ isNewFolderSuggestedMultipleTimes (rank trials) trials = true
      /\ hasNewFolderInSingleTrial (rank trials) = false).
Proof.
  split; [|split; [|split; [|split; [|split]]]].
  - intros trials key e He. rewrite get_aggregateSuggestions in He.
    pose proof (trialsProposing_le key trials) as Hle.
    pose proof (trialsProposing_eq key trials) as Heq.
    destruct (withKey key (allSuggestions trials)) as [|s ss];
      [discriminate|].
    injection He as <-. cbn [count]. split; [reflexivity|].
    split; [exact Hle|]. intros Hd. now apply Heq.
  - intros aggregated s. rewrite get_aggregateOne, String.eqb_refl.
    now destruct (JsMap.get (keyOf s) aggregated).
  - intros aggregated s key Hne. rewrite get_aggregateOne.
    apply String.eqb_neq in Hne. now rewrite Hne.
  - split; vm_compute; reflexivity.
  - repeat split.
  - repeat split; vm_compute; reflexivity.
Qed.

(** ** The new-folder rule *)

Lemma rank_entry (trials : list TrialResult) (n : Normalized) :
  In n (rank trials) ->
  exists key e,
    JsMap.get key (aggregateSuggestions trials) = Some e
    /\ n_count n = count e
    /\ n_isNewFolder n = a_isNewFolder e.
Proof.
  intros Hin. unfold rank in Hin.
  destruct (Qc_eq_dec (grandTotal (aggregateSuggestions trials)) 0) as [E|E].
  - rewrite (normalizeConfidences_zero _ E) in Hin. contradiction.
  - apply (Permutation_in _ (normalizeConfidences_perm _ E)) in Hin.
    apply in_map_iff in Hin as ([key e] & <- & Hin).
    exists key, e. split; [|split; reflexivity].
    apply In_get; [apply NoDup_keys_aggregateSuggestions|assumption].
Qed.

Lemma rank_count_le_trials (trials : list TrialResult) (n : Normalized) :
  distinctWithinTrials trials ->
  In n (rank trials) ->
  n_count n <= List.length trials.
Proof.
  intros Hd Hin. destruct (rank_entry _ _ Hin) as (key & e & He & -> & _).
  rewrite get_aggregateSuggestions in He.
  pose proof (trialsProposing_eq key trials Hd) as Heq.
  pose proof (trialsProposing_bound key trials) as Hb.
  destruct (withKey key (allSuggestions trials)); [discriminate|].
  injection He as <-. simpl in Heq |- *. lia.
Qed.

(** When no trial lists a candidate twice and at most 3 trials were
    collected, a new-folder top choice is dominant only if every trial
    proposed it and its normalised confidence is at least 50, and
    [NewFolderUnverified] is pushed whenever that fails. *)
Theorem new_folder_rule_distinct_trials :
  forall (trials : list TrialResult) (top : Normalized)
         (rest : list Normalized),
    rank trials = top :: rest ->
    distinctWithinTrials trials ->
    List.length trials <= 3 ->
    n_isNewFolder top = true ->
    (isDominant (verdict top rest trials) = true ->
       n_count top = List.length trials
       /\ (Num.lit 50 <= normalizedConfidence top)%Qc)
    /\ (n_count top <> List.length trials
        \/ (normalizedConfidence top < Num.lit 50)%Qc ->
        In NewFolderUnverified (reasons top rest trials)).
Proof.
  intros trials top rest Hrank Hd Hlen Hnew.
  assert (n_count top <= List.length trials) as Hc.
  { apply rank_count_le_trials; [assumption|]. rewrite Hrank. now left. }
  destruct (reviewReasons_spec (top :: rest) trials top rest)
    as (_ & _ & Hunv & _).
  fold (reasons top rest trials) in Hunv.
  split.
  - simpl. unfold dominant. intros H.
    apply andb_true_iff in H as [H _]. apply andb_true_iff in H as [H Hn].
    apply andb_true_iff in H as [Ha _].
    apply absoluteThreshold_spec in Ha. split; [|exact Ha].
    apply negb_true_iff in Hn. unfold newFolderNeedsReview in Hn.
    rewrite Hnew in Hn. simpl in Hn.
    apply orb_false_iff in Hn as [Hn _]. apply orb_false_iff in Hn as [_ Hn].
    apply Nat.ltb_ge in Hn. lia.
  - intros H. apply Hunv. unfold newFolderNeedsReview. rewrite Hnew. simpl.
    destruct H as [H|H].
    + assert ((n_count top <? 3) = true) as -> by (apply Nat.ltb_lt; lia).
      now rewrite orb_true_r.
    + apply ltb_lt in H. rewrite H. now rewrite orb_true_r.
Qed.

Lemma new_folder_rule_distinct_trials_witness :
  let n := newFolder ["Archive"%string] "Taxes" 90 in
  let x := existingFolder ["Inbox"%string] 10 in
  let trials := [trialOf [n]; trialOf [n; x]; trialOf [x]] in
  exists top rest,
    rank trials = top :: rest
    /\ n_count top = 2
    /\ In NewFolderUnverified (reasons top rest trials).
Proof.
  intros n x trials.
  destruct (rank trials) as [|top rest] eqn:E;
    [vm_compute in E; discriminate E|].
  exists top, rest. split; [reflexivity|].
  assert (n_count top = 2) as Hc.
  { assert (map (@n_count) (rank trials) = [2; 2]) as H
      by (vm_compute; reflexivity).
    rewrite E in H. now injection H. }
  assert (n_isNewFolder top = true) as Hnew.
  { assert (map (@n_isNewFolder) (rank trials) = [true; false]) as H
      by (vm_compute; reflexivity).
    rewrite E in H. now injection H. }
  assert (distinctWithinTrials trials) as Hd.
  { repeat constructor; simpl; intuition discriminate. }
  split; [exact Hc|].
  apply (new_folder_rule_distinct_trials trials top rest E Hd
           ltac:(simpl; lia) Hnew).
  left. rewrite Hc. discriminate.
Defined.

(** C2 on trials that repeat a suggestion.  Three trials were collected
    and the new folder "Taxes" was proposed by two of them, twice by the
    first: its count is 3, it is the top choice, and the result is dominant
    with no review reason.  Likewise a single collected trial that lists
    the new folder three times gives it count 3 and a dominant result. *)
Theorem C2_new_folder_repeated_in_one_trial :
  let n := newFolder ["Archive"%string] "Taxes" 90 in
  let x := existingFolder ["Inbox"%string] 10 in
  let trials := [trialOf [n; n]; trialOf [n]; trialOf [x]] in
  let single := [trialOf [n; n; n]] in
  Forall (fun s => validSuggestion s = true) (allSuggestions trials)
  /\ trials_ (collectSamples (returning trials)) = trials
  /\ List.length trials = 3
  /\ trialsProposing (keyOf n) trials = 2
  /\ map (fun r => (keyOfNormalized r, n_isNewFolder r, n_count r))
         (rank trials)
     = [(keyOf n, true, 3); (keyOf x, false, 1)]
  /\ match classifyFile (returning trials) (Some "key"%string) with
     | inr r =>
         c_isNewFolder (topChoice r) = true
         /\ isDominant r = true
         /\ needsReview r = false
         /\ reviewReason r = None
     | inl _ => False
     end
  /\ trials_ (collectSamples (returning single)) = single
  /\ map (fun r => (keyOfNormalized r, n_isNewFolder r, n_count r))
         (rank single)
     = [(keyOf n, true, 3)]
  /\ match classifyFile (returning single) (Some "key"%string) with
     | inr r =>
         c_isNewFolder (topChoice r) = true
         /\ isDominant r = true
         /\ reviewReason r = None
     | inl _ => False
     end.
Proof.
  intros n x trials single.
  split; [repeat constructor|].
  split; [reflexivity|]. split; [reflexivity|]. split; [reflexivity|].
  split; [vm_compute; reflexivity|].
  split; [vm_compute; repeat split; reflexivity|].
  split; [reflexivity|].
  split; [vm_compute; reflexivity|].
  vm_compute. repeat split; reflexivity.
Qed.

(* ================================================================= *)
(** * Further properties of the classifier *)

(** ** What makeTrial accepts *)

Lemma leb_false_ltb (a b : number) : Num.leb a b = false -> Num.ltb b a = true.
Proof. intros H. apply ltb_lt. now apply leb_gt. Qed.

Lemma checkSuggestion_acceptable (r : RawSuggestion) :
  acceptable r = true <-> exists s, checkSuggestion r = inr s.
Proof.
  unfold acceptable, checkSuggestion.
  destruct (raw_path r) as [p|];
    [|split; [discriminate|intros [s H]; discriminate]].
  destruct (raw_confidence r) as [c|];
    [|split; [discriminate|intros [s H]; discriminate]].
  destruct (Num.ltb c (Num.lit 0)) eqn:E0.
  - apply ltb_lt, leb_gt in E0. rewrite E0. simpl.
    split; [discriminate|intros [s H]; discriminate].
  - rewrite (ltb_false_leb _ _ E0).
    destruct (Num.ltb (Num.lit 100) c) eqn:E100.
    + apply ltb_lt, leb_gt in E100. rewrite E100. simpl.
      split; [discriminate|intros [s H]; discriminate].
    + rewrite (ltb_false_leb _ _ E100). simpl.
      destruct (match raw_isNewFolder r with Some b => b | None => false end);
        simpl.
      * destruct (truthy (raw_newFolderName r)); simpl.
        -- split; [intros _; eexists; reflexivity|reflexivity].
        -- split; [discriminate|intros [s H]; discriminate].
      * split; [intros _; eexists; reflexivity|reflexivity].
Qed.

Lemma checkSuggestion_keptAs (r : RawSuggestion) (s : FolderSuggestion) :
  checkSuggestion r = inr s -> keptAs r s.
Proof.
  unfold checkSuggestion, keptAs.
  destruct (raw_path r) as [p|]; [|discriminate].
  destruct (raw_confidence r) as [c|]; [|discriminate].
  destruct (Num.ltb c (Num.lit 0) || Num.ltb (Num.lit 100) c); [discriminate|].
  destruct (match raw_isNewFolder r with Some b => b | None => false end
            && negb (truthy (raw_newFolderName r))); [discriminate|].
  intros [= <-]. simpl. auto.
Qed.

Lemma checkSuggestions_inr (l : list RawSuggestion) (ss : list FolderSuggestion) :
  checkSuggestions l = inr ss -> Forall2 keptAs l ss.
Proof.
  revert ss. induction l as [|r l IH]; intros ss; simpl.
  - intros [= <-]. constructor.
  - destruct (checkSuggestion r) as [e|s] eqn:Er; [discriminate|].
    destruct (checkSuggestions l) as [e|ss'] eqn:El; [discriminate|].
    intros [= <-]. constructor; [now apply checkSuggestion_keptAs|now apply IH].
Qed.

Lemma checkSuggestions_accepts (l : list RawSuggestion) :
  forallb acceptable l = true <-> exists ss, checkSuggestions l = inr ss.
Proof.
  induction l as [|r l IH]; simpl.
  - split; [intros _; now exists []|reflexivity].
  - rewrite andb_true_iff, IH, checkSuggestion_acceptable. split.
    + intros [[s Hs] [ss Hss]]. rewrite Hs, Hss. now exists (s :: ss).
    + intros [ss H]. destruct (checkSuggestion r) as [e|s]; [discriminate|].
      destruct (checkSuggestions l) as [e|ss']; [discriminate|].
      split; eexists; reflexivity.
Qed.

(** X2. [makeTrial] returns a trial for a parsed array exactly when every
    element passes the checks (a path, a confidence within 0..100, a
    non-empty name when [isNewFolder] is true); a single offending element
    rejects the whole response.  A returned trial keeps the raw text and
    one suggestion per element, in order, with the element's path, name
    and confidence and with [isNewFolder] false where it was missing; all
    its suggestions are valid.  An empty array is accepted as a trial
    without suggestions. *)
Theorem X2_makeTrial_validation :
  forall (text : string) (elements : list RawSuggestion),
    ((exists t, makeTrialOn (Parsed text elements) = inr t)
     <-> forallb acceptable elements = true)
    /\ (forall t,
          makeTrialOn (Parsed text elements) = inr t ->
          rawResponse t = text
          /\ Forall2 keptAs elements (suggestions t)
          /\ Forall (fun s => validSuggestion s = true) (suggestions t))
    /\ (forall before r after,
          elements = before ++ r :: after ->
          acceptable r = false ->
          exists e, makeTrialOn (Parsed text elements) = inl e)
    /\ makeTrialOn (Parsed text [])
       = inr {| suggestions := []; rawResponse := text |}.
Proof.
  intros text elements.
  assert ((exists t, makeTrialOn (Parsed text elements) = inr t)
          <-> forallb acceptable elements = true) as Hiff.
  { rewrite checkSuggestions_accepts. simpl. split.
    - intros [t H]. destruct (checkSuggestions elements) as [e|ss];
        [discriminate|]. now exists ss.
    - intros [ss H]. rewrite H. eexists. reflexivity. }
  split; [exact Hiff|split; [|split; [|reflexivity]]].
  - intros t H. split; [|split].
    + simpl in H. destruct (checkSuggestions elements); [discriminate|].
      now injection H as <-.
    + simpl in H. destruct (checkSuggestions elements) as [e|ss] eqn:E;
        [discriminate|].
      injection H as <-. simpl. now apply checkSuggestions_inr.
    + now apply (makeTrialOn_valid (Parsed text elements)).
  - intros before r after -> Hr.
    destruct (makeTrialOn (Parsed text (before ++ r :: after))) as [e|t] eqn:E.
    + now exists e.
    + assert (forallb acceptable (before ++ r :: after) = true) as Hall
        by (apply Hiff; now exists t).
      rewrite forallb_app in Hall. simpl in Hall. rewrite Hr in Hall.
      rewrite andb_false_r in Hall. discriminate.
Qed.


(** ** Aggregation conserves confidence and count *)

Lemma grandTotal_cons (k : string) (e : Aggregated) (m : JsMap.t Aggregated) :
  grandTotal ((k, e) :: m) = (totalConfidence e + grandTotal m)%Qc.
Proof. unfold grandTotal. simpl. apply sum_cons. Qed.

Lemma grandTotal_set (k : string) (v : Aggregated) (m : JsMap.t Aggregated) :
  (grandTotal (JsMap.set k v m)
   + match JsMap.get k m with
     | Some e => totalConfidence e
     | None => 0
     end
   = grandTotal m + totalConfidence v)%Qc.
Proof.
  induction m as [|[k0 e0] m IH]; simpl.
  - rewrite grandTotal_cons, grandTotal_nil. ring.
  - destruct (String.eqb k0 k) eqn:E.
    + rewrite !grandTotal_cons. ring.
    + rewrite !grandTotal_cons. rewrite <- Qcplus_assoc, IH. ring.
Qed.

Lemma Qc_cancel_r (g t x c : Qc) :
  (g + t = x + (t + c))%Qc -> g = (x + c)%Qc.
Proof.
  intros H. transitivity ((g + t) - t)%Qc; [ring|]. rewrite H. ring.
Qed.

Lemma grandTotal_aggregateOne (m : JsMap.t Aggregated) (s : FolderSuggestion) :
  grandTotal (aggregateOne m s) = (grandTotal m + confidence s)%Qc.
Proof.
  rewrite aggregateOne_merge.
  pose proof (grandTotal_set (keyOf s) (merge (JsMap.get (keyOf s) m) s) m) as H.
  destruct (JsMap.get (keyOf s) m) as [e|].
  - simpl in H. now apply Qc_cancel_r in H.
  - rewrite Qcplus_0_r in H. exact H.
Qed.

Lemma grandTotal_fold (l : list FolderSuggestion) (m : JsMap.t Aggregated) :
  grandTotal (fold_left aggregateOne l m)
  = (grandTotal m + sumConfidence l)%Qc.
Proof.
  revert m. induction l as [|s l IH]; intros m; simpl.
  - unfold sumConfidence. simpl. now rewrite sum_nil, Qcplus_0_r.
  - rewrite IH, grandTotal_aggregateOne. unfold sumConfidence. simpl.
    rewrite sum_cons. symmetry. apply Qcplus_assoc.
Qed.

Lemma totalCount_set (k : string) (v : Aggregated) (m : JsMap.t Aggregated) :
  totalCount (JsMap.set k v m)
  + match JsMap.get k m with Some e => count e | None => 0 end
  = totalCount m + count v.
Proof.
  unfold totalCount, JsMap.values.
  induction m as [|[k0 e0] m IH]; simpl.
  - lia.
  - destruct (String.eqb k0 k) eqn:E; simpl; lia.
Qed.

Lemma totalCount_aggregateOne (m : JsMap.t Aggregated) (s : FolderSuggestion) :
  totalCount (aggregateOne m s) = totalCount m + 1.
Proof.
  rewrite aggregateOne_merge.
  pose proof (totalCount_set (keyOf s) (merge (JsMap.get (keyOf s) m) s) m) as H.
  destruct (JsMap.get (keyOf s) m) as [e|];
    unfold merge, bump, seed in *; cbn [count] in *; lia.
Qed.

Lemma totalCount_fold (l : list FolderSuggestion) (m : JsMap.t Aggregated) :
  totalCount (fold_left aggregateOne l m) = totalCount m + List.length l.
Proof.
  revert m. induction l as [|s l IH]; intros m; simpl.
  - lia.
  - rewrite IH, totalCount_aggregateOne. lia.
Qed.

Lemma sum_nonneg (l : list number) :
  Forall (fun x : number => (0 <= x)%Qc) l -> (0 <= Num.sum l)%Qc.
Proof.
  induction 1 as [|x l Hx _ IH].
  - rewrite sum_nil. apply Qcle_refl.
  - rewrite sum_cons.
    replace 0%Qc with (0 + 0)%Qc by ring. now apply Qcplus_le_compat.
Qed.

Lemma sum_zero_nonneg (l : list number) :
  Forall (fun x : number => (0 <= x)%Qc) l ->
  (Num.sum l = 0%Qc <-> Forall (fun x : number => x = 0%Qc) l).
Proof.
  induction 1 as [|x l Hx Hl IH].
  - split; [constructor|reflexivity].
  - rewrite sum_cons. split.
    + intros H. pose proof (sum_nonneg l Hl) as Hs.
      assert (x = 0%Qc) as Ex.
      { apply Qcle_antisym; [|assumption].
        rewrite <- H. rewrite <- (Qcplus_0_r x) at 1.
        apply Qcplus_le_compat; [apply Qcle_refl|assumption]. }
      subst x. rewrite Qcplus_0_l in H. constructor; [reflexivity|].
      now apply IH.
    + intros H. inversion H as [|? ? Ex Hl0]; subst.
      rewrite Qcplus_0_l. now apply IH.
Qed.

Lemma grandTotal_aggregateSuggestions (trials : list TrialResult) :
  grandTotal (aggregateSuggestions trials)
  = sumConfidence (allSuggestions trials).
Proof.
  rewrite aggregateSuggestions_flat, grandTotal_fold, grandTotal_nil.
  apply Qcplus_0_l.
Qed.

(** *** Whole numbers *)

Lemma lit_plus (a b : Z) : Num.lit (a + b) = (Num.lit a + Num.lit b)%Qc.
Proof.
  unfold Num.lit. apply Qc_is_canon. unfold Qcplus. cbn [this Q2Qc].
  rewrite !Qred_correct. rewrite inject_Z_plus. reflexivity.
Qed.

Lemma sum_lit (zs : list Z) :
  Num.sum (map Num.lit zs) = Num.lit (fold_right Z.add 0%Z zs).
Proof.
  induction zs as [|z zs IH]; [reflexivity|].
  cbn [map fold_right]. now rewrite sum_cons, IH, lit_plus.
Qed.

Lemma whole_numbers (l : list number) :
  Forall (fun x : number => exists z : Z, x = Num.lit z) l ->
  exists zs, l = map Num.lit zs.
Proof.
  induction 1 as [|x l [z ->] _ [zs ->]]; [now exists []|].
  now exists (z :: zs).
Qed.

Lemma sum_whole (l : list number) :
  Forall (fun x : number => exists z : Z, x = Num.lit z) l ->
  exists z, Num.sum l = Num.lit z.
Proof.
  intros H. destruct (whole_numbers l H) as [zs ->].
  eexists. apply sum_lit.
Qed.

Lemma whole_totals (trials : list TrialResult) (key : string)
    (e : Aggregated) :
  wholeConfidences trials ->
  JsMap.get key (aggregateSuggestions trials) = Some e ->
  exists z, totalConfidence e = Num.lit z.
Proof.
  intros Hw He. rewrite get_aggregateSuggestions in He.
  assert (Forall (fun s => exists z : Z, confidence s = Num.lit z)
                 (withKey key (allSuggestions trials))) as Hk.
  { apply Forall_forall. intros s Hs. apply filter_In in Hs as [Hs _].
    destruct (proj1 (Forall_forall _ _) Hw s Hs) as (z & _ & Hz).
    now exists z. }
  destruct (withKey key (allSuggestions trials)) as [|s ss];
    [discriminate|].
  injection He as <-. cbn [totalConfidence]. unfold sumConfidence.
  apply sum_whole. apply Forall_map. exact Hk.
Qed.

Lemma whole_listed (trials : list TrialResult) (zs : list Z) :
  Forall (fun z => (0 <= z <= 100)%Z) zs ->
  map confidence (allSuggestions trials) = map Num.lit zs ->
  wholeConfidences trials.
Proof.
  unfold wholeConfidences. generalize (allSuggestions trials) as l.
  intros l Hz. revert l.
  induction Hz as [|z zs Hz _ IH]; intros [|s l] E; try discriminate.
  - constructor.
  - injection E as E1 E2. constructor; [now exists z|now apply IH].
Qed.

(** X3. Aggregation conserves the number of suggestions: the counts of the
    entries of the map add up to the number of suggestions of all trials.
    When the confidences are whole numbers between 0 and 100, the total
    that [normalizeConfidences] computes over the map is the whole number
    that is their sum, and the total of every entry is a whole number.
    (Sums of such numbers are exact in floating point in any grouping;
    for other confidences the grouped sums of the program are rounded and
    nothing is said of them.) *)
Theorem X3_aggregation_conserves :
  forall trials : list TrialResult,
    totalCount (aggregateSuggestions trials)
    = List.length (allSuggestions trials)
    /\ (forall zs : list Z,
          Forall (fun z => (0 <= z <= 100)%Z) zs ->
          map confidence (allSuggestions trials) = map Num.lit zs ->
          grandTotal (aggregateSuggestions trials)
          = Num.lit (fold_right Z.add 0%Z zs)
          /\ forall key e,
               JsMap.get key (aggregateSuggestions trials) = Some e ->
               exists z, totalConfidence e = Num.lit z).
Proof.
  intros trials. split.
  - rewrite aggregateSuggestions_flat, totalCount_fold. reflexivity.
  - intros zs Hr Hzs. split.
    + rewrite grandTotal_aggregateSuggestions. unfold sumConfidence.
      rewrite Hzs. apply sum_lit.
    + intros key e He. apply (whole_totals trials key e); [|exact He].
      exact (whole_listed trials zs Hr Hzs).
Qed.


(** ** The trials that reach the analysis *)

Lemma collected_from_oracle (makeTrial : nat -> Error + TrialResult)
    (t : TrialResult) :
  In t (trials_ (collectSamples makeTrial)) ->
  exists i, 1 <= i <= maxAttempts /\ makeTrial i = inr t.
Proof.
  intros Hin.
  destruct (collectSamples_collected makeTrial) as (Ht & Ha & _ & _).
  rewrite Ht in Hin. unfold returned in Hin.
  apply in_flat_map in Hin as (o & Ho & Hto).
  apply outcomes_In in Ho as (i & Hi & ->).
  exists i. split; [lia|].
  destruct (makeTrial i) as [e|t']; [contradiction|].
  destruct Hto as [->|[]]. reflexivity.
Qed.

Lemma collected_valid (responses : nat -> Response) :
  Forall (fun s => validSuggestion s = true)
         (allSuggestions (trials_ (collectSamples (answeringWith responses)))).
Proof.
  apply Forall_forall. intros s Hs. unfold allSuggestions in Hs.
  apply in_flat_map in Hs as (t & Ht & Hs).
  apply collected_from_oracle in Ht as (i & _ & Hi).
  pose proof (makeTrialOn_valid _ _ Hi) as Hv.
  rewrite Forall_forall in Hv. now apply Hv.
Qed.

Lemma validSuggestion_range (s : FolderSuggestion) :
  validSuggestion s = true ->
  (Num.lit 0 <= confidence s)%Qc /\ (confidence s <= Num.lit 100)%Qc.
Proof.
  unfold validSuggestion. intros H.
  apply andb_true_iff in H as [H _]. apply andb_true_iff in H as [H0 H100].
  split; now apply leb_le.
Qed.

Lemma valid_confidences_nonneg (l : list FolderSuggestion) :
  Forall (fun s => validSuggestion s = true) l ->
  Forall (fun x : number => (0 <= x)%Qc) (map confidence l).
Proof.
  induction 1 as [|s l Hs _ IH]; simpl; constructor; [|assumption].
  now apply validSuggestion_range.
Qed.

Lemma classifyFile_EmptyAggregate (makeTrial : nat -> Error + TrialResult)
    (apiKey : option string) :
  truthy apiKey = true ->
  (classifyFile makeTrial apiKey = inl EmptyAggregate
   <-> trials_ (collectSamples makeTrial) <> []
       /\ grandTotal (aggregateSuggestions (trials_ (collectSamples makeTrial)))
          = 0%Qc).
Proof.
  intros Hkey. rewrite <- normalizeConfidences_nil_iff.
  fold (rank (trials_ (collectSamples makeTrial))). split.
  - intros H. apply classifyFile_inl in H
      as [[H _]|[[H _]|(_ & _ & Hne & H)]]; try discriminate H. now split.
  - intros [Hne H]. unfold classifyFile. rewrite Hkey. simpl.
    destruct (trials_ (collectSamples makeTrial)) as [|t ts] eqn:Et;
      [contradiction|].
    simpl. fold (rank (t :: ts)). now rewrite H.
Qed.

(** X4. With the API key set and an oracle whose responses go through
    [makeTrial]'s validation, [classifyFile] throws "No valid suggestions
    received from any trial" exactly when at least one trial was collected
    and every suggestion of every collected trial has confidence 0 (in
    particular when all collected trials are empty arrays). *)
Theorem X4_no_valid_suggestions :
  forall (responses : nat -> Response) (apiKey : option string),
    truthy apiKey = true ->
    let trials := trials_ (collectSamples (answeringWith responses)) in
    classifyFile (answeringWith responses) apiKey = inl EmptyAggregate
    <-> trials <> []
        /\ Forall (fun s => confidence s = 0%Qc) (allSuggestions trials).
Proof.
  intros responses apiKey Hkey trials. subst trials.
  rewrite (classifyFile_EmptyAggregate _ _ Hkey).
  rewrite grandTotal_aggregateSuggestions. unfold sumConfidence.
  rewrite (sum_zero_nonneg _
             (valid_confidences_nonneg _ (collected_valid responses))).
  rewrite Forall_map. reflexivity.
Qed.

Lemma X4_no_valid_suggestions_witness :
  classifyFile (answeringWith (fun _ => Parsed "[]" [])) (Some "key"%string)
  = inl EmptyAggregate.
Proof.
  apply (proj2 (X4_no_valid_suggestions (fun _ => Parsed "[]" [])
                  (Some "key"%string) eq_refl)).
  split.
  - vm_compute. discriminate.
  - vm_compute. constructor.
Defined.

(** ** The ranking that reaches the result *)

Lemma classifyFile_returns (makeTrial : nat -> Error + TrialResult)
    (apiKey : option string) (r : ClassificationResult) :
  classifyFile makeTrial apiKey = inr r ->
  trials_ (collectSamples makeTrial) <> []
  /\ exists top rest,
       rank (trials_ (collectSamples makeTrial)) = top :: rest
       /\ r = verdict top rest (trials_ (collectSamples makeTrial)).
Proof.
  intros H. split; [|now apply (classifyFile_inr _ apiKey)].
  intros E. unfold classifyFile in H. rewrite E in H.
  destruct (negb (truthy apiKey)); discriminate.
Qed.

Lemma rank_total_nonzero (trials : list TrialResult) :
  rank trials <> [] -> grandTotal (aggregateSuggestions trials) <> 0%Qc.
Proof.
  intros H E. apply H. now apply normalizeConfidences_zero.
Qed.

Lemma descending_head (top : Normalized) (rest : list Normalized) :
  descending (top :: rest) ->
  Forall (fun n => (normalizedConfidence n <= normalizedConfidence top)%Qc) rest
  /\ descending rest.
Proof.
  intros H. apply StronglySorted_inv in H as [Hd Hf]. now split.
Qed.

Lemma choiceDescending_map (l : list Normalized) :
  descending l -> choiceDescending (map toChoice l).
Proof.
  unfold descending, choiceDescending.
  induction 1 as [|n l _ IH Hn]; simpl; constructor; [assumption|].
  rewrite Forall_map. exact Hn.
Qed.

Lemma choice_confidences (l : list Normalized) :
  map c_normalizedConfidence (map toChoice l)
  = map (@normalizedConfidence) l.
Proof. rewrite map_map. now apply map_ext. Qed.

(** X5. Every result [classifyFile] returns keeps the collected trials
    (between 1 and 3 of them) in [rawTrials]; its top choice has the
    greatest normalised confidence, the alternatives follow in descending
    order, and the normalised confidences of the top choice and the
    alternatives sum to exactly 100. *)
Theorem X5_result_ranking :
  forall (makeTrial : nat -> Error + TrialResult) (apiKey : option string)
         (r : ClassificationResult),
    classifyFile makeTrial apiKey = inr r ->
    rawTrials r = trials_ (collectSamples makeTrial)
    /\ 1 <= List.length (rawTrials r) <= 3
    /\ Forall (fun a => (c_normalizedConfidence a
                         <= c_normalizedConfidence (topChoice r))%Qc)
              (alternatives r)
    /\ choiceDescending (alternatives r)
    /\ Num.sum (map c_normalizedConfidence (topChoice r :: alternatives r))
       = Num.lit 100.
Proof.
  intros makeTrial apiKey r H.
  apply classifyFile_returns in H as (Hne & top & rest & Hrank & ->).
  destruct (collectSamples_collected makeTrial) as (_ & _ & Hl & _).
  pose proof (normalizeConfidences_descending
                (aggregateSuggestions (trials_ (collectSamples makeTrial))))
    as Hd.
  fold (rank (trials_ (collectSamples makeTrial))) in Hd.
  rewrite Hrank in Hd. apply descending_head in Hd as [Hle Hd].
  split; [reflexivity|]. split.
  - simpl. destruct (trials_ (collectSamples makeTrial));
      [contradiction|simpl in *; lia].
  - split; [|split].
    + simpl. rewrite Forall_map. exact Hle.
    + simpl. now apply choiceDescending_map.
    + change (topChoice (verdict top rest (trials_ (collectSamples makeTrial)))
              :: alternatives
                   (verdict top rest (trials_ (collectSamples makeTrial))))
        with (map toChoice (top :: rest)).
      rewrite choice_confidences, <- Hrank. apply sum_normalized.
      apply rank_total_nonzero. rewrite Hrank. discriminate.
Qed.

Lemma X5_result_ranking_witness :
  let a := existingFolder ["Archive"%string] 60 in
  let b := existingFolder ["Inbox"%string] 30 in
  let n := newFolder ["Archive"%string] "Taxes" 20 in
  match classifyFile (returning [trialOf [a; b]; trialOf [a; n]])
                     (Some "key"%string) with
  | inr r =>
      List.length (rawTrials r) = 2
      /\ Num.sum (map c_normalizedConfidence (topChoice r :: alternatives r))
         = Num.lit 100
  | inl _ => False
  end.
Proof.
  intros a b n.
  destruct (classifyFile (returning [trialOf [a; b]; trialOf [a; n]])
                         (Some "key"%string)) as [e|r] eqn:E.
  - vm_compute in E. discriminate E.
  - destruct (X5_result_ranking _ _ _ E) as (Hraw & _ & _ & _ & Hsum).
    split; [|exact Hsum]. rewrite Hraw. reflexivity.
Defined.

(** ** Bounds on the normalised confidences *)

Lemma rank_entry_confidence (trials : list TrialResult) (n : Normalized) :
  In n (rank trials) ->
  exists key e,
    JsMap.get key (aggregateSuggestions trials) = Some e
    /\ normalizedConfidence n
       = (totalConfidence e / grandTotal (aggregateSuggestions trials)
          * Num.lit 100)%Qc.
Proof.
  intros Hin. unfold rank in Hin.
  destruct (Qc_eq_dec (grandTotal (aggregateSuggestions trials)) 0) as [E|E].
  - rewrite (normalizeConfidences_zero _ E) in Hin. contradiction.
  - apply (Permutation_in _ (normalizeConfidences_perm _ E)) in Hin.
    apply in_map_iff in Hin as ([key e] & <- & Hin).
    exists key, e. split; [|reflexivity].
    apply In_get; [apply NoDup_keys_aggregateSuggestions|assumption].
Qed.

Lemma sum_filter_le (f : FolderSuggestion -> bool) (l : list FolderSuggestion) :
  Forall (fun x : number => (0 <= x)%Qc) (map confidence l) ->
  (0 <= sumConfidence (filter f l))%Qc
  /\ (sumConfidence (filter f l) <= sumConfidence l)%Qc.
Proof.
  unfold sumConfidence. induction l as [|s l IH]; simpl; intros H.
  - rewrite sum_nil. split; apply Qcle_refl.
  - inversion H as [|? ? Hs Hl]; subst. destruct (IH Hl) as [IH0 IHle].
    rewrite sum_cons. destruct (f s); simpl.
    + rewrite sum_cons. split.
      * replace 0%Qc with (0 + 0)%Qc by ring. now apply Qcplus_le_compat.
      * apply Qcplus_le_compat; [apply Qcle_refl|assumption].
    + split; [assumption|].
      rewrite <- (Qcplus_0_l (Num.sum (map confidence (filter f l)))).
      now apply Qcplus_le_compat.
Qed.

Lemma scaled_times_total (a T c : Qc) :
  T <> 0%Qc -> (a / T * c * T = a * c)%Qc.
Proof.
  intros H. unfold Qcdiv.
  replace (a * / T * c * T)%Qc with (a * c * (/ T * T))%Qc by ring.
  rewrite (Qcmult_inv_l _ H). ring.
Qed.

Lemma scaled_bounds (a T : Qc) :
  (0 <= a)%Qc -> (a <= T)%Qc -> T <> 0%Qc ->
  (0 <= a / T * Num.lit 100)%Qc /\ (a / T * Num.lit 100 <= Num.lit 100)%Qc.
Proof.
  intros Ha HaT HT.
  assert (0 < T)%Qc as Hpos.
  { destruct (Qcle_lt_or_eq 0 T (Qcle_trans _ _ _ Ha HaT)) as [H|H];
      [assumption|]. exfalso. now apply HT. }
  assert (0 <= Num.lit 100)%Qc as H100 by (apply leb_le; reflexivity).
  split; apply (Qcmult_lt_0_le_reg_r _ _ T Hpos);
    rewrite (scaled_times_total _ _ _ HT).
  - rewrite Qcmult_0_l.
    rewrite <- (Qcmult_0_l (Num.lit 100)).
    now apply Qcmult_le_compat_r.
  - rewrite (Qcmult_comm (Num.lit 100) T). now apply Qcmult_le_compat_r.
Qed.

Lemma rank_bounds (trials : list TrialResult) (n : Normalized) :
  Forall (fun s => validSuggestion s = true) (allSuggestions trials) ->
  In n (rank trials) ->
  (0 <= normalizedConfidence n)%Qc
  /\ (normalizedConfidence n <= Num.lit 100)%Qc.
Proof.
  intros Hv Hin.
  assert (grandTotal (aggregateSuggestions trials) <> 0%Qc) as HT.
  { apply rank_total_nonzero. intros E. rewrite E in Hin. contradiction. }
  destruct (rank_entry_confidence _ _ Hin) as (key & e & He & ->).
  rewrite get_aggregateSuggestions in He.
  pose proof (sum_filter_le (fun s => String.eqb (keyOf s) key)
                (allSuggestions trials) (valid_confidences_nonneg _ Hv))
    as [H0 Hle].
  fold (withKey key (allSuggestions trials)) in H0, Hle.
  destruct (withKey key (allSuggestions trials)) as [|s ss];
    [discriminate|].
  injection He as <-. cbn [totalConfidence].
  apply scaled_bounds; try assumption.
  now rewrite grandTotal_aggregateSuggestions.
Qed.

Lemma sum_nonpos (l : list number) :
  Forall (fun x : number => (x <= 0)%Qc) l -> (Num.sum l <= 0)%Qc.
Proof.
  induction 1 as [|x l Hx _ IH].
  - rewrite sum_nil. apply Qcle_refl.
  - rewrite sum_cons.
    replace 0%Qc with (0 + 0)%Qc by ring. now apply Qcplus_le_compat.
Qed.

(** X6. When the responses go through [makeTrial]'s validation, every
    normalised confidence in a result of [classifyFile] lies between 0 and
    100, and that of the top choice is positive. *)
Theorem X6_confidence_bounds :
  forall (responses : nat -> Response) (apiKey : option string)
         (r : ClassificationResult),
    classifyFile (answeringWith responses) apiKey = inr r ->
    Forall (fun c => (0 <= c_normalizedConfidence c)%Qc
                     /\ (c_normalizedConfidence c <= Num.lit 100)%Qc)
           (topChoice r :: alternatives r)
    /\ (0 < c_normalizedConfidence (topChoice r))%Qc.
Proof.
  intros responses apiKey r H.
  pose proof (classifyFile_returns _ _ _ H)
    as (Hne & top & rest & Hrank & ->).
  set (trials := trials_ (collectSamples (answeringWith responses))) in *.
  pose proof (collected_valid responses) as Hv. fold trials in Hv.
  assert (Forall (fun n => (0 <= normalizedConfidence n)%Qc
                           /\ (normalizedConfidence n <= Num.lit 100)%Qc)
                 (top :: rest)) as Hb.
  { apply Forall_forall. intros n Hn. apply (rank_bounds trials n Hv).
    now rewrite Hrank. }
  split.
  - change (topChoice (verdict top rest trials)
            :: alternatives (verdict top rest trials))
      with (map toChoice (top :: rest)).
    rewrite Forall_map. exact Hb.
  - change (c_normalizedConfidence (topChoice (verdict top rest trials)))
      with (normalizedConfidence top).
    apply Qcnot_le_lt. intros Htop.
    pose proof (normalizeConfidences_descending (aggregateSuggestions trials))
      as Hd.
    fold (rank trials) in Hd. rewrite Hrank in Hd.
    apply descending_head in Hd as [Hle _].
    assert (Num.sum (map (@normalizedConfidence) (rank trials)) <= 0)%Qc
      as Hs.
    { apply sum_nonpos. rewrite Forall_map, Hrank. constructor.
      - exact Htop.
      - eapply Forall_impl; [|exact Hle]. intros n Hn. simpl in Hn.
        eapply Qcle_trans; eassumption. }
    unfold rank in Hs. rewrite sum_normalized in Hs.
    + revert Hs. apply Qclt_not_le. apply ltb_lt. reflexivity.
    + apply rank_total_nonzero. rewrite Hrank. discriminate.
Qed.

Lemma X6_confidence_bounds_witness :
  let a := existingFolder ["Archive"%string] 60 in
  let b := existingFolder ["Inbox"%string] 0 in
  let responses := fun i : nat => responseOf [a; b] in
  match classifyFile (answeringWith responses) (Some "key"%string) with
  | inr r => (0 < c_normalizedConfidence (topChoice r))%Qc
  | inl _ => False
  end.
Proof.
  intros a b responses.
  destruct (classifyFile (answeringWith responses) (Some "key"%string))
    as [e|r] eqn:E.
  - vm_compute in E. discriminate E.
  - exact (proj2 (X6_confidence_bounds _ _ _ E)).
Defined.


(** ** One candidate per key, in the order of first sighting *)

Lemma has_existsb (V : Type) (key : string) (m : JsMap.t V) :
  JsMap.has key m = existsb (String.eqb key) (JsMap.keys m).
Proof.
  unfold JsMap.has. induction m as [|[k v] m IH]; simpl; [reflexivity|].
  rewrite (String.eqb_sym key k).
  destruct (String.eqb k key); [reflexivity|exact IH].
Qed.

Lemma keys_fold_aggregateOne (l : list FolderSuggestion) (m : JsMap.t Aggregated) :
  JsMap.keys (fold_left aggregateOne l m)
  = fold_left
      (fun seen k => if existsb (String.eqb k) seen then seen else seen ++ [k])
      (map keyOf l) (JsMap.keys m).
Proof.
  revert m. induction l as [|s l IH]; intros m; simpl; [reflexivity|].
  rewrite IH, aggregateOne_merge, keys_set, has_existsb. reflexivity.
Qed.

Lemma keys_aggregateSuggestions (trials : list TrialResult) :
  JsMap.keys (aggregateSuggestions trials)
  = firstSightings (map keyOf (allSuggestions trials)).
Proof.
  rewrite aggregateSuggestions_flat. apply keys_fold_aggregateOne.
Qed.

Lemma In_keys_aggregateSuggestions (trials : list TrialResult) (key : string) :
  In key (JsMap.keys (aggregateSuggestions trials))
  <-> In key (map keyOf (allSuggestions trials)).
Proof.
  pose proof (get_aggregateSuggestions key trials) as Hget.
  pose proof (get_None _ key (aggregateSuggestions trials)) as Hnone.
  split.
  - intros Hin.
    destruct (withKey key (allSuggestions trials)) as [|s ss] eqn:E.
    + exfalso. now apply Hnone.
    + assert (In s (withKey key (allSuggestions trials))) as Hs
        by (rewrite E; now left).
      apply filter_In in Hs as [Hs Hk]. apply String.eqb_eq in Hk.
      rewrite <- Hk. now apply in_map.
  - intros Hin. apply in_map_iff in Hin as (s & Hk & Hs).
    destruct (in_dec string_dec key (JsMap.keys (aggregateSuggestions trials)))
      as [H|H]; [assumption|].
    apply Hnone in H. rewrite H in Hget.
    assert (In s (withKey key (allSuggestions trials))) as Hw.
    { apply filter_In. split; [assumption|]. now apply String.eqb_eq. }
    destruct (withKey key (allSuggestions trials)); [contradiction|discriminate].
Qed.

Lemma tiedAt_sortInsert (v : number) (x : Normalized) (l : list Normalized) :
  tiedAt v (sortInsert byConfidenceDesc x l) = tiedAt v (x :: l).
Proof.
  induction l as [|y l IH]; [reflexivity|]. simpl sortInsert.
  destruct (Num.leb (byConfidenceDesc x y) (Num.lit 0)) eqn:E; [reflexivity|].
  assert (normalizedConfidence x < normalizedConfidence y)%Qc as Hlt.
  { apply leb_gt in E. unfold byConfidenceDesc in E.
    change (Num.lit 0) with 0%Qc in E. now apply Qclt_minus_iff. }
  unfold tiedAt in *. simpl filter at 1. rewrite IH. simpl.
  destruct (Num.eqb (normalizedConfidence y) v) eqn:Ey;
    destruct (Num.eqb (normalizedConfidence x) v) eqn:Ex; try reflexivity.
  apply eqb_eq in Ey. apply eqb_eq in Ex. rewrite Ex, Ey in Hlt.
  exfalso. revert Hlt. apply Qcle_not_lt. apply Qcle_refl.
Qed.

Lemma tiedAt_sort (v : number) (l : list Normalized) :
  tiedAt v (sort byConfidenceDesc l) = tiedAt v l.
Proof.
  induction l as [|x l IH]; [reflexivity|]. simpl sort.
  rewrite tiedAt_sortInsert. unfold tiedAt in *. simpl. now rewrite IH.
Qed.

Lemma keys_beforeSort (trials : list TrialResult) :
  map keyOfNormalized (beforeSort trials)
  = JsMap.keys (aggregateSuggestions trials).
Proof.
  unfold beforeSort, JsMap.entries, JsMap.keys. rewrite map_map.
  apply map_ext_in. intros [key e] Hin.
  pose proof (keyed_aggregateSuggestions trials) as Hk.
  rewrite Forall_forall in Hk. exact (Hk _ Hin).
Qed.

Lemma rank_beforeSort (trials : list TrialResult) :
  rank trials <> [] ->
  rank trials = sort byConfidenceDesc (beforeSort trials).
Proof.
  intros Hne. apply rank_total_nonzero in Hne.
  unfold rank. now rewrite (normalizeConfidences_nonzero _ Hne).
Qed.

(** X7. The ranking has one candidate per distinct key: the keys of the
    aggregation map are the distinct keys of the suggestions in the order
    of their first sighting, and so are the candidates of the array that
    is sorted.  A non-empty ranking is a rearrangement of that array, so
    it lists each key once, and the sort does not move candidates of equal
    normalised confidence past one another: they appear in the ranking in
    the order in which their keys were first sighted. *)
Theorem X7_ranking_keys :
  forall trials : list TrialResult,
    JsMap.keys (aggregateSuggestions trials)
    = firstSightings (map keyOf (allSuggestions trials))
    /\ NoDup (firstSightings (map keyOf (allSuggestions trials)))
    /\ (forall key,
          In key (firstSightings (map keyOf (allSuggestions trials)))
          <-> In key (map keyOf (allSuggestions trials)))
    /\ map keyOfNormalized (beforeSort trials)
       = firstSightings (map keyOf (allSuggestions trials))
    /\ (rank trials <> [] ->
        Permutation (rank trials) (beforeSort trials)
        /\ Permutation (map keyOfNormalized (rank trials))
                       (firstSightings (map keyOf (allSuggestions trials)))
        /\ (forall v, tiedAt v (rank trials) = tiedAt v (beforeSort trials))).
Proof.
  intros trials.
  pose proof (keys_aggregateSuggestions trials) as Hkeys.
  pose proof (keys_beforeSort trials) as Hbefore. rewrite Hkeys in Hbefore.
  split; [exact Hkeys|]. rewrite <- Hkeys.
  split; [apply NoDup_keys_aggregateSuggestions|].
  split; [intros key; apply In_keys_aggregateSuggestions|].
  rewrite Hkeys. split; [exact Hbefore|].
  intros Hne. rewrite (rank_beforeSort _ Hne).
  split; [apply sort_perm|]. split.
  - rewrite <- Hbefore. apply Permutation_map, sort_perm.
  - intros v. apply tiedAt_sort.
Qed.


(** ** The new-folder rule without its first test *)

Lemma newFolderNeedsReview_simpl (top : Normalized) (rest : list Normalized)
    (trials : list TrialResult) :
  newFolderNeedsReview (top :: rest) trials top
  = n_isNewFolder top
    && ((n_count top <? 3)
        || Num.ltb (normalizedConfidence top) (Num.lit 50)).
Proof.
  unfold newFolderNeedsReview.
  destruct (n_isNewFolder top) eqn:Enew; [|reflexivity]. cbn [andb].
  destruct (n_count top <? 3) eqn:Ec.
  - now rewrite orb_true_r.
  - apply Nat.ltb_ge in Ec.
    unfold newFolderSuggestedMultipleTimes, isNewFolderSuggestedMultipleTimes.
    cbn [filter]. rewrite Enew. cbn [List.length Nat.eqb existsb].
    assert ((2 <=? n_count top) = true) as -> by (apply Nat.leb_le; lia).
    reflexivity.
Qed.

(** X8. In [classifyFile] the test [!newFolderSuggestedMultipleTimes]
    never decides: a new-folder top choice needs review exactly when its
    count is below 3 or its normalised confidence is below 50, because a
    top choice with count 3 or more is itself a new folder suggested
    several times. *)
Theorem X8_multiple_times_is_redundant :
  forall (top : Normalized) (rest : list Normalized)
         (trials : list TrialResult),
    newFolderNeedsReview (top :: rest) trials top
    = n_isNewFolder top
      && ((n_count top <? 3)
          || Num.ltb (normalizedConfidence top) (Num.lit 50)).
Proof. intros top rest trials. apply newFolderNeedsReview_simpl. Qed.

(** ** A single candidate *)

Lemma firstSightings_step (seen : list string) (key : string) (l : list string) :
  In key seen ->
  Forall (fun k => k = key) l ->
  fold_left
    (fun seen k => if existsb (String.eqb k) seen then seen else seen ++ [k])
    l seen = seen.
Proof.
  intros Hin. induction 1 as [|k l -> _ IH]; simpl; [reflexivity|].
  assert (existsb (String.eqb key) seen = true) as ->.
  { apply existsb_exists. exists key. split; [assumption|].
    apply String.eqb_refl. }
  exact IH.
Qed.

Lemma firstSightings_same (key : string) (l : list string) :
  l <> [] -> Forall (fun k => k = key) l -> firstSightings l = [key].
Proof.
  intros Hne H. destruct H as [|k l -> Hl]; [contradiction|].
  unfold firstSightings. simpl.
  apply (firstSightings_step [key] key); [now left|assumption].
Qed.

Lemma withKey_all (key : string) (l : list FolderSuggestion) :
  Forall (fun s => keyOf s = key) l -> withKey key l = l.
Proof.
  induction 1 as [|s l Hs _ IH]; simpl; [reflexivity|].
  rewrite Hs, String.eqb_refl. now rewrite IH.
Qed.

Lemma Qc_whole (T : Qc) : T <> 0%Qc -> (T / T * Num.lit 100)%Qc = Num.lit 100.
Proof.
  intros H. unfold Qcdiv. rewrite (Qcmult_inv_r _ H). apply Qcmult_1_l.
Qed.

(** X9. When every suggestion of the collected trials carries the same key
    and their confidences do not sum to 0, the ranking is that one
    candidate with normalised confidence 100 and a count equal to the
    number of suggestions; there are no alternatives, neither "low
    absolute confidence" nor "close alternatives" is pushed, and the
    verdict is dominant unless the candidate is a new folder with a count
    below 3. *)
Theorem X9_single_candidate :
  forall (trials : list TrialResult) (key : string),
    allSuggestions trials <> [] ->
    Forall (fun s => keyOf s = key) (allSuggestions trials) ->
    sumConfidence (allSuggestions trials) <> 0%Qc ->
    exists top,
      rank trials = [top]
      /\ keyOfNormalized top = key
      /\ normalizedConfidence top = Num.lit 100
      /\ n_count top = List.length (allSuggestions trials)
      /\ ~ In LowAbsoluteConfidence (reasons top [] trials)
      /\ ~ In CloseAlternatives (reasons top [] trials)
      /\ isDominant (verdict top [] trials)
         = negb (n_isNewFolder top) || (3 <=? n_count top).
Proof.
  intros trials key Hne Hall Hsum.
  pose proof (keys_aggregateSuggestions trials) as Hkeys.
  rewrite (firstSightings_same key) in Hkeys;
    [|intros E; apply map_eq_nil in E; contradiction
     |rewrite Forall_map; exact Hall].
  pose proof (get_aggregateSuggestions key trials) as Hget.
  rewrite (withKey_all key _ Hall) in Hget.
  pose proof (grandTotal_aggregateSuggestions trials) as Htotal.
  destruct (allSuggestions trials) as [|s ss] eqn:Eall; [contradiction|].
  destruct (aggregateSuggestions trials) as [|[k e] [|entry m]] eqn:Eagg;
    try discriminate Hkeys.
  injection Hkeys as ->. simpl in Hget. rewrite String.eqb_refl in Hget.
  injection Hget as ->.
  assert (rank trials
          = [normalizeItem (sumConfidence (s :: ss))
               (key, {| a_path := path s;
                        a_newFolderName := newFolderName s;
                        a_isNewFolder := isNewFolder s;
                        totalConfidence := sumConfidence (s :: ss);
                        count := List.length (s :: ss) |})]) as Hrank.
  { unfold rank. rewrite Eagg.
    rewrite normalizeConfidences_nonzero by (rewrite Htotal; exact Hsum).
    rewrite Htotal. reflexivity. }
  eexists. split; [exact Hrank|].
  assert (keyOf s = key) as Hs by (inversion Hall; assumption).
  split; [exact Hs|]. split; [cbn; now apply Qc_whole|].
  split; [reflexivity|].
  set (top := normalizeItem _ _).
  assert (normalizedConfidence top = Num.lit 100) as Hnc
    by (cbn; now apply Qc_whole).
  clearbody top.
  assert (absoluteThreshold top = true) as Ha.
  { apply absoluteThreshold_spec. rewrite Hnc. apply leb_le. reflexivity. }
  destruct (reviewReasons_spec [top] trials top []) as (Hlow & Hclose & _ & _).
  fold (reasons top [] trials) in Hlow, Hclose.
  split; [rewrite Hlow, Ha; discriminate|].
  split; [rewrite Hclose; discriminate|].
  cbn [verdict buildResult isDominant]. unfold dominant.
  rewrite Ha, newFolderNeedsReview_simpl. cbn [relativeDominance].
  unfold hasNewFolderInSingleTrial. cbn [existsb].
  assert (Num.ltb (normalizedConfidence top) (Num.lit 50) = false) as ->
    by (rewrite Hnc; reflexivity).
  cbn [List.length Nat.eqb orb andb negb].
  destruct (n_isNewFolder top); [|reflexivity].
  destruct (n_count top) as [|[|[|c]]]; reflexivity.
Qed.

Lemma X9_single_candidate_witness :
  let a := existingFolder ["Archive"%string] 60 in
  let trials := [trialOf [a]; trialOf [a]] in
  exists top,
    rank trials = [top]
    /\ normalizedConfidence top = Num.lit 100
    /\ n_count top = 2.
Proof.
  intros a trials.
  assert (allSuggestions trials <> []) as H1 by discriminate.
  assert (Forall (fun s => keyOf s = keyOf a) (allSuggestions trials)) as H2
    by (repeat constructor).
  assert (sumConfidence (allSuggestions trials) <> 0%Qc) as H3
    by (apply eqb_neq; vm_compute; reflexivity).
  destruct (X9_single_candidate trials (keyOf a) H1 H2 H3)
    as (top & Hrank & _ & Hnc & Hcount & _).
  exists top. split; [exact Hrank|]. split; [exact Hnc|exact Hcount].
Defined.


(** ** JSON.stringify is injective on arrays of strings *)

Lemma string_app_assoc (a b c : string) :
  ((a ++ b) ++ c = a ++ (b ++ c))%string.
Proof. induction a as [|x a IH]; simpl; [reflexivity|now rewrite IH]. Qed.

Lemma unquoteBody_quoteChar (c : ascii) (rest : string) :
  unquoteBody (Json.quoteChar c ++ rest) = prepend c (unquoteBody rest).
Proof.
  destruct c as [[] [] [] [] [] [] [] []]; reflexivity.
Qed.

Lemma unquoteBody_quoteBody (s rest : string) :
  unquoteBody (Json.quoteBody s ++ String Json.dquote rest) = Some (s, rest).
Proof.
  induction s as [|c s IH]; simpl.
  - reflexivity.
  - rewrite string_app_assoc, unquoteBody_quoteChar, IH. reflexivity.
Qed.

Lemma quote_app (s rest : string) :
  (Json.quote s ++ rest
   = String Json.dquote (Json.quoteBody s ++ String Json.dquote rest))%string.
Proof.
  unfold Json.quote. simpl. now rewrite string_app_assoc.
Qed.

Lemma quote_prefix (s1 s2 r1 r2 : string) :
  (Json.quote s1 ++ r1 = Json.quote s2 ++ r2)%string -> s1 = s2 /\ r1 = r2.
Proof.
  rewrite !quote_app. intros [= H].
  apply (f_equal unquoteBody) in H. rewrite !unquoteBody_quoteBody in H.
  injection H as -> ->. now split.
Qed.

Lemma arrayTail_cons (x : string) (a : list string) :
  arrayTail (x :: a)
  = (Json.quote x
     ++ match a with
        | [] => "]"
        | _ :: _ => String "," (arrayTail a)
        end)%string.
Proof.
  unfold arrayTail. destruct a as [|y a]; [reflexivity|].
  cbn [map Json.join]. rewrite !string_app_assoc. reflexivity.
Qed.

Lemma arrayTail_inj (a1 a2 : list string) :
  arrayTail a1 = arrayTail a2 -> a1 = a2.
Proof.
  revert a2. induction a1 as [|x1 a1 IH]; intros [|x2 a2] H.
  - reflexivity.
  - rewrite arrayTail_cons, quote_app in H. discriminate H.
  - rewrite arrayTail_cons, quote_app in H. discriminate H.
  - rewrite !arrayTail_cons in H. apply quote_prefix in H as [-> H].
    f_equal. destruct a1 as [|y1 a1], a2 as [|y2 a2]; try discriminate H.
    + reflexivity.
    + injection H as H. now apply IH.
Qed.

Lemma stringify_inj (a1 a2 : list string) :
  Json.stringify a1 = Json.stringify a2 -> a1 = a2.
Proof.
  unfold Json.stringify. intros H. apply arrayTail_inj.
  unfold arrayTail. simpl in H. now injection H.
Qed.

Lemma keyOf_keyArray (s : FolderSuggestion) :
  keyOf s = Json.stringify (keyArray s).
Proof.
  unfold keyOf, getPathKey, keyArray.
  now destruct (isNewFolder s && truthy (newFolderName s)).
Qed.

Lemma string_app_inj_l (p a b : string) :
  (p ++ a = p ++ b)%string -> a = b.
Proof.
  induction p as [|c p IH]; simpl; [auto|]. intros [= H]. now apply IH.
Qed.

(** X10. Two suggestions receive the same key exactly when [getPathKey]
    stringifies the same array for them, since [JSON.stringify] is
    injective on arrays of strings.  Hence two existing-folder suggestions
    are merged exactly when their paths are equal (["a,b"] and ["a", "b"]
    are kept apart), and two new-folder suggestions with a name exactly
    when their paths and names are equal; an existing-folder and a
    new-folder suggestion are merged exactly when the former's path is the
    latter's path followed by "NEW:" and its name. *)
Theorem X10_key_injective :
  forall s1 s2 : FolderSuggestion,
    (keyOf s1 = keyOf s2 <-> keyArray s1 = keyArray s2)
    /\ (isNewFolder s1 = false -> isNewFolder s2 = false ->
        (keyOf s1 = keyOf s2 <-> path s1 = path s2))
    /\ (forall n1 n2,
          isNewFolder s1 = true -> isNewFolder s2 = true ->
          newFolderName s1 = Some n1 -> newFolderName s2 = Some n2 ->
          n1 <> EmptyString -> n2 <> EmptyString ->
          (keyOf s1 = keyOf s2 <-> path s1 = path s2 /\ n1 = n2))
    /\ (forall n2,
          isNewFolder s1 = false -> isNewFolder s2 = true ->
          newFolderName s2 = Some n2 -> n2 <> EmptyString ->
          (keyOf s1 = keyOf s2
           <-> path s1 = path s2 ++ [("NEW:" ++ n2)%string])).
Proof.
  intros s1 s2.
  assert (keyOf s1 = keyOf s2 <-> keyArray s1 = keyArray s2) as Hiff.
  { rewrite !keyOf_keyArray. split; [apply stringify_inj|congruence]. }
  split; [exact Hiff|split; [|split]].
  - intros H1 H2. rewrite Hiff. unfold keyArray. rewrite H1, H2. reflexivity.
  - intros n1 n2 H1 H2 E1 E2 Hn1 Hn2. rewrite Hiff. unfold keyArray.
    rewrite H1, H2, E1, E2.
    destruct n1 as [|c1 n1]; [contradiction|].
    destruct n2 as [|c2 n2]; [contradiction|]. cbn [truthy andb interpolate].
    split.
    + intros H. apply app_inj_tail in H as [Hp Hn]. split; [assumption|].
      now apply (string_app_inj_l "NEW:").
    + intros [-> ->]. reflexivity.
  - intros n2 H1 H2 E2 Hn2. rewrite Hiff. unfold keyArray.
    rewrite H1, H2, E2.
    destruct n2 as [|c2 n2]; [contradiction|]. reflexivity.
Qed.

(* ================================================================= *)
(** * The folder hierarchy *)

(** ** Own properties *)

Lemma get_insertIndex_same (n : N) (key : string) (v : Hierarchy)
    (l : list (string * Hierarchy)) :
  JsMap.get key l = None -> JsMap.get key (insertIndex n key v l) = Some v.
Proof.
  induction l as [|[k w] l IH]; simpl.
  - intros _. now rewrite String.eqb_refl.
  - destruct (String.eqb k key) eqn:E; [discriminate|]. intros H.
    destruct (arrayIndex k) as [m|]; simpl.
    + destruct (m <? n)%N; simpl.
      * rewrite E. now apply IH.
      * now rewrite String.eqb_refl.
    + now rewrite String.eqb_refl.
Qed.

Lemma get_insertIndex_other (n : N) (key k : string) (v : Hierarchy)
    (l : list (string * Hierarchy)) :
  key <> k -> JsMap.get k (insertIndex n key v l) = JsMap.get k l.
Proof.
  intros Hne. apply String.eqb_neq in Hne.
  induction l as [|[k0 w] l IH]; simpl.
  - now rewrite Hne.
  - destruct (arrayIndex k0) as [m|]; simpl.
    + destruct (m <? n)%N; simpl.
      * now rewrite IH.
      * now rewrite Hne.
    + now rewrite Hne.
Qed.

Lemma insertIndex_perm (n : N) (key : string) (v : Hierarchy)
    (l : list (string * Hierarchy)) :
  Permutation (insertIndex n key v l) ((key, v) :: l).
Proof.
  induction l as [|[k w] l IH]; simpl; [reflexivity|].
  destruct (arrayIndex k) as [m|]; [|reflexivity].
  destruct (m <? n)%N; [|reflexivity].
  rewrite IH. apply perm_swap.
Qed.

Lemma set_insertIndex (n : N) (key : string) (v w : Hierarchy)
    (l : list (string * Hierarchy)) :
  JsMap.get key l = None ->
  JsMap.set key v (insertIndex n key w l) = insertIndex n key v l.
Proof.
  induction l as [|[k x] l IH]; simpl.
  - intros _. now rewrite String.eqb_refl.
  - destruct (String.eqb k key) eqn:E; [discriminate|]. intros H.
    destruct (arrayIndex k) as [m|]; simpl.
    + destruct (m <? n)%N; simpl.
      * rewrite E. now rewrite IH.
      * now rewrite String.eqb_refl.
    + now rewrite String.eqb_refl.
Qed.

Lemma set_app_fresh (key : string) (v w : Hierarchy)
    (l : list (string * Hierarchy)) :
  JsMap.get key l = None ->
  JsMap.set key v (l ++ [(key, w)]) = l ++ [(key, v)].
Proof.
  induction l as [|[k x] l IH]; simpl.
  - intros _. now rewrite String.eqb_refl.
  - destruct (String.eqb k key) eqn:E; [discriminate|]. intros H.
    now rewrite IH.
Qed.

Lemma set_same (V : Type) (key : string) (v : V) (m : JsMap.t V) :
  JsMap.get key m = Some v -> JsMap.set key v m = m.
Proof.
  induction m as [|[k w] m IH]; simpl; [discriminate|].
  destruct (String.eqb k key) eqn:E.
  - now intros [= ->].
  - intros H. now rewrite IH.
Qed.

Lemma set_set (V : Type) (key : string) (v w : V) (m : JsMap.t V) :
  JsMap.set key v (JsMap.set key w m) = JsMap.set key v m.
Proof.
  induction m as [|[k x] m IH]; simpl.
  - now rewrite String.eqb_refl.
  - destruct (String.eqb k key) eqn:E; simpl; rewrite E;
      [reflexivity|now rewrite IH].
Qed.

Lemma hasOwn_true (key : string) (h : Hierarchy) :
  hasOwn key h = true <-> exists child, ownGet key h = Some child.
Proof.
  unfold hasOwn. destruct (ownGet key h) as [c|].
  - split; [now exists c|reflexivity].
  - split; [discriminate|intros [c H]; discriminate].
Qed.

Lemma hasOwn_false (key : string) (h : Hierarchy) :
  hasOwn key h = false <-> ownGet key h = None.
Proof.
  unfold hasOwn. destruct (ownGet key h); split; intros H;
    try reflexivity; discriminate.
Qed.

Lemma ownGet_ownSet_same (key : string) (v h : Hierarchy) :
  ownGet key (ownSet key v h) = Some v.
Proof.
  unfold ownSet. destruct (hasOwn key h) eqn:E.
  - apply get_set_same.
  - apply hasOwn_false in E. unfold ownGet in *.
    destruct (arrayIndex key) as [n|]; simpl.
    + now apply get_insertIndex_same.
    + rewrite get_app, E. simpl. now rewrite String.eqb_refl.
Qed.

Lemma ownGet_ownSet_other (key k : string) (v h : Hierarchy) :
  key <> k -> ownGet k (ownSet key v h) = ownGet k h.
Proof.
  intros Hne. unfold ownSet, ownGet. destruct (hasOwn key h) eqn:E; simpl.
  - now apply get_set_other.
  - destruct (arrayIndex key) as [n|]; simpl.
    + now apply get_insertIndex_other.
    + rewrite get_app. simpl. apply String.eqb_neq in Hne. rewrite Hne.
      now destruct (JsMap.get k (childrenOf h)).
Qed.

Lemma ownSet_ownSet (key : string) (v w h : Hierarchy) :
  ownSet key v (ownSet key w h) = ownSet key v h.
Proof.
  assert (hasOwn key (ownSet key w h) = true) as Hhas
    by (apply hasOwn_true; exists w; apply ownGet_ownSet_same).
  unfold ownSet at 1. rewrite Hhas. unfold ownSet.
  destruct (hasOwn key h) eqn:E; simpl.
  - now rewrite set_set.
  - apply hasOwn_false in E. unfold ownGet in E.
    destruct (arrayIndex key) as [n|]; simpl.
    + now rewrite set_insertIndex.
    + now rewrite set_app_fresh.
Qed.

Lemma ownSet_same (key : string) (v h : Hierarchy) :
  ownGet key h = Some v -> ownSet key v h = h.
Proof.
  intros H. unfold ownSet.
  assert (hasOwn key h = true) as -> by (apply hasOwn_true; now exists v).
  unfold ownGet in H. rewrite (set_same _ _ _ _ H). now destruct h.
Qed.

(** ** Walking a path *)

Lemma pathExists_answer (h : Hierarchy) (p : list string) :
  pathExists h p = answer (walk p h).
Proof. destruct p; reflexivity. Qed.

Lemma walk_app (p q : list string) (h : Hierarchy) :
  walk (p ++ q) h
  = match walk p h with
    | Reached h' => walk q h'
    | ReachedBuiltin =>
        match q with [] => ReachedBuiltin | _ :: _ => Outside end
    | Missing => Missing
    | Outside => Outside
    end.
Proof.
  revert h. induction p as [|f rest IH]; intros h; simpl.
  - reflexivity.
  - destruct (ownGet f h) as [child|]; [apply IH|].
    destruct (inherited f); [|reflexivity].
    destruct rest as [|g rest]; simpl; [|reflexivity].
    now destruct q.
Qed.

Lemma walk_plain (p : list string) (h : Hierarchy) :
  plain p -> (exists h', walk p h = Reached h') \/ walk p h = Missing.
Proof.
  intros Hp. revert h. induction Hp as [|f rest Hf _ IH]; intros h; simpl.
  - left. now exists h.
  - destruct (ownGet f h) as [child|]; [apply IH|].
    rewrite Hf. now right.
Qed.

Lemma walk_ownSet_head (key : string) (rest : list string)
    (child h : Hierarchy) :
  walk (key :: rest) (ownSet key child h) = walk rest child.
Proof. simpl. now rewrite ownGet_ownSet_same. Qed.

Lemma walk_ownSet_other (key f : string) (rest : list string)
    (child h : Hierarchy) :
  key <> f ->
  walk (f :: rest) (ownSet key child h) = walk (f :: rest) h.
Proof. intros Hne. simpl. now rewrite ownGet_ownSet_other. Qed.

(** X11. [pathExists]: the empty path exists in every hierarchy; every
    initial segment of an existing path exists, and no extension of a
    missing path exists; a path without [Object.prototype] names always
    gets an answer.  Because the test is [folder in current], a path that
    ends with a name every object inherits ("constructor", "toString",
    ...) is reported to exist although the hierarchy holds no such
    folder. *)
Theorem X11_pathExists :
  forall h : Hierarchy,
    pathExists h [] = Some true
    /\ (forall p q,
          pathExists h (p ++ q) = Some true -> pathExists h p = Some true)
    /\ (forall p q,
          pathExists h p = Some false -> pathExists h (p ++ q) = Some false)
    /\ (forall p, plain p -> pathExists h p <> None)
    /\ (forall p parent key,
          walk p h = Reached parent ->
          inherited key = true ->
          hasOwn key parent = false ->
          pathExists h (p ++ [key]) = Some true).
Proof.
  intros h. split; [reflexivity|]. split; [|split; [|split]].
  - intros p q. rewrite !pathExists_answer, walk_app.
    destruct (walk p h); try reflexivity; try discriminate.
  - intros p q. rewrite !pathExists_answer, walk_app.
    destruct (walk p h); try reflexivity; discriminate.
  - intros p Hp. rewrite pathExists_answer.
    destruct (walk_plain p h Hp) as [[h' ->]| ->]; discriminate.
  - intros p parent key Hw Hk Hown.
    rewrite pathExists_answer, walk_app, Hw. simpl.
    apply hasOwn_false in Hown. now rewrite Hown, Hk.
Qed.


(** ** Counting folders *)

Lemma fold_add_init (l : list nat) (a : nat) :
  fold_left Nat.add l a = a + list_sum l.
Proof.
  revert a. induction l as [|x l IH]; intros a; simpl; [lia|].
  rewrite IH. lia.
Qed.

Lemma countDescendants_unfold (l : list (string * Hierarchy)) :
  countDescendants (Folders l) = List.length l + below l.
Proof. simpl. apply fold_add_init. Qed.

Lemma below_perm (l l' : list (string * Hierarchy)) :
  Permutation l l' -> below l = below l'.
Proof.
  unfold below.
  induction 1 as [|x l l' _ IH|x y l|l1 l2 l3 _ IH1 _ IH2]; simpl; lia.
Qed.

Lemma below_set (key : string) (v : Hierarchy) (l : list (string * Hierarchy)) :
  forall c, JsMap.get key l = Some c ->
  below (JsMap.set key v l) + countDescendants c
  = below l + countDescendants v
  /\ List.length (JsMap.set key v l) = List.length l.
Proof.
  unfold below. induction l as [|[k w] l IH]; simpl; [discriminate|].
  intros c. destruct (String.eqb k key) eqn:E.
  - intros [= ->]. simpl. lia.
  - intros H. destruct (IH c H) as [IH1 IH2]. simpl. lia.
Qed.

Lemma countDescendants_ownSet_fresh (key : string) (v h : Hierarchy) :
  hasOwn key h = false ->
  countDescendants (ownSet key v h)
  = countDescendants h + 1 + countDescendants v.
Proof.
  intros E. unfold ownSet. rewrite E. destruct h as [l]. simpl childrenOf.
  assert (forall l', Permutation l' ((key, v) :: l) ->
            countDescendants (Folders l')
            = countDescendants (Folders l) + 1 + countDescendants v) as Hp.
  { intros l' Hl'. rewrite !countDescendants_unfold.
    rewrite (Permutation_length Hl'), (below_perm _ _ Hl').
    unfold below. simpl. lia. }
  destruct (arrayIndex key) as [n|]; apply Hp.
  - apply insertIndex_perm.
  - rewrite Permutation_app_comm. reflexivity.
Qed.

Lemma countDescendants_ownSet_present (key : string) (v c h : Hierarchy) :
  ownGet key h = Some c ->
  countDescendants (ownSet key v h) + countDescendants c
  = countDescendants h + countDescendants v.
Proof.
  intros H. unfold ownSet.
  assert (hasOwn key h = true) as -> by (apply hasOwn_true; now exists c).
  destruct h as [l]. unfold ownGet in H. simpl in H. simpl childrenOf.
  rewrite !countDescendants_unfold.
  destruct (below_set key v l c H) as [H1 H2]. lia.
Qed.

(** ** addFolderToHierarchy *)

Lemma addUnder_outcome (parentPath : list string) (name : string)
    (h : Hierarchy) :
  plain parentPath -> inherited name = false ->
  match walk parentPath h with
  | Reached parent =>
      if hasOwn name parent then addUnder parentPath name h = Kept
      else exists h',
          addUnder parentPath name h = Updated h'
          /\ walk parentPath h' = Reached (ownSet name (Folders []) parent)
  | _ => addUnder parentPath name h = NotFound
  end.
Proof.
  intros Hp Hn. revert h. induction Hp as [|f rest Hf _ IH]; intros h.
  - simpl. unfold hasProperty. rewrite Hn, orb_false_r.
    destruct (hasOwn name h); simpl; [reflexivity|].
    eexists. split; reflexivity.
  - simpl. destruct (ownGet f h) as [child|] eqn:Ef.
    + specialize (IH child). destruct (walk rest child) as [parent| | |].
      * destruct (hasOwn name parent).
        -- now rewrite IH.
        -- destruct IH as (child' & -> & Hw). eexists. split; [reflexivity|].
           cbn [walk]. now rewrite ownGet_ownSet_same.
      * now rewrite IH.
      * now rewrite IH.
      * now rewrite IH.
    + now rewrite Hf.
Qed.

Lemma not_startsWith_tail (g : string) (a rest : list string) :
  ~ startsWith (g :: a) (g :: rest) -> ~ startsWith a rest.
Proof. intros H [q ->]. apply H. now exists q. Qed.

Lemma addUnder_frame (parentPath : list string) (name : string)
    (h h' : Hierarchy) :
  addUnder parentPath name h = Updated h' ->
  forall p, ~ startsWith (parentPath ++ [name]) p ->
            walk p h' = walk p h
            \/ (exists x x', walk p h' = Reached x' /\ walk p h = Reached x).
Proof.
  revert h h'. induction parentPath as [|g gs IH]; intros h h' H p Hp.
  - simpl in H. destruct (negb (hasProperty name h)); [|discriminate].
    injection H as <-. destruct p as [|f rest].
    + right. eexists. eexists. split; reflexivity.
    + left. apply walk_ownSet_other. intros ->. apply Hp. now exists rest.
  - simpl in H. destruct (ownGet g h) as [child|] eqn:Eg;
      [|destruct (inherited g); discriminate].
    destruct (addUnder gs name child) as [child'| | |] eqn:Ea;
      try discriminate.
    injection H as <-. destruct p as [|f rest].
    + right. eexists. eexists. split; reflexivity.
    + destruct (string_dec g f) as [<-|Hne].
      * rewrite walk_ownSet_head. simpl. rewrite Eg.
        apply (IH child child' Ea). now apply (not_startsWith_tail g).
      * left. now apply walk_ownSet_other.
Qed.

Lemma addUnder_count (parentPath : list string) (name : string)
    (h h' : Hierarchy) :
  addUnder parentPath name h = Updated h' ->
  countDescendants h' = countDescendants h + 1.
Proof.
  revert h h'. induction parentPath as [|g gs IH]; intros h h' H.
  - simpl in H. unfold hasProperty in H.
    destruct (hasOwn name h) eqn:E; [discriminate|].
    destruct (inherited name); [discriminate|]. injection H as <-.
    rewrite (countDescendants_ownSet_fresh _ _ _ E). simpl. lia.
  - simpl in H. destruct (ownGet g h) as [child|] eqn:Eg;
      [|destruct (inherited g); discriminate].
    destruct (addUnder gs name child) as [child'| | |] eqn:Ea;
      try discriminate.
    injection H as <-.
    pose proof (countDescendants_ownSet_present g child' child h Eg).
    pose proof (IH _ _ Ea). lia.
Qed.

Lemma addUnder_again (parentPath : list string) (name : string)
    (h h' : Hierarchy) :
  addUnder parentPath name h = Updated h' ->
  addUnder parentPath name h' = Kept.
Proof.
  revert h h'. induction parentPath as [|g gs IH]; intros h h' H.
  - simpl in H. destruct (negb (hasProperty name h)); [|discriminate].
    injection H as <-. simpl. unfold hasProperty.
    assert (hasOwn name (ownSet name (Folders []) h) = true) as ->
      by (apply hasOwn_true; eexists; apply ownGet_ownSet_same).
    reflexivity.
  - simpl in H. destruct (ownGet g h) as [child|] eqn:Eg;
      [|destruct (inherited g); discriminate].
    destruct (addUnder gs name child) as [child'| | |] eqn:Ea;
      try discriminate.
    injection H as <-. simpl. rewrite ownGet_ownSet_same.
    now rewrite (IH _ _ Ea).
Qed.

(** X12. [addFolderToHierarchy], for a parent path and a folder name
    without [Object.prototype] names: it returns whether the parent path
    exists, and leaves the stored hierarchy alone when it does not.
    Otherwise the folder exists under the parent afterwards; the stored
    hierarchy is unchanged if the folder was there already and gains
    exactly one folder if not; the answer of [pathExists] changes for no
    path that does not pass through the new folder; and calling it again
    returns the same and changes nothing. *)
Theorem X12_addFolderToHierarchy :
  forall (parentPath : list string) (name : string) (stored : Hierarchy),
    plain parentPath -> inherited name = false ->
    exists (ok : bool) (stored' : Hierarchy),
      addFolderToHierarchy parentPath name stored = Some (ok, stored')
      /\ pathExists stored parentPath = Some ok
      /\ (ok = false -> stored' = stored)
      /\ (ok = true ->
          pathExists stored' (parentPath ++ [name]) = Some true
          /\ (pathExists stored (parentPath ++ [name]) = Some true ->
              stored' = stored)
          /\ countDescendants stored'
             = countDescendants stored
               + match pathExists stored (parentPath ++ [name]) with
                 | Some true => 0
                 | _ => 1
                 end)
      /\ (forall p, ~ startsWith (parentPath ++ [name]) p ->
                    pathExists stored' p = pathExists stored p)
      /\ addFolderToHierarchy parentPath name stored' = Some (ok, stored').
Proof.
  intros parentPath name stored Hp Hn.
  pose proof (addUnder_outcome parentPath name stored Hp Hn) as Hout.
  unfold addFolderToHierarchy.
  assert (forall h, walk (parentPath ++ [name]) h
                    = match walk parentPath h with
                      | Reached parent =>
                          match ownGet name parent with
                          | Some c => Reached c
                          | None => Missing
                          end
                      | _ => Missing
                      end) as Hwalk.
  { intros h. rewrite walk_app.
    destruct (walk_plain parentPath h Hp) as [[parent ->]| ->];
      [|reflexivity].
    simpl. rewrite Hn. reflexivity. }
  destruct (walk_plain parentPath stored Hp) as [[parent Hw]|Hw];
    rewrite Hw in Hout.
  - destruct (hasOwn name parent) eqn:Eown.
    + rewrite Hout. exists true, stored.
      apply hasOwn_true in Eown as [c Ec].
      rewrite !pathExists_answer, Hwalk, Hw, Ec. simpl.
      repeat split; auto. rewrite Hout. reflexivity.
    + destruct Hout as (stored' & Hadd & Hw').
      rewrite Hadd. exists true, stored'.
      apply hasOwn_false in Eown.
      rewrite !pathExists_answer, !Hwalk, Hw, Hw', Eown.
      rewrite ownGet_ownSet_same. simpl.
      split; [reflexivity|]. split; [reflexivity|].
      split; [discriminate|]. split; [|split].
      * intros _. split; [reflexivity|]. split; [discriminate|].
        now apply (addUnder_count parentPath name).
      * intros p Hnot. rewrite !pathExists_answer.
        destruct (addUnder_frame _ _ _ _ Hadd p Hnot)
          as [->|(x & x' & -> & ->)]; reflexivity.
      * now rewrite (addUnder_again _ _ _ _ Hadd).
  - rewrite Hout. exists false, stored.
    rewrite !pathExists_answer, Hw. simpl.
    repeat split; auto; try discriminate. now rewrite Hout.
Qed.


Lemma X12_addFolderToHierarchy_witness :
  exists (ok : bool) (stored' : Hierarchy),
    addFolderToHierarchy ["Work"%string] "Taxes" sampleHierarchy
    = Some (ok, stored')
    /\ pathExists sampleHierarchy ["Work"%string] = Some ok
    /\ (ok = true ->
        pathExists stored' ["Work"; "Taxes"]%string = Some true).
Proof.
  assert (plain ["Work"%string]) as Hp by (repeat constructor).
  destruct (X12_addFolderToHierarchy ["Work"%string] "Taxes" sampleHierarchy
              Hp eq_refl)
    as (ok & stored' & Hadd & Hex & _ & Hok & _).
  exists ok, stored'. split; [exact Hadd|]. split; [exact Hex|].
  intros E. exact (proj1 (Hok E)).
Defined.

(** ** addNestedFoldersToHierarchy *)

Lemma extends_refl (h : Hierarchy) : extends h h.
Proof. intros p H. exact H. Qed.

Lemma extends_ownSet_present (key : string) (child child' h : Hierarchy) :
  ownGet key h = Some child ->
  extends child child' ->
  extends h (ownSet key child' h).
Proof.
  intros Hget Hext p. rewrite !pathExists_answer.
  destruct p as [|f rest]; [reflexivity|].
  destruct (string_dec key f) as [<-|Hne].
  - rewrite walk_ownSet_head. simpl. rewrite Hget.
    rewrite <- !pathExists_answer. apply Hext.
  - now rewrite walk_ownSet_other.
Qed.

Lemma extends_ownSet_fresh (key : string) (v h : Hierarchy) :
  ownGet key h = None -> inherited key = false ->
  extends h (ownSet key v h).
Proof.
  intros Hget Hk p. rewrite !pathExists_answer.
  destruct p as [|f rest]; [reflexivity|].
  destruct (string_dec key f) as [<-|Hne].
  - simpl. rewrite Hget, Hk. discriminate.
  - now rewrite walk_ownSet_other.
Qed.

Lemma createLevels_plain (new : list string) (h : Hierarchy) :
  plain new ->
  exists h',
    createLevels new h = Some h'
    /\ (exists x, walk new h' = Reached x)
    /\ extends h h'
    /\ ((exists x, walk new h = Reached x) -> h' = h).
Proof.
  intros Hp. revert h. induction Hp as [|n rest Hn _ IH]; intros h.
  - exists h. simpl. split; [reflexivity|]. split; [now exists h|].
    split; [apply extends_refl|reflexivity].
  - simpl. destruct (ownGet n h) as [child|] eqn:En.
    + destruct (IH child) as (child' & -> & Hw & Hext & Hsame).
      eexists. split; [reflexivity|]. rewrite ownGet_ownSet_same.
      split; [exact Hw|]. split.
      * now apply (extends_ownSet_present n child).
      * intros Hx. rewrite (Hsame Hx). now apply ownSet_same.
    + rewrite Hn.
      destruct (IH (Folders [])) as (child' & -> & Hw & _ & _).
      eexists. split; [reflexivity|]. rewrite ownGet_ownSet_same.
      split; [exact Hw|]. split.
      * now apply extends_ownSet_fresh.
      * intros [x Hx]. discriminate Hx.
Qed.

Lemma nestUnder_plain (base new : list string) (h : Hierarchy) :
  plain base -> plain new ->
  match walk base h with
  | Reached _ =>
      exists h',
        nestUnder base new h = Updated h'
        /\ (exists x, walk (base ++ new) h' = Reached x)
        /\ extends h h'
        /\ ((exists x, walk (base ++ new) h = Reached x) -> h' = h)
  | _ => nestUnder base new h = NotFound
  end.
Proof.
  intros Hb Hn. revert h. induction Hb as [|g gs Hg _ IH]; intros h.
  - simpl. destruct (createLevels_plain new h Hn) as (h' & -> & Hw & He & Hs).
    exists h'. auto.
  - simpl. destruct (ownGet g h) as [child|] eqn:Eg.
    + specialize (IH child). destruct (walk gs child) as [x| | |].
      * destruct IH as (child' & -> & Hw & Hext & Hsame).
        eexists. split; [reflexivity|]. rewrite ownGet_ownSet_same.
        split; [exact Hw|]. split.
        -- now apply (extends_ownSet_present g child).
        -- intros Hx. rewrite (Hsame Hx). now apply ownSet_same.
      * now rewrite IH.
      * now rewrite IH.
      * now rewrite IH.
    + now rewrite Hg.
Qed.

Lemma plain_app (p q : list string) : plain p -> plain q -> plain (p ++ q).
Proof. intros Hp Hq. apply Forall_app. now split. Qed.

(** X13. [addNestedFoldersToHierarchy], for paths without
    [Object.prototype] names: it returns whether the base path exists and
    leaves the stored hierarchy alone when it does not.  Otherwise the
    whole path base/new exists afterwards, every path that existed still
    exists, the stored hierarchy is unchanged if the whole path was there
    already, and calling it again returns the same and changes nothing. *)
Theorem X13_addNestedFoldersToHierarchy :
  forall (basePath newFolderPath : list string) (stored : Hierarchy),
    plain basePath -> plain newFolderPath ->
    exists (ok : bool) (stored' : Hierarchy),
      addNestedFoldersToHierarchy basePath newFolderPath stored
      = Some (ok, stored')
      /\ pathExists stored basePath = Some ok
      /\ (ok = false -> stored' = stored)
      /\ (ok = true ->
          pathExists stored' (basePath ++ newFolderPath) = Some true
          /\ (pathExists stored (basePath ++ newFolderPath) = Some true ->
              stored' = stored))
      /\ extends stored stored'
      /\ addNestedFoldersToHierarchy basePath newFolderPath stored'
         = Some (ok, stored').
Proof.
  intros base new stored Hb Hn.
  assert (forall h, pathExists h (base ++ new) = Some true
                    -> exists x, walk (base ++ new) h = Reached x) as Hreach.
  { intros h. rewrite pathExists_answer.
    destruct (walk_plain (base ++ new) h (plain_app _ _ Hb Hn))
      as [[x ->]| ->]; [intros _; now exists x|discriminate]. }
  pose proof (nestUnder_plain base new stored Hb Hn) as Hout.
  unfold addNestedFoldersToHierarchy.
  destruct (walk_plain base stored Hb) as [[parent Hw]|Hw]; rewrite Hw in Hout.
  - destruct Hout as (stored' & Hnest & [x Hx] & Hext & Hsame).
    rewrite Hnest. exists true, stored'.
    rewrite (pathExists_answer stored base), Hw.
    assert (pathExists stored' (base ++ new) = Some true) as Hafter
      by (rewrite pathExists_answer, Hx; reflexivity).
    split; [reflexivity|]. split; [reflexivity|]. split; [discriminate|].
    split; [|split; [exact Hext|]].
    + intros _. split; [exact Hafter|].
      intros H. apply Hsame. now apply Hreach.
    + pose proof (nestUnder_plain base new stored' Hb Hn) as Hout'.
      assert (exists y, walk base stored' = Reached y) as [y Hy].
      { rewrite walk_app in Hx.
        destruct (walk base stored') as [y| | |]; try discriminate.
        - now exists y.
        - destruct new; discriminate. }
      rewrite Hy in Hout'. destruct Hout' as (s2 & -> & _ & _ & Hsame2).
      rewrite (Hsame2 (ex_intro _ x Hx)). reflexivity.
  - rewrite Hout. exists false, stored.
    rewrite (pathExists_answer stored base), Hw.
    split; [reflexivity|]. split; [reflexivity|]. split; [reflexivity|].
    split; [discriminate|]. split; [apply extends_refl|].
    now rewrite Hout.
Qed.

Lemma X13_addNestedFoldersToHierarchy_witness :
  exists (ok : bool) (stored' : Hierarchy),
    addNestedFoldersToHierarchy ["Home"%string] ["Bills"; "2024"]%string
                                sampleHierarchy
    = Some (ok, stored')
    /\ pathExists sampleHierarchy ["Home"%string] = Some ok
    /\ (ok = true ->
        pathExists stored' ["Home"; "Bills"; "2024"]%string = Some true).
Proof.
  assert (plain ["Home"%string]) as Hb by (repeat constructor).
  assert (plain ["Bills"; "2024"]%string) as Hn by (repeat constructor).
  destruct (X13_addNestedFoldersToHierarchy ["Home"%string]
              ["Bills"; "2024"]%string sampleHierarchy Hb Hn)
    as (ok & stored' & Hadd & Hex & _ & Hok & _).
  exists ok, stored'. split; [exact Hadd|]. split; [exact Hex|].
  intros E. exact (proj1 (Hok E)).
Defined.


(** ** addNestedFoldersToHierarchy, one level at a time *)

Lemma nestUnder_cons (base : list string) (n : string) (rest : list string)
    (h : Hierarchy) :
  nestUnder base (n :: rest) h
  = match addUnder base n h with
    | Updated h1 => nestUnder (base ++ [n]) rest h1
    | Kept => nestUnder (base ++ [n]) rest h
    | NotFound => NotFound
    | Unmodelled => Unmodelled
    end.
Proof.
  revert h. induction base as [|g gs IH]; intros h.
  - cbn [app]. cbn [nestUnder addUnder createLevels].
    unfold hasProperty, hasOwn.
    destruct (ownGet n h) as [child|] eqn:En; cbn [orb negb].
    + cbn [nestUnder]. rewrite ?En.
      destruct (createLevels rest child); reflexivity.
    + destruct (inherited n) eqn:Hn; cbn [negb nestUnder].
      * rewrite ?En, ?Hn. destruct rest; reflexivity.
      * rewrite ?ownGet_ownSet_same.
        destruct (createLevels rest (Folders [])); cbn [option_map];
          [now rewrite ownSet_ownSet|reflexivity].
  - cbn [app]. cbn [nestUnder addUnder].
    destruct (ownGet g h) as [child|] eqn:Eg.
    + rewrite IH. destruct (addUnder gs n child) as [c1| | |].
      * cbn [nestUnder]. rewrite ?ownGet_ownSet_same.
        destruct (nestUnder (gs ++ [n]) rest c1); try reflexivity.
        now rewrite ownSet_ownSet.
      * cbn [nestUnder]. rewrite ?Eg. reflexivity.
      * reflexivity.
      * reflexivity.
    + destruct (inherited g); [|reflexivity].
      destruct gs; reflexivity.
Qed.

Lemma nestUnder_single (base : list string) (n : string) (h : Hierarchy) :
  nestUnder base [n] h
  = match addUnder base n h with
    | Kept => Updated h
    | o => o
    end.
Proof.
  revert h. induction base as [|g gs IH]; intros h.
  - cbn [nestUnder addUnder createLevels]. unfold hasProperty, hasOwn.
    destruct (ownGet n h) as [child|] eqn:En; cbn [orb negb option_map].
    + now rewrite (ownSet_same _ _ _ En).
    + destruct (inherited n); reflexivity.
  - cbn [nestUnder addUnder].
    destruct (ownGet g h) as [child|] eqn:Eg.
    + rewrite IH. destruct (addUnder gs n child); try reflexivity.
      now rewrite (ownSet_same _ _ _ Eg).
    + destruct (inherited g); [|reflexivity].
      destruct gs; reflexivity.
Qed.

Lemma nestUnder_not_Kept (base new : list string) (h : Hierarchy) :
  nestUnder base new h <> Kept.
Proof.
  revert h. induction base as [|g gs IH]; intros h; simpl.
  - destruct (createLevels new h); discriminate.
  - destruct (ownGet g h) as [child|].
    + specialize (IH child).
      destruct (nestUnder gs new child); congruence.
    + destruct (inherited g); [|discriminate].
      destruct gs, new; discriminate.
Qed.

Lemma addUnder_then_found (base : list string) (n : string)
    (rest : list string) (h h1 : Hierarchy) :
  addUnder base n h = Updated h1 ->
  nestUnder (base ++ [n]) rest h1 <> NotFound.
Proof.
  revert h h1. induction base as [|g gs IH]; intros h h1; cbn [app addUnder].
  - destruct (negb (hasProperty n h)); [|discriminate].
    intros [= <-]. cbn [nestUnder]. rewrite ownGet_ownSet_same.
    destruct (createLevels rest (Folders [])); discriminate.
  - destruct (ownGet g h) as [child|]; [|destruct (inherited g); discriminate].
    destruct (addUnder gs n child) as [c1| | |] eqn:E; try discriminate.
    intros [= <-]. cbn [nestUnder]. rewrite ownGet_ownSet_same.
    specialize (IH child c1 E).
    destruct (nestUnder (gs ++ [n]) rest c1); congruence.
Qed.

(** X14. Creating the nested folders [n :: rest] under a base path is
    creating [n] under it with [addFolderToHierarchy] and then the
    remaining levels under base/n; when the base path is not found, or the
    call leaves the model, so does the nested call.  Creating a single
    level with [addNestedFoldersToHierarchy] is [addFolderToHierarchy]. *)
Theorem X14_nested_level_by_level :
  forall (basePath : list string) (n : string) (rest : list string)
         (stored : Hierarchy),
    addNestedFoldersToHierarchy basePath (n :: rest) stored
    = match addFolderToHierarchy basePath n stored with
      | Some (true, stored1) =>
          addNestedFoldersToHierarchy (basePath ++ [n]) rest stored1
      | other => other
      end
    /\ addNestedFoldersToHierarchy basePath [n] stored
       = addFolderToHierarchy basePath n stored.
Proof.
  intros base n rest stored.
  unfold addNestedFoldersToHierarchy, addFolderToHierarchy. split.
  - rewrite nestUnder_cons.
    destruct (addUnder base n stored) as [h1| | |] eqn:E; try reflexivity.
    pose proof (nestUnder_not_Kept (base ++ [n]) rest h1) as HK.
    pose proof (addUnder_then_found base n rest stored h1 E) as HN.
    destruct (nestUnder (base ++ [n]) rest h1); try reflexivity.
    + now contradiction HK.
    + now contradiction HN.
  - rewrite nestUnder_single.
    destruct (addUnder base n stored); reflexivity.
Qed.


(** ** Names inherited from Object.prototype *)

Lemma addUnder_inherited (p : list string) (key : string)
    (h parent : Hierarchy) :
  walk p h = Reached parent -> inherited key = true ->
  addUnder p key h = Kept.
Proof.
  intros Hw Hk. revert h Hw. induction p as [|g gs IH]; intros h Hw.
  - simpl. unfold hasProperty. rewrite Hk, orb_true_r. reflexivity.
  - simpl in Hw |- *. destruct (ownGet g h) as [child|].
    + now rewrite (IH child Hw).
    + destruct (inherited g); [destruct gs|]; discriminate.
Qed.

Lemma existingDepth_app (p q : list string) (h parent : Hierarchy) :
  walk p h = Reached parent ->
  existingDepth (p ++ q) h
  = option_map (Nat.add (List.length p)) (existingDepth q parent).
Proof.
  revert h. induction p as [|g gs IH]; intros h Hw.
  - simpl in Hw. injection Hw as ->. simpl.
    now destruct (existingDepth q parent).
  - simpl in Hw |- *. destruct (ownGet g h) as [child|].
    + rewrite (IH child Hw). now destruct (existingDepth q parent).
    + destruct (inherited g); [destruct gs|]; discriminate.
Qed.

(** X15. A folder named after a property that every object inherits from
    [Object.prototype] ("constructor", "toString", "__proto__", ...) is
    never recorded: under a parent that exists and has no such folder,
    [addFolderToHierarchy] and [addNestedFoldersToHierarchy] return true
    and leave the stored hierarchy as it was, and the update of
    hierarchy.json in [moveFile] stores nothing either. *)
Theorem X15_inherited_name_not_recorded :
  forall (parentPath : list string) (key : string)
         (stored parent : Hierarchy),
    walk parentPath stored = Reached parent ->
    inherited key = true ->
    hasOwn key parent = false ->
    addFolderToHierarchy parentPath key stored = Some (true, stored)
    /\ addNestedFoldersToHierarchy parentPath [key] stored
       = Some (true, stored)
    /\ recordNewFolders (parentPath ++ [key]) stored = Some stored
    /\ pathExists stored (parentPath ++ [key]) = Some true.
Proof.
  intros p key stored parent Hw Hk Hown.
  pose proof (addUnder_inherited p key stored parent Hw Hk) as Hadd.
  apply hasOwn_false in Hown.
  split; [|split; [|split]].
  - unfold addFolderToHierarchy. now rewrite Hadd.
  - unfold addNestedFoldersToHierarchy. rewrite nestUnder_single, Hadd.
    reflexivity.
  - unfold recordNewFolders. rewrite (existingDepth_app p [key] stored parent Hw).
    simpl. rewrite Hown, Hk. simpl.
    rewrite length_app. simpl.
    replace (List.length p + 1 <? List.length p + 1) with false
      by (symmetry; apply Nat.ltb_ge; lia).
    reflexivity.
  - rewrite pathExists_answer, walk_app, Hw. simpl. now rewrite Hown, Hk.
Qed.

Lemma X15_inherited_name_not_recorded_witness :
  addFolderToHierarchy ["Work"%string] "constructor" sampleHierarchy
  = Some (true, sampleHierarchy)
  /\ hasOwn "constructor" (Folders [("Reports"%string, Folders [])]) = false.
Proof.
  split; [|reflexivity].
  exact (proj1 (X15_inherited_name_not_recorded
                  ["Work"%string] "constructor" sampleHierarchy
                  (Folders [("Reports"%string, Folders [])])
                  eq_refl eq_refl eq_refl)).
Defined.

(** ** moveFile: the update of hierarchy.json *)

Lemma existingDepth_plain (path : list string) (h : Hierarchy) :
  plain path ->
  exists depth,
    existingDepth path h = Some depth
    /\ depth <= List.length path
    /\ nestUnder (firstn depth path) (skipn depth path) h
       = nestUnder [] path h
    /\ (depth = List.length path -> exists x, walk path h = Reached x).
Proof.
  intros Hp. revert h. induction Hp as [|f rest Hf _ IH]; intros h.
  - exists 0. simpl. repeat split; try lia. intros _. now exists h.
  - cbn [existingDepth]. destruct (ownGet f h) as [child|] eqn:Ef.
    + destruct (IH child) as (d & -> & Hle & Heq & Hfull).
      exists (S d). cbn [option_map List.length firstn skipn].
      split; [reflexivity|]. split; [lia|]. split.
      * cbn [nestUnder createLevels]. rewrite Ef, Heq. cbn [nestUnder].
        destruct (createLevels rest child); reflexivity.
      * intros E. cbn [walk]. rewrite Ef. apply Hfull. lia.
    + rewrite Hf. exists 0. cbn [List.length firstn skipn].
      split; [reflexivity|]. split; [lia|]. split; [reflexivity|].
      discriminate.
Qed.

(** X16. The update of hierarchy.json in [moveFile], for a destination
    path without [Object.prototype] names: searching the deepest existing
    part first makes no difference, the stored hierarchy becomes what
    [addNestedFoldersToHierarchy([], hierarchyPath)] stores.  Afterwards
    the destination path exists in it, every path that existed still
    exists, and nothing changes when the destination path was there
    already. *)
Theorem X16_moveFile_records_destination :
  forall (hierarchyPath : list string) (stored : Hierarchy),
    plain hierarchyPath ->
    exists stored' : Hierarchy,
      recordNewFolders hierarchyPath stored = Some stored'
      /\ addNestedFoldersToHierarchy [] hierarchyPath stored
         = Some (true, stored')
      /\ pathExists stored' hierarchyPath = Some true
      /\ extends stored stored'
      /\ (pathExists stored hierarchyPath = Some true -> stored' = stored).
Proof.
  intros path stored Hp.
  destruct (existingDepth_plain path stored Hp)
    as (d & Hd & Hle & Heq & Hfull).
  pose proof (nestUnder_plain [] path stored (Forall_nil _) Hp) as Hnest.
  cbn [walk app] in Hnest.
  destruct Hnest as (stored' & Hn & [x Hx] & Hext & Hsame).
  assert (pathExists stored path = Some true -> stored' = stored) as Hsame'.
  { rewrite pathExists_answer. intros H. apply Hsame.
    destruct (walk_plain path stored Hp) as [[y Hy]|Hy].
    - now exists y.
    - rewrite Hy in H. discriminate. }
  exists stored'. unfold recordNewFolders, addNestedFoldersToHierarchy.
  rewrite Hd, Heq, Hn.
  split; [|split; [reflexivity|split; [|split; [exact Hext|exact Hsame']]]].
  - destruct (d <? List.length path) eqn:E; [reflexivity|].
    apply Nat.ltb_ge in E. f_equal. symmetry. apply Hsame.
    apply Hfull. lia.
  - rewrite pathExists_answer, Hx. reflexivity.
Qed.

Lemma X16_moveFile_records_destination_witness :
  exists stored' : Hierarchy,
    recordNewFolders ["Work"; "Reports"; "2024"]%string sampleHierarchy
    = Some stored'
    /\ pathExists stored' ["Work"; "Reports"; "2024"]%string = Some true.
Proof.
  assert (plain ["Work"; "Reports"; "2024"]%string) as Hp
    by (repeat constructor).
  destruct (X16_moveFile_records_destination
              ["Work"; "Reports"; "2024"]%string sampleHierarchy Hp)
    as (stored' & Hrec & _ & Hex & _).
  exists stored'. split; [exact Hrec|exact Hex].
Defined.


(** ** hierarchyToString *)

Lemma Hierarchy_induction (P : Hierarchy -> Prop) :
  (forall children,
     Forall (fun entry => P (snd entry)) children -> P (Folders children)) ->
  forall h, P h.
Proof.
  intros H. fix IH 1. intros [children]. apply H.
  induction children as [|[k v] l IHl]; constructor; [apply IH|exact IHl].
Qed.

Lemma hierarchyToString_cons (key : string) (value : Hierarchy)
    (l : list (string * Hierarchy)) (indent : nat) :
  hierarchyToString (Folders ((key, value) :: l)) indent
  = (indentation indent ++ key ++ newline
     ++ (if (0 <? List.length (childrenOf value))%nat
         then hierarchyToString value (indent + 1)%nat else EmptyString)
     ++ hierarchyToString (Folders l) indent)%string.
Proof. reflexivity. Qed.

Lemma paths_cons (key : string) (value : Hierarchy)
    (l : list (string * Hierarchy)) :
  paths (Folders ((key, value) :: l))
  = ([key] :: map (cons key) (paths value)) ++ paths (Folders l).
Proof. reflexivity. Qed.

Lemma unlines_app (l l' : list string) :
  unlines (l ++ l') = (unlines l ++ unlines l')%string.
Proof.
  induction l as [|x l IH]; simpl; [reflexivity|].
  now rewrite IH, string_app_assoc.
Qed.

Lemma paths_nonempty (h : Hierarchy) : Forall (fun p => p <> []) (paths h).
Proof.
  induction h as [children IH] using Hierarchy_induction.
  induction children as [|[k v] l IHl]; [constructor|].
  rewrite paths_cons. inversion IH as [|? ? Hv Hl]; subst.
  apply Forall_app. split; [|now apply IHl].
  constructor; [discriminate|]. apply Forall_map.
  apply Forall_forall. intros p _. discriminate.
Qed.

Lemma lineOf_cons (indent : nat) (key : string) (p : list string) :
  p <> [] -> lineOf indent (key :: p) = lineOf (indent + 1) p.
Proof.
  intros Hp. unfold lineOf. destruct p as [|f p]; [contradiction|].
  change (last (key :: f :: p) EmptyString) with (last (f :: p) EmptyString).
  replace (indent + (List.length (key :: f :: p) - 1))
    with (indent + 1 + (List.length (f :: p) - 1)) by (simpl; lia).
  reflexivity.
Qed.

Lemma hierarchyToString_unlines (h : Hierarchy) (indent : nat) :
  hierarchyToString h indent = unlines (map (lineOf indent) (paths h)).
Proof.
  revert indent. induction h as [children IH] using Hierarchy_induction.
  induction children as [|[k v] l IHl]; intros indent; [reflexivity|].
  inversion IH as [|? ? Hv Hl]; subst. cbn [snd] in Hv.
  rewrite hierarchyToString_cons, paths_cons, (IHl Hl).
  rewrite map_app, unlines_app. cbn [map].
  change (unlines (lineOf indent [k]
                   :: map (lineOf indent) (map (cons k) (paths v))))
    with (lineOf indent [k]
          ++ unlines (map (lineOf indent) (map (cons k) (paths v))))%string.
  assert (lineOf indent [k] = (indentation indent ++ k ++ newline)%string)
    as -> by (unfold lineOf; cbn [List.length last Nat.sub];
              now rewrite Nat.add_0_r).
  assert (map (lineOf indent) (map (cons k) (paths v))
          = map (lineOf (indent + 1)) (paths v)) as ->.
  { rewrite map_map. apply map_ext_in. intros p Hin.
    apply lineOf_cons.
    exact (proj1 (Forall_forall _ _) (paths_nonempty v) p Hin). }
  rewrite !string_app_assoc. do 3 f_equal.
  rewrite <- Hv. destruct v as [[|e es]]; reflexivity.
Qed.

Lemma length_paths (h : Hierarchy) :
  List.length (paths h) = countDescendants h.
Proof.
  induction h as [children IH] using Hierarchy_induction.
  rewrite countDescendants_unfold.
  induction children as [|[k v] l IHl]; [reflexivity|].
  inversion IH as [|? ? Hv Hl]; subst. cbn [snd] in Hv.
  rewrite paths_cons, length_app. cbn [List.length].
  rewrite length_map, Hv, (IHl Hl). unfold below. cbn [map list_sum snd].
  change (list_sum (countDescendants v
            :: map (fun entry : string * Hierarchy =>
                      countDescendants (snd entry)) l))
    with (countDescendants v
          + list_sum (map (fun entry : string * Hierarchy =>
                             countDescendants (snd entry)) l)).
  lia.
Qed.

Lemma paths_walk (h : Hierarchy) (p : list string) :
  p <> [] -> (exists x, walk p h = Reached x) -> In p (paths h).
Proof.
  revert p. induction h as [children IH] using Hierarchy_induction.
  intros [|f rest] Hne [x Hx]; [contradiction|].
  cbn [walk] in Hx. unfold ownGet in Hx. cbn [childrenOf] in Hx.
  clear Hne. induction children as [|[k v] l IHl].
  - simpl in Hx. destruct (inherited f); [destruct rest|]; discriminate.
  - inversion IH as [|? ? Hv Hl]; subst. cbn [snd] in Hv.
    rewrite paths_cons. apply in_or_app.
    cbn [JsMap.get] in Hx. destruct (String.eqb k f) eqn:E.
    + apply String.eqb_eq in E. subst k. left.
      destruct rest as [|g rest]; [now left|]. right.
      apply in_map. apply Hv; [discriminate|now exists x].
    + right. now apply IHl.
Qed.

Lemma walk_paths (h : Hierarchy) (p : list string) :
  distinctKeys h -> In p (paths h) -> exists x, walk p h = Reached x.
Proof.
  revert p. induction h as [children IH] using Hierarchy_induction.
  intros p Hd Hin.
  assert (forall l,
            Forall (fun entry => forall p, distinctKeys (snd entry) ->
                      In p (paths (snd entry)) ->
                      exists x, walk p (snd entry) = Reached x) l ->
            distinctKeys (Folders l) ->
            In p (paths (Folders l)) ->
            exists f rest v, p = f :: rest /\ JsMap.get f l = Some v
                             /\ exists x, walk rest v = Reached x) as Hgen.
  { clear. induction l as [|[k v] l IHl]; intros IH Hd Hin; [contradiction|].
    inversion IH as [|? ? Hv Hl]; subst. cbn [snd] in Hv.
    destruct Hd as [Hnd [Hdv Hdl]]. cbn [map fst] in Hnd.
    inversion Hnd as [|? ? Hnotin Hnd']; subst.
    rewrite paths_cons in Hin. apply in_app_or in Hin.
    destruct Hin as [[<-|Hin]|Hin].
    - exists k, [], v. split; [reflexivity|]. cbn [JsMap.get].
      rewrite String.eqb_refl. split; [reflexivity|now exists v].
    - apply in_map_iff in Hin. destruct Hin as (q & <- & Hq).
      exists k, q, v. split; [reflexivity|]. cbn [JsMap.get].
      rewrite String.eqb_refl. split; [reflexivity|now apply Hv].
    - destruct (IHl Hl (conj Hnd' Hdl) Hin) as (f & rest & w & -> & Hg & Hw).
      exists f, rest, w. split; [reflexivity|]. split; [|exact Hw].
      cbn [JsMap.get]. destruct (String.eqb k f) eqn:E; [|exact Hg].
      apply String.eqb_eq in E. subst f. exfalso. apply Hnotin.
      apply get_In in Hg. now apply (in_map fst) in Hg. }
  destruct (Hgen children IH Hd Hin) as (f & rest & v & -> & Hg & Hw).
  cbn [walk]. unfold ownGet. cbn [childrenOf]. now rewrite Hg.
Qed.

(** X17. [hierarchyToString] writes one line per folder of the hierarchy,
    parents before their children and siblings in the order of
    enumeration: the folder's name alone, indented by two spaces per
    level below the starting indentation and ended by a newline.  The
    folders listed are exactly the non-empty paths that lead to a folder
    of the hierarchy, and their number is [countDescendants]. *)
Theorem X17_hierarchyToString :
  forall (h : Hierarchy) (indent : nat),
    hierarchyToString h indent = unlines (map (lineOf indent) (paths h))
    /\ List.length (paths h) = countDescendants h
    /\ (forall p, p <> [] -> (exists x, walk p h = Reached x) ->
                  In p (paths h))
    /\ (distinctKeys h ->
        forall p, In p (paths h) ->
                  p <> [] /\ exists x, walk p h = Reached x).
Proof.
  intros h indent. split; [apply hierarchyToString_unlines|].
  split; [apply length_paths|]. split; [apply paths_walk|].
  intros Hd p Hin. split.
  - exact (proj1 (Forall_forall _ _) (paths_nonempty h) p Hin).
  - now apply walk_paths.
Qed.

(** ** countDescendants, getDepth and countFolders *)

Lemma fold_left_max (l : list nat) (a : nat) :
  fold_left Nat.max l a = Nat.max a (list_max l).
Proof.
  revert a. induction l as [|x l IH]; intros a; simpl.
  - now rewrite Nat.max_0_r.
  - rewrite IH. lia.
Qed.

Lemma getDepth_unfold (l : list (string * Hierarchy)) :
  getDepth (Folders l)
  = match l with
    | [] => 0
    | _ :: _ => list_max (map (fun entry => getDepth (snd entry)) l) + 1
    end.
Proof.
  destruct l as [|e l]; [reflexivity|].
  cbn [getDepth List.length Nat.eqb]. now rewrite fold_left_max.
Qed.

Lemma list_max_le_sum (l : list nat) : list_max l <= list_sum l.
Proof. induction l as [|x l IH]; simpl; lia. Qed.

Lemma list_max_cons (x : nat) (l : list nat) :
  list_max (x :: l) = Nat.max x (list_max l).
Proof. reflexivity. Qed.

Lemma list_sum_cons (x : nat) (l : list nat) :
  list_sum (x :: l) = x + list_sum l.
Proof. reflexivity. Qed.

Lemma list_max_map_le (A : Type) (f g : A -> nat) (l : list A) :
  Forall (fun x => f x <= g x) l ->
  list_max (map f l) <= list_sum (map g l).
Proof.
  induction 1 as [|x xs Hx _ IH]; [simpl; lia|].
  cbn [map]. rewrite list_max_cons, list_sum_cons. lia.
Qed.

Lemma getDepth_le_count (h : Hierarchy) : getDepth h <= countDescendants h.
Proof.
  induction h as [children IH] using Hierarchy_induction.
  rewrite getDepth_unfold, countDescendants_unfold.
  destruct children as [|e l]; [lia|].
  pose proof (list_max_map_le _ _ _ _ IH) as H. fold (below (e :: l)) in H.
  cbn [List.length]. lia.
Qed.

Lemma In_paths (key : string) (value : Hierarchy)
    (l : list (string * Hierarchy)) :
  In (key, value) l ->
  In [key] (paths (Folders l))
  /\ forall q, In q (paths value) -> In (key :: q) (paths (Folders l)).
Proof.
  induction l as [|[k v] l IH]; intros Hin; [contradiction|].
  rewrite paths_cons. destruct Hin as [[= -> ->]|Hin].
  - split; [now left|]. intros q Hq. right. apply in_or_app. left.
    now apply in_map.
  - destruct (IH Hin) as [H1 H2]. split.
    + apply in_or_app. now right.
    + intros q Hq. apply in_or_app. right. now apply H2.
Qed.

Lemma length_paths_le_depth (h : Hierarchy) (p : list string) :
  In p (paths h) -> List.length p <= getDepth h.
Proof.
  revert p. induction h as [children IH] using Hierarchy_induction.
  intros p Hin. rewrite getDepth_unfold.
  destruct children as [|e l]; [contradiction|].
  assert (forall l0,
            Forall (fun entry => forall p, In p (paths (snd entry)) ->
                      List.length p <= getDepth (snd entry)) l0 ->
            In p (paths (Folders l0)) ->
            List.length p
            <= list_max (map (fun entry => getDepth (snd entry)) l0) + 1)
    as Hgen; [|exact (Hgen _ IH Hin)].
  clear. induction l0 as [|[k v] l IHl]; intros IH Hin; [contradiction|].
  inversion IH as [|? ? Hv Hl]; subst. cbn [snd] in Hv.
  rewrite paths_cons in Hin. cbn [map snd]. rewrite list_max_cons.
  apply in_app_or in Hin. destruct Hin as [[<-|Hin]|Hin].
  - simpl. lia.
  - apply in_map_iff in Hin. destruct Hin as (q & <- & Hq).
    specialize (Hv q Hq). cbn [List.length]. lia.
  - specialize (IHl Hl Hin). lia.
Qed.

Lemma list_max_attained (l : list nat) :
  l <> [] -> In (list_max l) l.
Proof.
  induction l as [|x l IH]; intros Hne; [contradiction|].
  destruct l as [|y l]; [left; simpl; lia|].
  assert (y :: l <> []) as H by discriminate. specialize (IH H).
  rewrite list_max_cons.
  destruct (Nat.max_spec x (list_max (y :: l))) as [[_ ->]|[_ ->]];
    [now right|now left].
Qed.

Lemma depth_attained (h : Hierarchy) :
  paths h <> [] ->
  exists p, In p (paths h) /\ List.length p = getDepth h.
Proof.
  induction h as [children IH] using Hierarchy_induction.
  intros Hne. rewrite getDepth_unfold.
  destruct children as [|e l]; [contradiction|].
  assert (map (fun entry => getDepth (snd entry)) (e :: l) <> []) as Hm
    by discriminate.
  pose proof (list_max_attained _ Hm) as Hin.
  apply in_map_iff in Hin. destruct Hin as ([k v] & Hd & Hkv).
  cbn [snd] in Hd. rewrite <- Hd.
  pose proof (proj1 (Forall_forall _ _) IH (k, v) Hkv) as IHv.
  cbn [snd] in IHv.
  destruct (In_paths k v (e :: l) Hkv) as [H1 H2].
  destruct (paths v) as [|q qs] eqn:Ep.
  - exists [k]. split; [exact H1|].
    pose proof (length_paths v) as Hc. rewrite Ep in Hc.
    pose proof (getDepth_le_count v). simpl in Hc |- *. lia.
  - destruct IHv as (p & Hp & Hlen); [discriminate|].
    exists (k :: p). split; [now apply H2|]. simpl. lia.
Qed.

Lemma countFolders_countDescendants (h : Hierarchy) :
  countFolders h = countDescendants h.
Proof.
  induction h as [children IH] using Hierarchy_induction.
  assert (map (fun entry => countFolders (snd entry)) children
          = map (fun entry => countDescendants (snd entry)) children) as E.
  { induction IH as [|x xs Hx _ IHxs]; [reflexivity|].
    cbn [map]. now rewrite Hx, IHxs. }
  cbn [countFolders countDescendants]. now rewrite E.
Qed.

(** X18. The figures the pruning tool and the scanner print: the depth
    [getDepth] is the length of the longest folder path of the hierarchy
    (0 when there is none), so it never exceeds the number of folders
    [countDescendants]; both are 0 exactly for the empty object; and
    [countFolders] of the scanner counts the same folders as
    [countDescendants]. *)
Theorem X18_depth_and_count :
  forall h : Hierarchy,
    (forall p, In p (paths h) -> List.length p <= getDepth h)
    /\ (ownKeys h <> [] ->
        exists p, In p (paths h) /\ List.length p = getDepth h)
    /\ getDepth h <= countDescendants h
    /\ (getDepth h = 0 <-> ownKeys h = [])
    /\ (countDescendants h = 0 <-> ownKeys h = [])
    /\ countFolders h = countDescendants h.
Proof.
  intros h. split; [apply length_paths_le_depth|]. split.
  - intros Hk. apply depth_attained. destruct h as [[|[k v] l]].
    + now contradiction Hk.
    + rewrite paths_cons. discriminate.
  - split; [apply getDepth_le_count|]. split; [|split].
    + destruct h as [l]. rewrite getDepth_unfold.
      destruct l as [|e l]; cbn [ownKeys childrenOf map].
      * split; reflexivity.
      * split; [lia|discriminate].
    + destruct h as [l]. rewrite countDescendants_unfold.
      destruct l as [|e l]; cbn [ownKeys childrenOf map List.length].
      * split; reflexivity.
      * split; [lia|discriminate].
    + apply countFolders_countDescendants.
Qed.


(** ** truncateChildren *)

Lemma ownKeys_ownSet (key : string) (v h : Hierarchy) :
  Permutation (ownKeys (ownSet key v h))
              (if hasOwn key h then ownKeys h else key :: ownKeys h).
Proof.
  unfold ownSet, ownKeys. destruct (hasOwn key h) eqn:E; cbn [childrenOf].
  - change (map fst (JsMap.set key v (childrenOf h)))
      with (JsMap.keys (JsMap.set key v (childrenOf h))).
    rewrite keys_set. unfold JsMap.has.
    unfold hasOwn, ownGet in E.
    destruct (JsMap.get key (childrenOf h)); [reflexivity|discriminate].
  - destruct (arrayIndex key) as [n|]; cbn [childrenOf].
    + now rewrite insertIndex_perm.
    + rewrite map_app. cbn [map fst].
      symmetry. apply Permutation_cons_append.
Qed.

Lemma hasOwn_In (key : string) (h : Hierarchy) :
  hasOwn key h = true <-> In key (ownKeys h).
Proof.
  unfold hasOwn, ownGet, ownKeys.
  destruct (JsMap.get key (childrenOf h)) as [c|] eqn:E.
  - split; [intros _|reflexivity].
    apply get_In in E. now apply (in_map fst) in E.
  - split; [discriminate|]. intros Hin. apply get_None in E.
    now contradiction E.
Qed.

Lemma NoDup_ownKeys_ownSet (key : string) (v h : Hierarchy) :
  NoDup (ownKeys h) -> NoDup (ownKeys (ownSet key v h)).
Proof.
  intros Hnd. apply (Permutation_NoDup (Permutation_sym (ownKeys_ownSet key v h))).
  destruct (hasOwn key h) eqn:E; [exact Hnd|].
  constructor; [|exact Hnd]. intros Hin. apply hasOwn_In in Hin. congruence.
Qed.

Lemma children_ownSet (P : Hierarchy -> Prop) (key : string)
    (v h : Hierarchy) :
  P v -> Forall (fun entry => P (snd entry)) (childrenOf h) ->
  Forall (fun entry => P (snd entry)) (childrenOf (ownSet key v h)).
Proof.
  intros Hv Hh. unfold ownSet. destruct (hasOwn key h); cbn [childrenOf].
  - now apply Forall_set.
  - destruct (arrayIndex key) as [n|]; cbn [childrenOf].
    + apply (Permutation_Forall (Permutation_sym (insertIndex_perm n key v _))).
      now constructor.
    + apply Forall_app. split; [exact Hh|]. now repeat constructor.
Qed.

Lemma ownGet_assign (key k : string) (v h : Hierarchy) :
  ownGet k (assign key v h)
  = if String.eqb k key && negb (String.eqb key "__proto__")
    then Some v else ownGet k h.
Proof.
  unfold assign. destruct (String.eqb key "__proto__") eqn:Ep.
  - now rewrite andb_false_r.
  - rewrite andb_true_r. destruct (String.eqb k key) eqn:E.
    + apply String.eqb_eq in E. subst k. apply ownGet_ownSet_same.
    + apply String.eqb_neq in E. apply ownGet_ownSet_other. congruence.
Qed.

Lemma ownGet_emptied (keys : list string) (k : string) (r : Hierarchy) :
  ownGet k (fold_left (fun result key => assign key (Folders []) result)
                      keys r)
  = if existsb (String.eqb k) keys && negb (String.eqb k "__proto__")
    then Some (Folders []) else ownGet k r.
Proof.
  revert r. induction keys as [|key keys IH]; intros r; [reflexivity|].
  cbn [fold_left existsb]. rewrite IH, ownGet_assign.
  destruct (String.eqb k key) eqn:E.
  - apply String.eqb_eq in E. subst key. cbn [andb orb].
    destruct (String.eqb k "__proto__"); cbn [negb].
    + now rewrite andb_false_r.
    + now destruct (existsb (String.eqb k) keys).
  - reflexivity.
Qed.

Lemma emptied_invariant (keys : list string) (r : Hierarchy) :
  NoDup (ownKeys r) ->
  Forall (fun entry => snd entry = Folders []) (childrenOf r) ->
  let r' := fold_left (fun result key => assign key (Folders []) result)
                      keys r in
  NoDup (ownKeys r')
  /\ Forall (fun entry => snd entry = Folders []) (childrenOf r').
Proof.
  revert r. induction keys as [|key keys IH]; intros r Hnd Hall;
    [now split|].
  cbn [fold_left]. apply IH; unfold assign;
    destruct (String.eqb key "__proto__"); try assumption.
  - now apply NoDup_ownKeys_ownSet.
  - now apply (children_ownSet (fun c => c = Folders [])).
Qed.

Lemma existsb_eqb_In (k : string) (l : list string) :
  existsb (String.eqb k) l = true <-> In k l.
Proof.
  rewrite existsb_exists. split.
  - intros (x & Hin & E). apply String.eqb_eq in E. now subst.
  - intros Hin. exists k. split; [exact Hin|apply String.eqb_refl].
Qed.

Lemma ownGet_truncateChildren (node : Hierarchy) (key : string) :
  ownGet key (truncateChildren node)
  = if hasOwn key node && negb (String.eqb key "__proto__")
    then Some (Folders []) else None.
Proof.
  unfold truncateChildren. rewrite ownGet_emptied.
  assert (existsb (String.eqb key) (ownKeys node) = hasOwn key node) as ->.
  { destruct (hasOwn key node) eqn:E.
    - apply existsb_eqb_In. now apply hasOwn_In.
    - destruct (existsb (String.eqb key) (ownKeys node)) eqn:E';
        [|reflexivity].
      apply existsb_eqb_In, hasOwn_In in E'. congruence. }
  reflexivity.
Qed.

Lemma flat_count (l : list (string * Hierarchy)) :
  Forall (fun entry => snd entry = Folders []) l ->
  countDescendants (Folders l) = List.length l
  /\ getDepth (Folders l) <= 1.
Proof.
  intros Hall. rewrite countDescendants_unfold, getDepth_unfold.
  assert (below l = 0
          /\ list_max (map (fun entry => getDepth (snd entry)) l) = 0)
    as [Hb Hm].
  { unfold below. induction Hall as [|[k v] xs Hx _ [IH1 IH2]];
      [now split|].
    cbn [snd] in Hx. subst v. cbn [map snd].
    rewrite list_sum_cons, list_max_cons, IH1, IH2. now split. }
  rewrite Hb, Hm. split; [lia|]. destruct l; lia.
Qed.

(** X19. [truncateChildren] keeps the keys of the node and nothing below
    them: the result has an empty object under every own key of the node
    other than [__proto__] (for which the assignment replaces the
    prototype and creates no property) and no other key, so its depth is
    at most 1 and it holds at most as many folders as the node has
    children; for a node without an own key [__proto__] it holds exactly
    the node's children. *)
Theorem X19_truncateChildren :
  forall node : Hierarchy,
    (forall key,
       ownGet key (truncateChildren node)
       = if hasOwn key node && negb (String.eqb key "__proto__")
         then Some (Folders []) else None)
    /\ getDepth (truncateChildren node) <= 1
    /\ countDescendants (truncateChildren node)
       = List.length (ownKeys (truncateChildren node))
    /\ NoDup (ownKeys (truncateChildren node))
    /\ List.length (ownKeys (truncateChildren node))
       <= List.length (ownKeys node)
    /\ (NoDup (ownKeys node) -> hasOwn "__proto__" node = false ->
        Permutation (ownKeys (truncateChildren node)) (ownKeys node)).
Proof.
  intros node.
  assert (forall key, In key (ownKeys (truncateChildren node))
                      <-> In key (ownKeys node)
                          /\ String.eqb key "__proto__" = false) as Hkeys.
  { intros key. rewrite <- !hasOwn_In. unfold hasOwn at 1.
    rewrite ownGet_truncateChildren.
    destruct (hasOwn key node), (String.eqb key "__proto__"); cbn;
      intuition congruence. }
  destruct (emptied_invariant (ownKeys node) (Folders []))
    as [Hnd Hall]; [constructor|constructor|].
  fold (truncateChildren node) in Hnd, Hall.
  destruct (truncateChildren node) as [l] eqn:El. cbn [childrenOf] in Hall.
  destruct (flat_count l Hall) as [Hc Hd].
  split; [intros key; rewrite <- El; apply ownGet_truncateChildren|].
  split; [exact Hd|]. split.
  - rewrite Hc. unfold ownKeys. cbn [childrenOf]. now rewrite length_map.
  - split; [exact Hnd|]. split.
    + apply NoDup_incl_length; [exact Hnd|].
      intros key Hin. now apply Hkeys.
    + intros Hnode Hproto. apply NoDup_Permutation; [exact Hnd|exact Hnode|].
      intros key. rewrite Hkeys. split; [tauto|]. intros Hin.
      split; [exact Hin|]. destruct (String.eqb key "__proto__") eqn:E;
        [|reflexivity].
      apply String.eqb_eq in E. subst key. apply hasOwn_In in Hin.
      congruence.
Qed.


(** ** The pruning tool *)

Lemma distinctKeys_unfold (l : list (string * Hierarchy)) :
  distinctKeys (Folders l)
  <-> NoDup (map fst l) /\ Forall (fun entry => distinctKeys (snd entry)) l.
Proof.
  cbn [distinctKeys]. apply and_iff_compat_l.
  induction l as [|[k v] l IH].
  - split; [constructor|trivial].
  - rewrite IH. split.
    + intros [Hv Hl]. now constructor.
    + intros H. inversion H; subst. now split.
Qed.

Lemma distinctKeys_children (h : Hierarchy) :
  distinctKeys h
  <-> NoDup (ownKeys h)
      /\ Forall (fun entry => distinctKeys (snd entry)) (childrenOf h).
Proof. destruct h as [l]. apply distinctKeys_unfold. Qed.

Lemma distinctKeys_ownSet (key : string) (v h : Hierarchy) :
  distinctKeys h -> distinctKeys v -> distinctKeys (ownSet key v h).
Proof.
  rewrite !distinctKeys_children. intros [Hnd Hall] Hv. split.
  - now apply NoDup_ownKeys_ownSet.
  - apply (children_ownSet distinctKeys); [|exact Hall].
    now apply distinctKeys_children.
Qed.

Lemma distinctKeys_assign (key : string) (v h : Hierarchy) :
  distinctKeys h -> distinctKeys v -> distinctKeys (assign key v h).
Proof.
  intros Hh Hv. unfold assign. destruct (String.eqb key "__proto__");
    [exact Hh|now apply distinctKeys_ownSet].
Qed.

Lemma distinctKeys_empty : distinctKeys (Folders []).
Proof. apply distinctKeys_unfold. split; constructor. Qed.

Lemma distinctKeys_truncateChildren (node : Hierarchy) :
  distinctKeys (truncateChildren node).
Proof.
  destruct (emptied_invariant (ownKeys node) (Folders []))
    as [Hnd Hall]; [constructor|constructor|].
  fold (truncateChildren node) in Hnd, Hall.
  apply distinctKeys_children. split; [exact Hnd|].
  eapply Forall_impl; [|exact Hall].
  intros [k v] E. cbn [snd] in *. subst v. apply distinctKeys_empty.
Qed.

Lemma pruningOf_refl (n : Hierarchy) : pruningOf n n.
Proof. intros p x H. now exists x. Qed.

Lemma pruningOf_empty (n : Hierarchy) : pruningOf (Folders []) n.
Proof.
  intros [|f rest] x H.
  - now exists n.
  - simpl in H. destruct (inherited f); [destruct rest|]; discriminate.
Qed.

Lemma childrenPruned_pruningOf (r n : Hierarchy) :
  childrenPruned r n -> pruningOf r n.
Proof.
  intros H [|key rest] x Hw; [now exists n|].
  cbn [walk] in Hw |- *. destruct (ownGet key r) as [c|] eqn:E.
  - destruct (H key c E) as (c' & -> & Hc). exact (Hc rest x Hw).
  - destruct (inherited key); [destruct rest|]; discriminate.
Qed.

Lemma childrenPruned_empty (n : Hierarchy) : childrenPruned (Folders []) n.
Proof. intros key c H. discriminate H. Qed.

Lemma childrenPruned_assign (key : string) (c child r n : Hierarchy) :
  childrenPruned r n -> ownGet key n = Some child -> pruningOf c child ->
  childrenPruned (assign key c r) n.
Proof.
  intros Hr Hn Hc k x. rewrite ownGet_assign.
  destruct (String.eqb k key && negb (String.eqb key "__proto__")) eqn:E.
  - intros [= <-]. apply andb_true_iff in E. destruct E as [E _].
    apply String.eqb_eq in E. subst k. now exists child.
  - apply Hr.
Qed.

Lemma pruningOf_truncateChildren (node : Hierarchy) :
  pruningOf (truncateChildren node) node.
Proof.
  apply childrenPruned_pruningOf. intros key c.
  rewrite ownGet_truncateChildren. unfold hasOwn.
  destruct (ownGet key node) as [c'|]; [|discriminate].
  destruct (negb (String.eqb key "__proto__")); [|discriminate].
  intros [= <-]. exists c'. split; [reflexivity|apply pruningOf_empty].
Qed.

Lemma leftOf_refl (input : list string) : leftOf input input.
Proof. now exists []. Qed.

Lemma leftOf_cons (a : string) (rest input : list string) :
  leftOf rest input -> leftOf rest (a :: input).
Proof. intros [used ->]. now exists (a :: used). Qed.

Lemma leftOf_trans (a b c : list string) :
  leftOf a b -> leftOf b c -> leftOf a c.
Proof.
  intros [u ->] [w ->]. exists (w ++ u). now rewrite app_assoc.
Qed.

Lemma selectChildren_spec
    (recur : Hierarchy -> list string -> Run Hierarchy) (n : Hierarchy)
    (toKeep toRecurse : list nat) (l : list (string * Hierarchy)) :
  Forall (childReady recur n) l ->
  forall i result input final rest,
    childrenPruned result n -> distinctKeys result ->
    selectChildren recur toKeep toRecurse l i result input = Done final rest ->
    childrenPruned final n /\ distinctKeys final /\ leftOf rest input.
Proof.
  induction 1 as [|[key child] l (Hget & Hd & Hrec) _ IH];
    intros i result input final rest Hres Hdis; cbn [selectChildren].
  - intros [= <- <-]. split; [exact Hres|]. split; [exact Hdis|].
    apply leftOf_refl.
  - cbn [fst snd] in *. destruct (setHas i toKeep); [|now apply IH].
    destruct (setHas i toRecurse).
    + destruct (recur child input) as [c input'| |] eqn:E; try discriminate.
      destruct (Hrec _ _ _ E) as (Hc & Hdc & Hleft). intros Hrun.
      destruct (IH _ _ _ _ _
                  (childrenPruned_assign key c child result n Hres Hget Hc)
                  (distinctKeys_assign key c result Hdis Hdc) Hrun)
        as (H1 & H2 & H3).
      split; [exact H1|]. split; [exact H2|].
      exact (leftOf_trans _ _ _ H3 Hleft).
    + apply IH.
      * exact (childrenPruned_assign key child child result n Hres Hget
                 (pruningOf_refl child)).
      * now apply distinctKeys_assign.
Qed.

Lemma recurseChildren_spec
    (recur : Hierarchy -> list string -> Run Hierarchy) (n : Hierarchy)
    (l : list (string * Hierarchy)) :
  Forall (childReady recur n) l ->
  forall result input final rest,
    childrenPruned result n -> distinctKeys result ->
    recurseChildren recur l result input = Done final rest ->
    childrenPruned final n /\ distinctKeys final /\ leftOf rest input.
Proof.
  induction 1 as [|[key child] l (Hget & Hd & Hrec) _ IH];
    intros result input final rest Hres Hdis; cbn [recurseChildren].
  - intros [= <- <-]. split; [exact Hres|]. split; [exact Hdis|].
    apply leftOf_refl.
  - cbn [fst snd] in *.
    assert (forall c input' final rest,
              pruningOf c child -> distinctKeys c ->
              recurseChildren recur l (assign key c result) input'
              = Done final rest ->
              childrenPruned final n /\ distinctKeys final
              /\ leftOf rest input') as Hstep.
    { intros c input' final' rest' Hc Hdc. apply IH.
      - exact (childrenPruned_assign key c child result n Hres Hget Hc).
      - now apply distinctKeys_assign. }
    assert (forall a input' final rest,
              (childrenPruned final n /\ distinctKeys final
               /\ leftOf rest input') ->
              childrenPruned final n /\ distinctKeys final
              /\ leftOf rest (a :: input')) as Hcons.
    { intros a input' f r (H1 & H2 & H3).
      split; [exact H1|]. split; [exact H2|]. now apply leftOf_cons. }
    destruct (countDescendants child =? 0).
    + destruct input as [|keepIt input']; [discriminate|].
      intros Hrun. apply Hcons.
      destruct (String.eqb keepIt "y" || String.eqb keepIt "yes").
      * apply (Hstep _ _ _ _ (pruningOf_empty child) distinctKeys_empty Hrun).
      * now apply (IH _ _ _ _ Hres Hdis).
    + destruct input as [|childAnswer input']; [discriminate|].
      intros Hrun. apply Hcons.
      destruct (String.eqb childAnswer "k");
        [exact (Hstep _ _ _ _ (pruningOf_refl child) Hd Hrun)|].
      destruct (String.eqb childAnswer "p");
        [now apply (IH _ _ _ _ Hres Hdis)|].
      destruct (String.eqb childAnswer "t");
        [exact (Hstep _ _ _ _ (pruningOf_truncateChildren child)
                  (distinctKeys_truncateChildren child) Hrun)|].
      destruct (String.eqb childAnswer "r");
        [|exact (Hstep _ _ _ _ (pruningOf_refl child) Hd Hrun)].
      destruct (recur child input') as [c input''| |] eqn:E;
        try discriminate.
      destruct (Hrec _ _ _ E) as (Hc & Hdc & Hleft).
      destruct (Hstep _ _ _ _ Hc Hdc Hrun) as (H1 & H2 & H3).
      split; [exact H1|]. split; [exact H2|].
      exact (leftOf_trans _ _ _ H3 Hleft).
Qed.

Lemma processNode_spec (trim : string -> string)
    (parseInt : string -> option Z) (node : Hierarchy) :
  distinctKeys node ->
  forall input result rest,
    processNode trim parseInt node input = Done result rest ->
    pruningOf result node /\ distinctKeys result /\ leftOf rest input.
Proof.
  induction node as [children IH] using Hierarchy_induction.
  intros Hd input result rest.
  assert (Forall (childReady (processNode trim parseInt) (Folders children))
                 children) as Hready.
  { apply distinctKeys_unfold in Hd. destruct Hd as [Hnd Hall].
    apply Forall_forall. intros [k c] Hin.
    pose proof (proj1 (Forall_forall _ _) IH _ Hin) as IHc.
    pose proof (proj1 (Forall_forall _ _) Hall _ Hin) as Hdc.
    cbn [snd] in IHc, Hdc. split; [|split; [exact Hdc|]].
    - cbn [fst snd]. unfold ownGet. cbn [childrenOf].
      now apply In_get.
    - cbn [snd]. intros i r rs. now apply IHc. }
  assert (forall final rest' input',
            childrenPruned final (Folders children) /\ distinctKeys final
            /\ leftOf rest' input' ->
            pruningOf final (Folders children) /\ distinctKeys final
            /\ leftOf rest' input') as Hlift.
  { intros f r i (H1 & H2 & H3). split; [|now split].
    now apply childrenPruned_pruningOf. }
  assert (forall rs, leftOf rs rs) as Hrefl by apply leftOf_refl.
  cbn [processNode].
  destruct (List.length children =? 0).
  { intros [= <- <-]. split; [apply pruningOf_empty|].
    split; [apply distinctKeys_empty|apply Hrefl]. }
  destruct input as [|answer input']; [discriminate|].
  destruct (String.eqb answer "q"); [discriminate|].
  destruct (String.eqb answer "k").
  { intros [= <- <-]. split; [apply pruningOf_refl|].
    split; [exact Hd|apply leftOf_cons, Hrefl]. }
  destruct (String.eqb answer "p").
  { intros [= <- <-]. split; [apply pruningOf_empty|].
    split; [apply distinctKeys_empty|apply leftOf_cons, Hrefl]. }
  destruct (String.eqb answer "t").
  { intros [= <- <-]. split; [apply pruningOf_truncateChildren|].
    split; [apply distinctKeys_truncateChildren|apply leftOf_cons, Hrefl]. }
  destruct (String.eqb answer "s").
  { destruct input' as [|selection input'']; [discriminate|].
    destruct (String.eqb selection "all").
    { intros [= <- <-]. split; [apply pruningOf_refl|].
      split; [exact Hd|do 2 apply leftOf_cons; apply Hrefl]. }
    destruct (String.eqb selection "none").
    { intros [= <- <-]. split; [apply pruningOf_empty|].
      split; [apply distinctKeys_empty|do 2 apply leftOf_cons; apply Hrefl]. }
    destruct (parseSelection trim parseInt selection (List.length children))
      as [toKeep toRecurse].
    intros Hrun. apply Hlift.
    destruct (selectChildren_spec _ _ _ _ _ Hready _ _ _ _ _
                (childrenPruned_empty _) distinctKeys_empty Hrun)
      as (H1 & H2 & H3).
    split; [exact H1|]. split; [exact H2|]. now do 2 apply leftOf_cons. }
  destruct (String.eqb answer "r").
  { intros Hrun. apply Hlift.
    destruct (recurseChildren_spec _ _ _ Hready _ _ _ _
                (childrenPruned_empty _) distinctKeys_empty Hrun)
      as (H1 & H2 & H3).
    split; [exact H1|]. split; [exact H2|]. now apply leftOf_cons. }
  intros [= <- <-]. split; [apply pruningOf_refl|].
  split; [exact Hd|apply leftOf_cons, Hrefl].
Qed.

Lemma paths_head (l : list (string * Hierarchy)) (p : list string) :
  In p (paths (Folders l)) ->
  exists key rest, p = key :: rest /\ In key (map fst l).
Proof.
  induction l as [|[k v] l IH]; intros Hin; [contradiction|].
  rewrite paths_cons in Hin. apply in_app_or in Hin.
  destruct Hin as [[<-|Hin]|Hin].
  - exists k, []. split; [reflexivity|now left].
  - apply in_map_iff in Hin. destruct Hin as (q & <- & _).
    exists k, q. split; [reflexivity|now left].
  - destruct (IH Hin) as (key & rest & -> & Hk).
    exists key, rest. split; [reflexivity|now right].
Qed.

Lemma NoDup_map_cons (key : string) (l : list (list string)) :
  NoDup l -> NoDup (map (cons key) l).
Proof.
  induction 1 as [|p l Hp _ IH]; [constructor|].
  cbn [map]. constructor; [|exact IH].
  intros Hin. apply in_map_iff in Hin. destruct Hin as (q & E & Hq).
  injection E as ->. contradiction.
Qed.

Lemma NoDup_paths (h : Hierarchy) : distinctKeys h -> NoDup (paths h).
Proof.
  induction h as [children IH] using Hierarchy_induction.
  rewrite distinctKeys_unfold. intros [Hnd Hall].
  induction children as [|[k v] l IHl]; [constructor|].
  inversion IH as [|? ? Hv Hl]; subst. cbn [snd] in Hv.
  inversion Hall as [|? ? Hdv Hdl]; subst. cbn [snd] in Hdv.
  cbn [map fst] in Hnd. inversion Hnd as [|? ? Hnotin Hnd']; subst.
  rewrite paths_cons. apply NoDup_app.
  - constructor.
    + intros Hin. apply in_map_iff in Hin. destruct Hin as (q & E & Hq).
      injection E as ->.
      exact (proj1 (Forall_forall _ _) (paths_nonempty v) [] Hq eq_refl).
    + now apply NoDup_map_cons, Hv.
  - now apply IHl.
  - intros p Hp Hin. destruct (paths_head l p Hin) as (key & rest & -> & Hk).
    destruct Hp as [E|Hp].
    + injection E as -> _. contradiction.
    + apply in_map_iff in Hp. destruct Hp as (q & E & _).
      injection E as -> _. contradiction.
Qed.

Lemma pruningOf_count (r n : Hierarchy) :
  distinctKeys r -> pruningOf r n ->
  countDescendants r <= countDescendants n.
Proof.
  intros Hd Hp. rewrite <- !length_paths.
  apply NoDup_incl_length; [now apply NoDup_paths|].
  intros p Hin. destruct (walk_paths r p Hd Hin) as [x Hx].
  apply paths_walk; [|exact (Hp p x Hx)].
  exact (proj1 (Forall_forall _ _) (paths_nonempty r) p Hin).
Qed.

(** X20. Whatever the user answers, a hierarchy that [processNode]
    returns is a pruning of the node it was given: every folder of the
    result is a folder of the node at the same path, so the result has at
    most as many folders as the node; and the lines left unread are a
    tail of the input. *)
Theorem X20_processNode_prunes :
  forall (trim : string -> string) (parseInt : string -> option Z)
         (node : Hierarchy) (input : list string)
         (result : Hierarchy) (rest : list string),
    distinctKeys node ->
    processNode trim parseInt node input = Done result rest ->
    pruningOf result node
    /\ countDescendants result <= countDescendants node
    /\ distinctKeys result
    /\ leftOf rest input.
Proof.
  intros trim parseInt node input result rest Hd Hrun.
  destruct (processNode_spec trim parseInt node Hd _ _ _ Hrun)
    as (H1 & H2 & H3).
  split; [exact H1|]. split; [now apply pruningOf_count|]. now split.
Qed.

Lemma X20_processNode_prunes_witness :
  let result := Folders [("Work"%string,
                          Folders [("Reports"%string, Folders [])])] in
  processNode (fun s => s) (fun _ => None) sampleHierarchy
              ["r"; "r"; "k"; "n"]%string
  = Done result []
  /\ countDescendants result <= countDescendants sampleHierarchy.
Proof.
  intros result.
  assert (distinctKeys sampleHierarchy) as Hd.
  { simpl. repeat split; repeat constructor; simpl; intuition discriminate. }
  assert (processNode (fun s => s) (fun _ => None) sampleHierarchy
                      ["r"; "r"; "k"; "n"]%string
          = Done result []) as Hrun by reflexivity.
  split; [exact Hrun|].
  exact (proj1 (proj2 (X20_processNode_prunes _ _ _ _ _ _ Hd Hrun))).
Defined.


(** ** printPreview *)

Lemma pushLines_length (maxLines : nat) (childLines lines : list string) :
  List.length lines <= maxLines ->
  List.length (pushLines maxLines lines childLines) <= maxLines.
Proof.
  revert lines. induction childLines as [|line more IH]; intros lines Hle;
    cbn [pushLines]; [exact Hle|].
  destruct (maxLines <=? List.length lines) eqn:E; [exact Hle|].
  apply Nat.leb_gt in E. apply IH. rewrite length_app. simpl. lia.
Qed.

Lemma pushLines_prefix (maxLines : nat) (childLines lines : list string) :
  exists added, pushLines maxLines lines childLines = lines ++ added.
Proof.
  revert lines. induction childLines as [|line more IH]; intros lines;
    cbn [pushLines].
  - exists []. now rewrite app_nil_r.
  - destruct (maxLines <=? List.length lines).
    + exists []. now rewrite app_nil_r.
    + destruct (IH (lines ++ [line])) as [added ->].
      exists (line :: added). now rewrite <- app_assoc.
Qed.

Lemma previewEntries_spec
    (recur : Hierarchy -> nat -> nat -> list string)
    (keys indent maxLines : nat) (l : list (string * Hierarchy)) :
  forall lines,
    List.length lines <= maxLines ->
    let out := previewEntries recur keys indent maxLines l lines in
    List.length out <= maxLines + 1
    /\ (exists added, out = lines ++ added)
    /\ (List.length out = maxLines + 1 ->
        last out EmptyString
        = moreLine indent (Z.of_nat keys - Z.of_nat maxLines)).
Proof.
  induction l as [|[key value] l IH]; intros lines Hle; cbn [previewEntries].
  - split; [lia|]. split; [exists []; now rewrite app_nil_r|]. lia.
  - destruct (maxLines <=? List.length lines) eqn:E.
    + apply Nat.leb_le in E. assert (List.length lines = maxLines) as El by lia.
      split; [rewrite length_app; simpl; lia|].
      split; [now eexists|]. intros _. now rewrite last_last, El.
    + apply Nat.leb_gt in E.
      set (lines1 := lines ++ [folderLine indent key (countDescendants value)]).
      assert (List.length lines1 <= maxLines) as H1
        by (unfold lines1; rewrite length_app; simpl; lia).
      assert (forall lines2,
                List.length lines2 <= maxLines ->
                (exists added, lines2 = lines1 ++ added) ->
                let out := previewEntries recur keys indent maxLines l lines2 in
                List.length out <= maxLines + 1
                /\ (exists added, out = lines ++ added)
                /\ (List.length out = maxLines + 1 ->
                    last out EmptyString
                    = moreLine indent (Z.of_nat keys - Z.of_nat maxLines)))
        as Hnext.
      { intros lines2 H2 [added2 E2]. destruct (IH lines2 H2) as (A & [added B] & C).
        split; [exact A|]. split; [|exact C].
        exists ([folderLine indent key (countDescendants value)]
                ++ added2 ++ added).
        rewrite B, E2. unfold lines1. now rewrite <- !app_assoc. }
      destruct ((indent <? 2) && (0 <? List.length (childrenOf value))).
      * apply Hnext; [now apply pushLines_length|apply pushLines_prefix].
      * apply Hnext; [exact H1|]. exists []. now rewrite app_nil_r.
Qed.

Lemma previewEntries_first
    (recur : Hierarchy -> nat -> nat -> list string)
    (keys indent maxLines : nat) (key : string) (value : Hierarchy)
    (l : list (string * Hierarchy)) :
  0 < maxLines ->
  exists more,
    previewEntries recur keys indent maxLines ((key, value) :: l) []
    = folderLine indent key (countDescendants value) :: more.
Proof.
  intros Hpos. cbn [previewEntries List.length].
  replace (maxLines <=? 0) with false
    by (symmetry; apply Nat.leb_gt; exact Hpos).
  cbn [app].
  assert (List.length [folderLine indent key (countDescendants value)]
          <= maxLines) as H1 by (simpl; lia).
  destruct ((indent <? 2) && (0 <? List.length (childrenOf value))).
  - destruct (pushLines_prefix maxLines
                (recur value (indent + 1) 5)
                [folderLine indent key (countDescendants value)])
      as [added E].
    rewrite E.
    assert (List.length ([folderLine indent key (countDescendants value)]
                         ++ added) <= maxLines) as H2
      by (rewrite <- E; now apply pushLines_length).
    destruct (previewEntries_spec recur keys indent maxLines l _ H2)
      as (_ & [added' ->] & _).
    now eexists.
  - destruct (previewEntries_spec recur keys indent maxLines l _ H1)
      as (_ & [added' ->] & _).
    now eexists.
Qed.

(** X21. The preview [printPreview] builds has at most [maxLines + 1]
    lines, it is empty for a node without children, and with a positive
    limit it starts with the line of the node's first child.  When it has
    [maxLines + 1] lines the last one is the "... and N more" line, and N
    is the number of the node's children minus [maxLines]: the lines of
    grandchildren count against it, so N is not the number of children
    left out, and it is negative when the node has fewer than [maxLines]
    children. *)
Theorem X21_printPreview :
  forall (node : Hierarchy) (indent maxLines : nat),
    List.length (printPreview node indent maxLines) <= maxLines + 1
    /\ (ownKeys node = [] -> printPreview node indent maxLines = [])
    /\ (0 < maxLines ->
        forall key value rest,
          childrenOf node = (key, value) :: rest ->
          exists more,
            printPreview node indent maxLines
            = folderLine indent key (countDescendants value) :: more)
    /\ (List.length (printPreview node indent maxLines) = maxLines + 1 ->
        last (printPreview node indent maxLines) EmptyString
        = moreLine indent
            (Z.of_nat (List.length (ownKeys node)) - Z.of_nat maxLines)).
Proof.
  intros [children] indent maxLines. cbn [printPreview].
  destruct (previewEntries_spec printPreview (List.length children) indent
              maxLines children [] (Nat.le_0_l _)) as (A & _ & C).
  split; [exact A|]. split; [|split].
  - unfold ownKeys. cbn [childrenOf]. destruct children; [reflexivity|].
    discriminate.
  - intros Hpos key value rest E. cbn [childrenOf] in E. subst children.
    now apply previewEntries_first.
  - unfold ownKeys. cbn [childrenOf]. rewrite length_map. exact C.
Qed.


(** ** The clean-up of a suggested file name *)

Lemma Forall_collapse (P : N -> Prop) (s : list N) :
  Forall P s -> Forall P (collapse s).
Proof.
  induction 1 as [|c s Hc Hs IH]; cbn [collapse]; [constructor|].
  destruct (c =? 95)%N; [|now constructor].
  destruct s as [|d s]; [now repeat constructor|].
  destruct (d =? 95)%N; [exact IH|now constructor].
Qed.

Lemma hd_collapse (s : list N) : hd_error (collapse s) = hd_error s.
Proof.
  induction s as [|c s IH]; [reflexivity|]. cbn [collapse].
  destruct (c =? 95)%N eqn:E; [|reflexivity].
  destruct s as [|d s]; [reflexivity|].
  destruct (d =? 95)%N eqn:E'; [|reflexivity].
  rewrite IH. apply N.eqb_eq in E, E'. now subst.
Qed.

Lemma single_collapse (s : list N) : single (collapse s) = true.
Proof.
  induction s as [|c s IH]; [reflexivity|]. cbn [collapse].
  pose proof (hd_collapse s) as Hh.
  destruct (c =? 95)%N eqn:E.
  - destruct s as [|d s]; [reflexivity|].
    destruct (d =? 95)%N eqn:E'; [exact IH|].
    cbn [single]. destruct (collapse (d :: s)) as [|e t]; [reflexivity|].
    injection Hh as ->. now rewrite E, E', IH.
  - cbn [single]. destruct (collapse s) as [|e t]; [reflexivity|].
    now rewrite E, IH.
Qed.

Lemma collapse_single (s : list N) : single s = true -> collapse s = s.
Proof.
  induction s as [|c s IH]; [reflexivity|]. cbn [single collapse].
  destruct s as [|d s].
  - intros _. now destruct (c =? 95)%N.
  - intros H. apply andb_true_iff in H. destruct H as [H1 H2].
    rewrite (IH H2). destruct (c =? 95)%N; [|reflexivity].
    destruct (d =? 95)%N; [discriminate|reflexivity].
Qed.

Lemma single_tail (c : N) (s : list N) :
  single (c :: s) = true -> single s = true.
Proof.
  cbn [single]. destruct s as [|d s]; [reflexivity|].
  intros H. now apply andb_true_iff in H.
Qed.

Lemma dropLast_head (d e : N) (s t : list N) :
  dropLast (d :: s) = e :: t -> e = d.
Proof.
  cbn [dropLast]. destruct s as [|x s].
  - destruct (d =? 95)%N; [discriminate|]. now intros [= ->].
  - now intros [= ->].
Qed.

Lemma single_dropLast (s : list N) :
  single s = true -> single (dropLast s) = true.
Proof.
  induction s as [|c s IH]; [reflexivity|]. intros H.
  destruct s as [|d s].
  - cbn [dropLast]. now destruct (c =? 95)%N.
  - pose proof (IH (single_tail _ _ H)) as IH'.
    change (dropLast (c :: d :: s)) with (c :: dropLast (d :: s)).
    destruct (dropLast (d :: s)) as [|e t] eqn:Ed; [reflexivity|].
    apply dropLast_head in Ed. subst e.
    cbn [single] in H |- *. apply andb_true_iff in H. destruct H as [H1 _].
    rewrite H1. exact IH'.
Qed.

Lemma Forall_dropLast (P : N -> Prop) (s : list N) :
  Forall P s -> Forall P (dropLast s).
Proof.
  induction 1 as [|c s Hc Hs IH]; cbn [dropLast]; [constructor|].
  destruct s as [|d s].
  - destruct (c =? 95)%N; now repeat constructor.
  - now constructor.
Qed.

Lemma Forall_dropFirst (P : N -> Prop) (s : list N) :
  Forall P s -> Forall P (dropFirst s).
Proof.
  intros H. destruct H as [|c s Hc Hs]; cbn [dropFirst]; [constructor|].
  destruct (c =? 95)%N; [exact Hs|now constructor].
Qed.

Lemma single_dropFirst (s : list N) :
  single s = true ->
  single (dropFirst s) = true /\ hd_error (dropFirst s) <> Some underscore.
Proof.
  destruct s as [|c s]; [intros _; split; [reflexivity|discriminate]|].
  intros H. cbn [dropFirst]. destruct (c =? 95)%N eqn:E.
  - split; [now apply (single_tail c)|].
    destruct s as [|d s]; [discriminate|].
    cbn [single] in H. rewrite E in H. cbn [hd_error].
    intros [= Hd]. unfold underscore in Hd. subst d. discriminate H.
  - split; [exact H|]. cbn [hd_error]. intros [= Hc].
    unfold underscore in Hc. subst c. discriminate E.
Qed.

Lemma last_dropLast (s : list N) :
  single s = true -> dropLast s <> [] -> last (dropLast s) 0%N <> underscore.
Proof.
  induction s as [|c s IH]; [intros _ H; now contradiction H|].
  intros Hs. cbn [dropLast]. destruct s as [|d s].
  - destruct (c =? 95)%N eqn:E; [intros H; now contradiction H|].
    intros _. cbn [last]. apply N.eqb_neq in E. exact E.
  - pose proof (IH (single_tail _ _ Hs)) as IH'. intros _.
    destruct (dropLast (d :: s)) as [|e t] eqn:Ed.
    + cbn [last].
      assert (s = [] /\ d = 95%N) as [-> ->].
      { cbn [dropLast] in Ed. destruct s as [|e s]; [|discriminate].
        destruct (d =? 95)%N eqn:E'; [|discriminate].
        apply N.eqb_eq in E'. now split. }
      cbn [single] in Hs. intros Hc. unfold underscore in Hc. subst c.
      discriminate Hs.
    + change (last (c :: e :: t) 0%N) with (last (e :: t) 0%N).
      apply IH'. discriminate.
Qed.

Lemma hd_dropLast (s : list N) :
  hd_error s <> Some underscore -> hd_error (dropLast s) <> Some underscore.
Proof.
  destruct s as [|c s]; [intros _; discriminate|].
  cbn [dropLast]. destruct s as [|d s]; [|now cbn].
  destruct (c =? 95)%N; [intros _; discriminate|now cbn].
Qed.

Lemma cleanName_tidy (lowered : list N) : tidy (cleanName lowered).
Proof.
  unfold cleanName.
  assert (Forall (fun c => isNameChar c = true) (replaceOthers lowered))
    as Hall.
  { unfold replaceOthers. apply Forall_map, Forall_forall. intros c _.
    destruct (isNameChar c) eqn:E; [exact E|reflexivity]. }
  pose proof (single_collapse (replaceOthers lowered)) as Hs.
  destruct (single_dropFirst _ Hs) as [Hs1 Hh].
  split; [|split; [|split]].
  - now apply Forall_dropLast, Forall_dropFirst, Forall_collapse.
  - now apply single_dropLast.
  - now apply hd_dropLast.
  - now apply last_dropLast.
Qed.

Lemma dropLast_fixed (s : list N) :
  (s <> [] -> last s 0%N <> underscore) -> dropLast s = s.
Proof.
  induction s as [|c s IH]; [reflexivity|]. intros H. cbn [dropLast].
  destruct s as [|d s].
  - destruct (c =? 95)%N eqn:E; [|reflexivity].
    apply N.eqb_eq in E. subst c. exfalso. apply H; [discriminate|reflexivity].
  - f_equal. apply IH. intros _. apply H. discriminate.
Qed.

Lemma cleanName_fixed (s : list N) : tidy s -> cleanName s = s.
Proof.
  intros (Hall & Hs & Hh & Hl). unfold cleanName.
  assert (replaceOthers s = s) as ->.
  { clear - Hall. unfold replaceOthers.
    induction Hall as [|c s Hc _ IH]; [reflexivity|].
    cbn [map]. rewrite Hc. now f_equal. }
  rewrite (collapse_single _ Hs).
  assert (dropFirst s = s) as ->.
  { destruct s as [|c s]; [reflexivity|]. cbn [dropFirst].
    destruct (c =? 95)%N eqn:E; [|reflexivity].
    apply N.eqb_eq in E. subst c. now contradiction Hh. }
  now apply dropLast_fixed.
Qed.

Lemma isAlnum_spec (c : N) :
  isAlnum c = true -> isNameChar c = true /\ c <> 95%N.
Proof.
  unfold isAlnum, isNameChar. intros H. rewrite H. split; [reflexivity|].
  rewrite orb_true_iff, !andb_true_iff, !N.leb_le in H. lia.
Qed.

Lemma isAlnum_false (c : N) :
  isAlnum c = false -> (if isNameChar c then c else underscore) = 95%N.
Proof.
  unfold isAlnum, isNameChar. intros ->. cbn [orb].
  destruct (c =? 95)%N eqn:E; [now apply N.eqb_eq in E|reflexivity].
Qed.

Lemma In_collapse (c : N) (s : list N) :
  c <> 95%N -> In c s -> In c (collapse s).
Proof.
  intros Hc. induction s as [|d s IH]; [contradiction|].
  intros [->|Hin]; cbn [collapse].
  - apply N.eqb_neq in Hc. rewrite Hc. now left.
  - destruct (d =? 95)%N; [|right; now apply IH].
    destruct s as [|e s]; [contradiction|].
    destruct (e =? 95)%N; [now apply IH|right; now apply IH].
Qed.

Lemma In_dropFirst (c : N) (s : list N) :
  c <> 95%N -> In c s -> In c (dropFirst s).
Proof.
  intros Hc. destruct s as [|d s]; [contradiction|]. cbn [dropFirst].
  destruct (d =? 95)%N eqn:E; [|trivial].
  apply N.eqb_eq in E. subst d. intros [E|Hin]; [congruence|exact Hin].
Qed.

Lemma In_dropLast (c : N) (s : list N) :
  c <> 95%N -> In c s -> In c (dropLast s).
Proof.
  intros Hc. induction s as [|d s IH]; [contradiction|].
  destruct s as [|e s].
  - cbn [dropLast]. destruct (d =? 95)%N eqn:E; [|trivial].
    apply N.eqb_eq in E. subst d. intros [E|[]]. congruence.
  - change (dropLast (d :: e :: s)) with (d :: dropLast (e :: s)).
    intros [->|Hin]; [now left|right; now apply IH].
Qed.

Lemma collapse_underscores (s : list N) :
  Forall (fun c => c = 95%N) s -> collapse s = [] \/ collapse s = [95%N].
Proof.
  induction 1 as [|c s Hc Hs IH]; [now left|]. subst c. cbn [collapse].
  cbn [N.eqb Pos.eqb]. destruct s as [|d s]; [now right|].
  inversion Hs; subst. exact IH.
Qed.

Lemma cleanName_empty (lowered : list N) :
  cleanName lowered = [] <-> Forall (fun c => isAlnum c = false) lowered.
Proof.
  split.
  - intros E. apply Forall_forall. intros c Hin.
    destruct (isAlnum c) eqn:Hc; [|reflexivity]. exfalso.
    destruct (isAlnum_spec c Hc) as [Hn Hne].
    assert (In c (cleanName lowered)) as H; [|now rewrite E in H].
    unfold cleanName.
    apply In_dropLast, In_dropFirst, In_collapse; try exact Hne.
    unfold replaceOthers. apply in_map_iff. exists c. now rewrite Hn.
  - intros H. unfold cleanName.
    assert (Forall (fun c => c = 95%N) (replaceOthers lowered)) as Hu.
    { unfold replaceOthers. apply Forall_map.
      eapply Forall_impl; [|exact H]. intros c. apply isAlnum_false. }
    destruct (collapse_underscores _ Hu) as [-> | ->]; reflexivity.
Qed.

Lemma length_collapse (s : list N) :
  List.length (collapse s) <= List.length s.
Proof.
  induction s as [|c s IH]; [reflexivity|]. cbn [collapse].
  destruct (c =? 95)%N.
  - destruct s as [|d s]; [reflexivity|].
    destruct (d =? 95)%N; cbn [List.length] in *; lia.
  - cbn [List.length]. lia.
Qed.

Lemma length_dropLast (s : list N) :
  List.length (dropLast s) <= List.length s.
Proof.
  induction s as [|c s IH]; [reflexivity|].
  destruct s as [|d s].
  - cbn [dropLast]. destruct (c =? 95)%N; simpl; lia.
  - change (dropLast (c :: d :: s)) with (c :: dropLast (d :: s)).
    cbn [List.length] in *. lia.
Qed.

Lemma length_dropFirst (s : list N) :
  List.length (dropFirst s) <= List.length s.
Proof.
  destruct s as [|c s]; [reflexivity|]. cbn [dropFirst].
  destruct (c =? 95)%N; simpl; lia.
Qed.

(** X22. The clean-up of the file name the model suggests (the three
    [replace] calls after [toLowerCase]) always leaves a name made of
    lower-case letters, digits and underscores, with no two underscores in
    a row and none at the start or the end; a name of that form is left
    as it is, so cleaning twice changes nothing; the result is never
    longer than the input; and it is the empty string exactly when the
    input holds no lower-case letter and no digit, in which case the new
    file name is the bare extension. *)
Theorem X22_cleanName :
  forall lowered : list N,
    tidy (cleanName lowered)
    /\ (tidy lowered -> cleanName lowered = lowered)
    /\ cleanName (cleanName lowered) = cleanName lowered
    /\ List.length (cleanName lowered) <= List.length lowered
    /\ (cleanName lowered = []
        <-> Forall (fun c => isAlnum c = false) lowered).
Proof.
  intros lowered. split; [apply cleanName_tidy|].
  split; [apply cleanName_fixed|].
  split; [apply cleanName_fixed, cleanName_tidy|].
  split; [|apply cleanName_empty].
  unfold cleanName.
  pose proof (length_dropLast (dropFirst (collapse (replaceOthers lowered)))).
  pose proof (length_dropFirst (collapse (replaceOthers lowered))).
  pose proof (length_collapse (replaceOthers lowered)).
  assert (List.length (replaceOthers lowered) = List.length lowered)
    by apply length_map.
  lia.
Qed.


(** ** Taking the JSON out of a fenced answer *)

Lemma dropSpaces_spaces (w s : list N) :
  spaces w -> dropSpaces (w ++ s) = dropSpaces s.
Proof.
  induction 1 as [|c w Hc _ IH]; [reflexivity|].
  cbn [app dropSpaces]. now rewrite Hc.
Qed.

Lemma dropSpaces_length (s : list N) :
  List.length (dropSpaces s) <= List.length s
  /\ (List.length (dropSpaces s) = List.length s -> dropSpaces s = s).
Proof.
  induction s as [|c s [IH1 IH2]]; [now split|].
  cbn [dropSpaces]. destruct (isSpace c).
  - cbn [List.length]. split; lia.
  - now split.
Qed.

Lemma dropSpacesEnd_length (s : list N) :
  List.length (dropSpacesEnd s) <= List.length s
  /\ (List.length (dropSpacesEnd s) = List.length s -> dropSpacesEnd s = s).
Proof.
  unfold dropSpacesEnd. rewrite length_rev.
  destruct (dropSpaces_length (rev s)) as [H1 H2].
  rewrite length_rev in H1, H2. split; [exact H1|].
  intros E. rewrite (H2 E). apply rev_involutive.
Qed.

Lemma trimmed_both (s : list N) :
  trimmed s -> dropSpaces s = s /\ dropSpacesEnd s = s.
Proof.
  unfold trimmed, trimUnits. intros E.
  destruct (dropSpaces_length s) as [H1 H2].
  destruct (dropSpacesEnd_length (dropSpaces s)) as [H3 _].
  rewrite E in H3. assert (dropSpaces s = s) as E' by (apply H2; lia).
  split; [exact E'|]. now rewrite E' in E.
Qed.

Lemma dropSpacesEnd_spaces (s w : list N) :
  spaces w -> dropSpacesEnd (s ++ w) = dropSpacesEnd s.
Proof.
  intros Hw. unfold dropSpacesEnd. rewrite rev_app_distr.
  rewrite dropSpaces_spaces; [reflexivity|].
  apply Forall_rev. exact Hw.
Qed.

Lemma dropSpacesEnd_fence (s : list N) :
  dropSpacesEnd (s ++ fence) = s ++ fence.
Proof.
  unfold dropSpacesEnd. rewrite rev_app_distr. cbn [fence rev app dropSpaces].
  change (isSpace 96) with false. cbn iota.
  change (96%N :: 96%N :: 96%N :: rev s) with (rev fence ++ rev s).
  now rewrite <- rev_app_distr, rev_involutive.
Qed.

Lemma startsWithUnits_app (p s : list N) : startsWithUnits p (p ++ s) = true.
Proof.
  induction p as [|a p IH]; [reflexivity|].
  cbn [app startsWithUnits]. now rewrite N.eqb_refl, IH.
Qed.

Lemma startsWithUnits_prefix (p q s : list N) :
  startsWithUnits (p ++ q) s = true -> startsWithUnits p s = true.
Proof.
  revert s. induction p as [|a p IH]; intros s; [reflexivity|].
  cbn [app startsWithUnits]. destruct s as [|b s]; [discriminate|].
  intros H. apply andb_true_iff in H. destruct H as [-> H].
  now rewrite (IH s H).
Qed.

Lemma skipn_length_app (p s : list N) : skipn (List.length p) (p ++ s) = s.
Proof. induction p as [|a p IH]; [reflexivity|exact IH]. Qed.

Lemma dropClosing_fenced (s w : list N) :
  spaces w -> dropSpacesEnd s = s -> dropClosing (s ++ w ++ fence) = s.
Proof.
  intros Hw Hs. unfold dropClosing.
  rewrite !app_assoc, rev_app_distr, startsWithUnits_app.
  rewrite length_app. change (List.length fence) with 3.
  replace (List.length (s ++ w) + 3 - 3) with (List.length (s ++ w) + 0)
    by lia.
  rewrite firstn_app_2, firstn_O, app_nil_r.
  now rewrite dropSpacesEnd_spaces.
Qed.

Lemma unfence (opening pre w1 body w2 post : list N) :
  spaces pre -> spaces w1 -> spaces w2 -> spaces post -> trimmed body ->
  (exists c rest, opening = c :: rest /\ isSpace c = false) ->
  let jsonText :=
    trimUnits (pre ++ opening ++ w1 ++ body ++ w2 ++ fence ++ post) in
  jsonText = opening ++ w1 ++ body ++ w2 ++ fence
  /\ dropClosing (dropOpening opening jsonText) = body.
Proof.
  intros Hpre H1 H2 Hpost Hbody (c & rest & -> & Hc) jsonText.
  destruct (trimmed_both body Hbody) as [Hb1 Hb2].
  assert (jsonText = (c :: rest) ++ w1 ++ body ++ w2 ++ fence) as E.
  { unfold jsonText, trimUnits. rewrite (dropSpaces_spaces _ _ Hpre).
    cbn [app dropSpaces]. rewrite Hc.
    replace (c :: rest ++ w1 ++ body ++ w2 ++ fence ++ post)
      with (((c :: rest ++ w1 ++ body ++ w2) ++ fence) ++ post)
      by (cbn [app]; now rewrite <- !app_assoc).
    rewrite (dropSpacesEnd_spaces _ _ Hpost), dropSpacesEnd_fence.
    cbn [app]. now rewrite <- !app_assoc. }
  split; [exact E|]. rewrite E. unfold dropOpening.
  rewrite startsWithUnits_app.
  rewrite skipn_length_app.
  rewrite (dropSpaces_spaces _ _ H1).
  destruct body as [|b body].
  - cbn [app]. rewrite (dropSpaces_spaces _ _ H2).
    reflexivity.
  - assert (isSpace b = false) as Hb.
    { cbn [dropSpaces] in Hb1. destruct (isSpace b) eqn:Eb; [|reflexivity].
      exfalso. pose proof (proj1 (dropSpaces_length body)) as Hl.
      rewrite Hb1 in Hl. cbn [List.length] in Hl. lia. }
    cbn [app dropSpaces]. rewrite Hb.
    exact (dropClosing_fenced (b :: body) w2 H2 Hb2).
Qed.

Lemma not_through (p l w : list N) :
  Forall (fun a => isSpace a = false /\ a <> 96%N) p ->
  spaces w ->
  startsWithUnits p l = false ->
  startsWithUnits p (l ++ w ++ fence) = false.
Proof.
  intros Hp Hw. revert l. induction Hp as [|a p [Ha Hne] _ IH]; intros l;
    [discriminate|].
  destruct l as [|y l]; cbn [app startsWithUnits].
  - intros _. destruct Hw as [|z w Hz _]; cbn [app fence startsWithUnits].
    + apply N.eqb_neq in Hne. now rewrite Hne.
    + destruct (a =? z)%N eqn:E; [|reflexivity].
      apply N.eqb_eq in E. congruence.
  - destruct (a =? y)%N; [|reflexivity]. cbn [andb]. apply IH.
Qed.

(** X23. What [makeTrial] hands to [JSON.parse]: when the trimmed answer
    does not start with three backquotes it is the trimmed answer; when
    the answer is a text without leading or trailing white space wrapped
    in a json fence or in a plain fence, with any white space around the
    fences and inside them, it is exactly the wrapped text (for the plain
    fence, provided the text after the opening fence does not start with
    "json"). *)
Theorem X23_fenced_answer :
  (forall text,
     startsWithUnits fence (trimUnits text) = false ->
     jsonTextOf text = trimUnits text)
  /\ (forall pre w1 body w2 post,
        spaces pre -> spaces w1 -> spaces w2 -> spaces post ->
        trimmed body ->
        jsonTextOf (pre ++ jsonFence ++ w1 ++ body ++ w2 ++ fence ++ post)
        = body
        /\ (startsWithUnits [106; 115; 111; 110]%N (w1 ++ body) = false ->
            jsonTextOf (pre ++ fence ++ w1 ++ body ++ w2 ++ fence ++ post)
            = body)).
Proof.
  split.
  - intros text H. unfold jsonTextOf. cbv zeta. rewrite H.
    destruct (startsWithUnits jsonFence (trimUnits text)) eqn:E;
      [|reflexivity].
    change jsonFence with (fence ++ [106; 115; 111; 110]%N) in E.
    apply startsWithUnits_prefix in E. congruence.
  - intros pre w1 body w2 post Hpre H1 H2 Hpost Hbody. split.
    + destruct (unfence jsonFence pre w1 body w2 post Hpre H1 H2 Hpost Hbody)
        as [E R]; [now exists 96%N, (tl jsonFence)|].
      unfold jsonTextOf. cbv zeta. rewrite E at 1.
      now rewrite startsWithUnits_app.
    + intros Hjson.
      destruct (unfence fence pre w1 body w2 post Hpre H1 H2 Hpost Hbody)
        as [E R]; [now exists 96%N, (tl fence)|].
      unfold jsonTextOf. cbv zeta.
      assert (startsWithUnits jsonFence
                (trimUnits (pre ++ fence ++ w1 ++ body ++ w2 ++ fence ++ post))
              = false) as ->.
      { rewrite E.
        change (startsWithUnits jsonFence
                  (fence ++ w1 ++ body ++ w2 ++ fence))
          with (startsWithUnits [106; 115; 111; 110]%N
                  (w1 ++ body ++ w2 ++ fence)).
        rewrite app_assoc.
        apply not_through; [|exact H2|exact Hjson].
        repeat constructor; discriminate. }
      rewrite E at 1. now rewrite startsWithUnits_app.
Qed.


(** ** text-extractor.ts *)

Lemma truncateText_short (text : list N) :
  List.length text <= MAX_CHARS -> truncateText text = text.
Proof.
  intros H. unfold truncateText.
  now replace (MAX_CHARS <? List.length text) with false
    by (symmetry; apply Nat.ltb_ge; exact H).
Qed.

Lemma truncateText_long (text : list N) :
  MAX_CHARS < List.length text ->
  truncateText text = firstn MAX_CHARS text ++ truncatedMark
  /\ List.length (truncateText text) = MAX_CHARS + 20.
Proof.
  intros H. unfold truncateText.
  replace (MAX_CHARS <? List.length text) with true
    by (symmetry; apply Nat.ltb_lt; exact H).
  split; [reflexivity|].
  rewrite length_app, firstn_length_le by lia. reflexivity.
Qed.

Lemma truncateText_length (text : list N) :
  List.length (truncateText text) <= MAX_CHARS + 20.
Proof.
  destruct (Nat.le_gt_cases (List.length text) MAX_CHARS) as [H|H].
  - rewrite (truncateText_short _ H). lia.
  - rewrite (proj2 (truncateText_long _ H)). lia.
Qed.

Lemma squeeze_invariant (run : nat) (s : list N) :
  noTripleNewline (Nat.min run 2) (squeezeNewlines run s) = true
  /\ List.length (squeezeNewlines run s) <= List.length s.
Proof.
  revert run. induction s as [|c s IH]; intros run; [now split|].
  cbn [squeezeNewlines]. destruct (c =? 10)%N eqn:E.
  - destruct (run <? 2) eqn:Er.
    + apply Nat.ltb_lt in Er. destruct (IH (S run)) as [IH1 IH2].
      cbn [noTripleNewline List.length]. rewrite E.
      replace (Nat.min run 2) with run by lia.
      replace (run <? 2) with true by (symmetry; apply Nat.ltb_lt; exact Er).
      replace (Nat.min (S run) 2) with (S run) in IH1 by lia.
      split; [exact IH1|lia].
    + apply Nat.ltb_ge in Er. destruct (IH (S run)) as [IH1 IH2].
      replace (Nat.min (S run) 2) with 2 in IH1 by lia.
      replace (Nat.min run 2) with 2 by lia.
      cbn [List.length]. split; [exact IH1|lia].
  - destruct (IH 0) as [IH1 IH2].
    cbn [noTripleNewline List.length]. rewrite E. split; [exact IH1|lia].
Qed.

Lemma squeeze_fixed (run : nat) (s : list N) :
  noTripleNewline run s = true -> squeezeNewlines run s = s.
Proof.
  revert run. induction s as [|c s IH]; intros run; [reflexivity|].
  cbn [noTripleNewline squeezeNewlines]. destruct (c =? 10)%N.
  - intros H. apply andb_true_iff in H. destruct H as [-> H].
    now rewrite (IH _ H).
  - intros H. now rewrite (IH _ H).
Qed.

(** X24. The text extractor: every extension for which
    [isExtractionSupported] answers true is one the [switch] of
    [extractText] sends to an extractor, and conversely; the extensions
    that [p]eek previews are those sent to the text-file extractor.  A
    text of at most 15000 code units is returned as it is, a longer one is
    cut to its first 15000 code units followed by the 20 units of the
    truncation mark, so the mark makes the result longer than
    [MAX_CHARS].  Squeezing the newlines leaves no three in a row, never
    lengthens the text and changes nothing in a text without three
    newlines in a row; what [extractFromDocx] returns has at most
    [MAX_CHARS + 28] code units. *)
Theorem X24_text_extractor :
  (forall ext,
     isExtractionSupported ext = true <-> extractorFor ext <> None)
  /\ (forall ext,
        In ext textExtensionsForPeek <-> extractorFor ext = Some FromTextFile)
  /\ (forall content,
        (List.length content <= MAX_CHARS ->
         extractFromTextFile content = content)
        /\ (MAX_CHARS < List.length content ->
            extractFromTextFile content
            = firstn MAX_CHARS content ++ truncatedMark
            /\ List.length (extractFromTextFile content) = MAX_CHARS + 20))
  /\ (forall value,
        noTripleNewline 0 (squeezeNewlines 0 value) = true
        /\ List.length (squeezeNewlines 0 value) <= List.length value
        /\ (noTripleNewline 0 value = true -> squeezeNewlines 0 value = value)
        /\ List.length (extractFromDocx value) <= 8 + (MAX_CHARS + 20)).
Proof.
  split; [|split; [|split]].
  - intros ext. unfold isExtractionSupported, extractorFor. cbn [existsb].
    repeat match goal with
           | |- context [String.eqb ext ?s] =>
               destruct (String.eqb ext s); cbn [orb];
               [split; [discriminate|reflexivity]|]
           end.
    split; congruence.
  - intros ext. unfold textExtensionsForPeek, extractorFor.
    destruct (String.eqb ext ".pdf") eqn:E1.
    { apply String.eqb_eq in E1. subst ext. split; [|discriminate].
      cbn [In]. intuition discriminate. }
    destruct (String.eqb ext ".docx") eqn:E2.
    { apply String.eqb_eq in E2. subst ext. split; [|discriminate].
      cbn [In]. intuition discriminate. }
    rewrite <- (existsb_eqb_In ext). cbn [existsb].
    repeat match goal with
           | |- context [String.eqb ext ?s] =>
               destruct (String.eqb ext s); cbn [orb];
               [split; reflexivity|]
           end.
    split; discriminate.
  - intros content. split; [apply truncateText_short|apply truncateText_long].
  - intros value. destruct (squeeze_invariant 0 value) as [H1 H2].
    split; [exact H1|]. split; [exact H2|]. split; [apply squeeze_fixed|].
    unfold extractFromDocx. cbv zeta. rewrite length_app.
    pose proof (truncateText_length
                  (trimUnits (squeezeNewlines 0 value))) as Hl.
    cbn [List.length]. lia.
Qed.


(** ** scan-hierarchy.ts *)

Section ScannerFacts.
Variable toLowerCase : string -> string.
Variable sortNames : list string -> list string.
Variable join : string -> string -> string.
Variable readdirSync : string -> option (list string).
Variable statSync : string -> Stat.

Local Abbreviation scanLevels' :=
  (scanLevels toLowerCase sortNames join readdirSync statSync).
Local Abbreviation scanned' :=
  (scanned toLowerCase join readdirSync statSync).
Local Abbreviation kept :=
  (keptByScan toLowerCase join readdirSync statSync).
Local Abbreviation sound :=
  (scanSound toLowerCase sortNames join readdirSync statSync).

Hypothesis sort_rearranges : sortRearranges sortNames.

Lemma children_assign (P : Hierarchy -> Prop) (key : string)
    (v h : Hierarchy) :
  P v -> Forall (fun entry => P (snd entry)) (childrenOf h) ->
  Forall (fun entry => P (snd entry)) (childrenOf (assign key v h)).
Proof.
  intros Hv Hh. unfold assign. destruct (String.eqb key "__proto__");
    [exact Hh|now apply children_ownSet].
Qed.

Lemma depth_bounded (m : nat) (h : Hierarchy) :
  Forall (fun entry => getDepth (snd entry) <= m) (childrenOf h) ->
  getDepth h <= S m.
Proof.
  destruct h as [l]. cbn [childrenOf]. intros H. rewrite getDepth_unfold.
  destruct l as [|e l]; [lia|].
  assert (list_max (map (fun entry => getDepth (snd entry)) (e :: l)) <= m);
    [|lia].
  apply list_max_le, Forall_map. exact H.
Qed.

Lemma scan_fold (levels : nat) (base : string) (entries names : list string) :
  sound levels ->
  readdirSync base = Some entries ->
  (forall name, In name names -> In name entries) ->
  forall result,
    kept levels base result ->
    kept levels base
         (fold_left (scanEntry toLowerCase join statSync
                               (scanLevels' levels) base)
                    names result).
Proof.
  intros Hsound Hread. induction names as [|name names IH];
    intros Hin result Hkept; [exact Hkept|].
  cbn [fold_left]. apply IH; [intros n Hn; apply Hin; now right|].
  unfold scanEntry. destruct (statSync (join base name)) eqn:Es;
    try exact Hkept.
  destruct (shouldSkipFolder toLowerCase name) eqn:Ek; [exact Hkept|].
  destruct Hkept as (Hd & Hall & Hget).
  destruct (Hsound (join base name)) as (Sd & Sdepth & Swalk).
  split; [now apply distinctKeys_assign|].
  split; [now apply (children_assign (fun v => getDepth v <= levels))|].
  intros k c. rewrite ownGet_assign.
  destruct (String.eqb k name && negb (String.eqb name "__proto__")) eqn:E;
    [|apply Hget].
  apply andb_true_iff in E. destruct E as [E _].
  apply String.eqb_eq in E. subst k. intros [= <-].
  split; [exists entries; split; [exact Hread|apply Hin; now left]|].
  split; [exact Es|]. split; [exact Ek|exact Swalk].
Qed.

Lemma kept_sound (levels : nat) (base : string) (h : Hierarchy) :
  kept levels base h ->
  distinctKeys h /\ getDepth h <= S levels
  /\ forall q x, walk q h = Reached x -> scanned' base q.
Proof.
  intros (Hd & Hall & Hget). split; [exact Hd|].
  split; [now apply depth_bounded|].
  intros [|k q] x Hw; [exact I|].
  cbn [walk] in Hw. destruct (ownGet k h) as [c|] eqn:E.
  - destruct (Hget k c E) as (H1 & H2 & H3 & H4).
    cbn. repeat split; try assumption. exact (H4 q x Hw).
  - destruct (inherited k); [destruct q|]; discriminate.
Qed.

Lemma kept_empty (levels : nat) (base : string) :
  kept levels base (Folders []).
Proof.
  split; [apply distinctKeys_empty|]. split; [constructor|].
  intros k c H. discriminate H.
Qed.

Lemma scanLevels_sound (levels : nat) : sound levels.
Proof.
  induction levels as [|levels IH]; intros base.
  - cbn. split; [apply distinctKeys_empty|]. split; [lia|].
    intros q x Hw. destruct (kept_sound 0 base _ (kept_empty 0 base))
      as (_ & _ & H). exact (H q x Hw).
  - unfold scanLevels'. cbn [scanLevels].
    destruct (readdirSync base) as [entries|] eqn:Er.
    + apply kept_sound.
      apply (scan_fold levels base entries); try assumption.
      * intros name. apply Permutation_in, sort_rearranges.
      * apply kept_empty.
    + destruct (kept_sound levels base _ (kept_empty levels base))
        as (H1 & H2 & H3).
      split; [exact H1|]. split; [exact H2|exact H3].
Qed.

End ScannerFacts.

(** X25. Provided [entries.sort()] rearranges the entries, [scanFolder]
    stops at [MAX_DEPTH] whatever the file system answers, also when links
    make it cyclic: the hierarchy it returns is at most [MAX_DEPTH - depth]
    levels deep.  Every folder in it is one of the names that
    [readdirSync] returned for its parent, is a directory according to
    [statSync] and is not one that [shouldSkipFolder] skips, so no name
    that starts with a dot appears at any level. *)
Theorem X25_scanFolder :
  forall (toLowerCase : string -> string)
         (sortNames : list string -> list string)
         (join : string -> string -> string)
         (readdirSync : string -> option (list string))
         (statSync : string -> Stat)
         (folderPath : string) (depth : nat),
    sortRearranges sortNames ->
    let h := scanFolder toLowerCase sortNames join readdirSync statSync
                        folderPath depth in
    getDepth h <= MAX_DEPTH - depth
    /\ (MAX_DEPTH <= depth -> h = Folders [])
    /\ (forall q x,
          walk q h = Reached x ->
          List.length q <= MAX_DEPTH - depth
          /\ scanned toLowerCase join readdirSync statSync folderPath q
          /\ Forall (fun name => prefix "." name = false) q).
Proof.
  intros toLowerCase sortNames join readdirSync statSync folderPath depth
         Hsort h.
  destruct (scanLevels_sound toLowerCase sortNames join readdirSync statSync
              Hsort (MAX_DEPTH - depth) folderPath) as (Hd & Hdepth & Hwalk).
  fold (scanFolder toLowerCase sortNames join readdirSync statSync
                   folderPath depth) in Hd, Hdepth, Hwalk.
  fold h in Hd, Hdepth, Hwalk.
  split; [exact Hdepth|]. split.
  - intros Hle. unfold h, scanFolder.
    now replace (MAX_DEPTH - depth) with 0 by lia.
  - intros q x Hw. pose proof (Hwalk q x Hw) as Hs. split; [|split].
    + destruct q as [|k q]; [simpl; lia|].
      assert (In (k :: q) (paths h)) as Hin
        by (apply paths_walk; [discriminate|now exists x]).
      pose proof (length_paths_le_depth h _ Hin). lia.
    + exact Hs.
    + clear - Hs. revert folderPath Hs.
      induction q as [|k q IH]; intros base Hs; [constructor|].
      destruct Hs as (_ & _ & Hskip & Hrest).
      constructor; [|exact (IH _ Hrest)].
      unfold shouldSkipFolder in Hskip.
      destruct (prefix "." k); [discriminate|reflexivity].
Qed.

(** A folder [root] that holds the folders [docs] and [.git] and the file
    [a.txt], with [docs] holding [tax]; the sort here reverses the
    listing. *)
Lemma X25_scanFolder_witness :
  let toLowerCase := fun s : string => s in
  let sortNames := fun l : list string => rev l in
  let join := fun a b : string => (a ++ "/" ++ b)%string in
  let readdirSync := fun p : string =>
    if String.eqb p "root" then Some ["a.txt"; ".git"; "docs"]%string
    else if String.eqb p "root/docs" then Some ["tax"%string]
    else if String.eqb p "root/docs/tax" then Some []
    else None in
  let statSync := fun p : string =>
    if String.eqb p "root/a.txt" then NotDirectory
    else if String.eqb p "root/.git" then IsDirectory
    else if String.eqb p "root/docs" then IsDirectory
    else if String.eqb p "root/docs/tax" then IsDirectory
    else StatFails in
  let h := scanFolder toLowerCase sortNames join readdirSync statSync
                      "root" 0 in
  sortRearranges sortNames
  /\ h = Folders [("docs", Folders [("tax", Folders [])])]%string
  /\ getDepth h <= MAX_DEPTH - 0
  /\ scanned toLowerCase join readdirSync statSync "root"
             ["docs"; "tax"]%string.
Proof.
  intros toLowerCase sortNames join readdirSync statSync h.
  assert (sortRearranges sortNames) as Hsort
    by (intros l; symmetry; apply Permutation_rev).
  destruct (X25_scanFolder toLowerCase sortNames join readdirSync statSync
              "root" 0 Hsort) as (Hdepth & _ & Hwalk).
  split; [exact Hsort|]. split; [vm_compute; reflexivity|].
  split; [exact Hdepth|].
  refine (proj1 (proj2 (Hwalk ["docs"; "tax"]%string (Folders []) _))).
  vm_compute. reflexivity.
Defined.


(** ** mover.ts *)

Lemma transfer_result (FS : Type)
    (renameSync copyFileSync : FS -> string -> string -> string + FS)
    (unlinkSync : FS -> string -> string + FS)
    (fs : FS) (sourcePath destinationPath : string) :
  let r := fst (transfer renameSync copyFileSync unlinkSync fs
                         sourcePath destinationPath) in
  m_sourcePath r = sourcePath
  /\ m_destinationPath r = destinationPath
  /\ (m_success r = true <-> m_error r = None).
Proof.
  unfold transfer.
  destruct (renameSync fs sourcePath destinationPath) as [e|fs1];
    [|cbn; intuition congruence].
  destruct (copyFileSync fs sourcePath destinationPath) as [e1|fs1];
    [cbn; intuition congruence|].
  destruct (unlinkSync fs1 sourcePath); cbn; intuition congruence.
Qed.

(** X26. [dryRunMove] makes the same three checks as [moveFile] without
    [createIfMissing], in the same order: when it reports an issue,
    [moveFile] refuses with an error and touches neither the file system
    nor hierarchy.json; when it reports none, [moveFile] goes on to
    transfer the file.  Whatever the flags, a result of [moveFile] has
    [success] true exactly when it carries no error, and then the source
    existed; hierarchy.json is changed only when [createIfMissing] is set
    and the destination folder was missing, and then to what the update
    for the destination path gives. *)
Theorem X26_moveFile_checks :
  forall (FS : Type) (existsSync : FS -> string -> bool)
         (mkdirSync : FS -> string -> string + FS)
         (renameSync copyFileSync : FS -> string -> string -> string + FS)
         (unlinkSync : FS -> string -> string + FS)
         (joinPath : string -> list string -> string)
         (basename : string -> string)
         (fs : FS) (stored : Hierarchy) (sourcePath : string)
         (hierarchyPath : list string) (basePath : string),
    let move :=
      moveFile existsSync mkdirSync renameSync copyFileSync unlinkSync
               joinPath basename fs stored sourcePath hierarchyPath
               basePath in
    let dry :=
      dryRunMove existsSync joinPath basename fs sourcePath hierarchyPath
                 basePath in
    let destinationFolder := joinPath basePath hierarchyPath in
    let destinationPath := joinPath destinationFolder [basename sourcePath] in
    (wouldSucceed dry = true <-> issue dry = None)
    /\ (wouldSucceed dry = false ->
        exists r, move false = Returned r fs stored
                  /\ m_success r = false /\ m_error r <> None)
    /\ (wouldSucceed dry = true ->
        move false
        = Returned (fst (transfer renameSync copyFileSync unlinkSync fs
                                  sourcePath destinationPath))
                   (snd (transfer renameSync copyFileSync unlinkSync fs
                                  sourcePath destinationPath))
                   stored)
    /\ (forall createIfMissing r fs' stored',
          move createIfMissing = Returned r fs' stored' ->
          m_sourcePath r = sourcePath
          /\ m_destinationPath r = destinationPath
          /\ (m_success r = true <-> m_error r = None)
          /\ (m_success r = true -> existsSync fs sourcePath = true)
          /\ (stored' = stored
              \/ (createIfMissing = true
                  /\ existsSync fs sourcePath = true
                  /\ existsSync fs destinationFolder = false
                  /\ recordNewFolders hierarchyPath stored = Some stored'))).
Proof.
  intros FS existsSync mkdirSync renameSync copyFileSync unlinkSync joinPath
         basename fs stored sourcePath hierarchyPath basePath
         move dry destinationFolder destinationPath.
  unfold move, dry, moveFile, dryRunMove, hierarchyPathToFilesystemPath.
  fold destinationFolder. fold destinationPath.
  destruct (existsSync fs sourcePath) eqn:Esrc; cbn [negb].
  2:{ split; [cbn; split; discriminate|].
      split; [intros _; eexists; split; [reflexivity|cbn; split;
                                          [reflexivity|discriminate]]|].
      split; [discriminate|].
      intros c r fs' stored' [= <- <- <-]. cbn.
      intuition congruence. }
  destruct (existsSync fs destinationFolder) eqn:Efolder; cbn [negb].
  2:{ split; [cbn; split; discriminate|].
      split; [intros _; eexists; split; [reflexivity|cbn; split;
                                          [reflexivity|discriminate]]|].
      split; [discriminate|].
      intros [|] r fs' stored'.
      - destruct (mkdirSync fs destinationFolder) as [err|fs1];
          [discriminate|].
        destruct (recordNewFolders hierarchyPath stored) as [s1|] eqn:Erec;
          [|discriminate].
        destruct (existsSync fs1 destinationPath).
        + intros [= <- <- <-]. cbn. intuition congruence.
        + pose proof (transfer_result FS renameSync copyFileSync unlinkSync
                        fs1 sourcePath destinationPath) as Ht.
          destruct (transfer renameSync copyFileSync unlinkSync
                             fs1 sourcePath destinationPath) as [r0 fs0].
          cbn [fst] in Ht. intros [= <- <- <-].
          destruct Ht as (H1 & H2 & H3).
          repeat split; try assumption; try apply H3.
          right. now repeat split.
      - intros [= <- <- <-]. cbn. intuition congruence. }
  pose proof (transfer_result FS renameSync copyFileSync unlinkSync fs
                sourcePath destinationPath) as Ht.
  destruct (existsSync fs destinationPath) eqn:Efile.
  - split; [cbn; split; discriminate|].
    split; [intros _; eexists; split; [reflexivity|cbn; split;
                                        [reflexivity|discriminate]]|].
    split; [discriminate|].
    intros c r fs' stored' [= <- <- <-]. cbn. intuition congruence.
  - destruct (transfer renameSync copyFileSync unlinkSync fs
                       sourcePath destinationPath) as [r0 fs0].
    cbn [fst snd] in *. split; [cbn; split; reflexivity|].
    split; [discriminate|]. split; [reflexivity|].
    intros c r fs' stored' [= <- <- <-].
    destruct Ht as (H1 & H2 & H3).
    repeat split; try assumption; try apply H3. now left.
Qed.


(** ** Permuting the trials *)

Lemma rank_first_sighting (trials : list TrialResult) (n : Normalized) :
  In n (rank trials) ->
  exists s ss,
    withKey (keyOfNormalized n) (allSuggestions trials) = s :: ss
    /\ n_path n = path s
    /\ n_newFolderName n = newFolderName s
    /\ n_isNewFolder n = isNewFolder s
    /\ n_count n = List.length (s :: ss).
Proof.
  intros Hin.
  assert (grandTotal (aggregateSuggestions trials) <> 0%Qc) as Hne.
  { apply rank_total_nonzero. intros E. rewrite E in Hin. contradiction. }
  unfold rank in Hin.
  apply (Permutation_in _ (normalizeConfidences_perm _ Hne)) in Hin.
  apply in_map_iff in Hin as ([key e] & <- & Hin).
  pose proof (keyed_aggregateSuggestions trials) as Hk.
  rewrite Forall_forall in Hk. pose proof (Hk _ Hin) as Hkey.
  unfold keyed in Hkey. cbn [fst snd] in Hkey.
  assert (keyOfNormalized
            (normalizeItem (grandTotal (aggregateSuggestions trials)) (key, e))
          = key) as -> by exact Hkey.
  pose proof (In_get _ key e _ (NoDup_keys_aggregateSuggestions trials) Hin)
    as Hget.
  rewrite get_aggregateSuggestions in Hget.
  destruct (withKey key (allSuggestions trials)) as [|s ss];
    [discriminate|].
  injection Hget as <-. exists s, ss. repeat split.
Qed.

(** C3, as stated, fails.  Two candidates with equal normalised confidence
    come out in the order in which they were first seen, so swapping the
    two trials swaps the ranked output.  And when two different
    suggestions share a key, the candidate shows the path of the one seen
    first, which changes with the order of the trials too. *)
Lemma C3_order_dependent_counterexample :
  let t1 := trialOf [existingFolder ["Archive"%string] 50] in
  let t2 := trialOf [existingFolder ["Inbox"%string] 50] in
  let u1 := trialOf [existingFolder ["Work"; "NEW:Taxes"]%string 40] in
  let u2 := trialOf [newFolder ["Work"%string] "Taxes" 60] in
  Permutation [t1; t2] [t2; t1]
  /\ map (@n_path) (rank [t1; t2]) = [["Archive"%string]; ["Inbox"%string]]
  /\ map (@n_path) (rank [t2; t1]) = [["Inbox"%string]; ["Archive"%string]]
  /\ rank [t1; t2] <> rank [t2; t1]
  /\ map (@n_path) (rank [u1; u2]) = [["Work"; "NEW:Taxes"]%string]
  /\ map (@n_path) (rank [u2; u1]) = [["Work"%string]].
Proof.
  intros t1 t2 u1 u2.
  assert (map (@n_path) (rank [t1; t2])
          = [["Archive"%string]; ["Inbox"%string]]) as H12
    by (vm_compute; reflexivity).
  assert (map (@n_path) (rank [t2; t1])
          = [["Inbox"%string]; ["Archive"%string]]) as H21
    by (vm_compute; reflexivity).
  split; [apply perm_swap|]. split; [exact H12|]. split; [exact H21|].
  split; [|split; vm_compute; reflexivity].
  intros E. rewrite E, H21 in H12. discriminate H12.
Qed.

(** C3, amended. For trials whose confidences are whole numbers between 0
    and 100 and every permutation of them: every key has the same total confidence, a whole
    number, and the same count after aggregation; the ranked outputs list
    the same keys with the same normalised confidence and the same count,
    both in descending order of normalised confidence; and the two
    outputs are the same sequence of keys, confidences and counts
    whenever no two candidates have equal normalised confidence.  Ties are
    not broken by key: the sort leaves candidates of equal normalised
    confidence in the order of the array it is given, which is the order
    in which their keys were first seen.  The path, the name and the
    new-folder flag that a candidate shows are those of the first
    suggestion seen with its key. *)
Theorem C3_rank_permutation :
  forall trials trials' : list TrialResult,
    Permutation trials trials' ->
    wholeConfidences trials ->
    (forall key,
        option_map stats (JsMap.get key (aggregateSuggestions trials))
        = option_map stats (JsMap.get key (aggregateSuggestions trials')))
    /\ (forall key e,
          JsMap.get key (aggregateSuggestions trials) = Some e ->
          exists z : Z, totalConfidence e = Num.lit z)
    /\ Permutation (map view (rank trials)) (map view (rank trials'))
    /\ descending (rank trials)
    /\ descending (rank trials')
    /\ (NoDup (map (@normalizedConfidence) (rank trials)) ->
        map view (rank trials) = map view (rank trials'))
    /\ map keyOfNormalized (beforeSort trials)
       = firstSightings (map keyOf (allSuggestions trials))
    /\ (rank trials <> [] ->
        forall v, tiedAt v (rank trials) = tiedAt v (beforeSort trials))
    /\ (forall n,
          In n (rank trials) ->
          exists s ss,
            withKey (keyOfNormalized n) (allSuggestions trials) = s :: ss
            /\ n_path n = path s
            /\ n_newFolderName n = newFolderName s
            /\ n_isNewFolder n = isNewFolder s
            /\ n_count n = List.length (s :: ss)).
Proof.
  intros trials trials' Hp Hwhole.
  pose proof (rank_perm_view _ _ Hp) as Hv.
  pose proof (normalizeConfidences_descending (aggregateSuggestions trials))
    as Hd.
  pose proof (normalizeConfidences_descending (aggregateSuggestions trials'))
    as Hd'.
  split; [now apply aggregateSuggestions_perm_lookup|].
  split; [intros key e; now apply whole_totals|].
  split; [exact Hv|]. split; [exact Hd|]. split; [exact Hd'|].
  split; [intros Hn; now apply descending_unique|].
  split; [rewrite keys_beforeSort; apply keys_aggregateSuggestions|].
  split; [|apply rank_first_sighting].
  intros Hne v. rewrite (rank_beforeSort _ Hne). apply tiedAt_sort.
Qed.

(** Three trials with whole-number confidences and their reversal: without
    ties the ranked candidates are the same sequence. *)
Lemma C3_rank_permutation_witness :
  let t1 := trialOf [existingFolder ["Archive"%string] 70;
                     existingFolder ["Inbox"%string] 20] in
  let t2 := trialOf [existingFolder ["Inbox"%string] 40] in
  let t3 := trialOf [newFolder ["Archive"%string] "Taxes" 30] in
  Permutation [t1; t2; t3] [t3; t2; t1]
  /\ wholeConfidences [t1; t2; t3]
  /\ Permutation (map view (rank [t1; t2; t3])) (map view (rank [t3; t2; t1]))
  /\ descending (rank [t1; t2; t3]).
Proof.
  intros t1 t2 t3.
  assert (Permutation [t1; t2; t3] [t3; t2; t1]) as Hp.
  { apply (perm_trans (perm_skip t1 (perm_swap t3 t2 [])));
    apply (perm_trans (perm_swap t3 t1 [t2]));
    apply perm_skip; apply perm_swap. }
  assert (wholeConfidences [t1; t2; t3]) as Hw.
  { unfold wholeConfidences. cbn.
    repeat constructor; eexists; (split; [|reflexivity]); lia. }
  destruct (C3_rank_permutation [t1; t2; t3] [t3; t2; t1] Hp Hw)
    as (_ & _ & Hv & Hd & _).
  split; [exact Hp|]. split; [exact Hw|]. split; [exact Hv|exact Hd].
Defined.
